(** * Page replacement: Clock, LFU and LRU

    The repository holds three stand-alone C programs, one per replacement
    policy.  Each defines its own [Frame], [FrameList], [createFrameList],
    [findFrame] and [loadPage]; here each program lives in a module of its
    own ([Clock], [LFU], [LRU]).  The two programs built on a doubly linked
    list share, word for word, [insertFrame], [removeFrame], [findFrame] and
    [createFrameList]; those are embedded once, in [DList].

    The Clock table is an array inside the list structure and is modelled
    as a list of slots.  The LFU and LRU frames are allocated one by one
    and linked by pointers; they are modelled in a memory, a finite map
    from addresses to frames, and the programs run in a state-and-fault
    monad over it.  Loops take a budget that counts the executions of
    their body; the proofs show which budget is enough.

    The file has three parts: the programs, the lemmas about them, and
    the properties of the specification. *)

From stdpp Require Import gmap list fin_maps.
From Stdlib Require Import ZArith Lia.

Local Open Scope Z_scope.

(** ** C integers and outcomes *)

(** [#define NUM_FRAMES 4] (the same in the three programs). *)
Definition NUM_FRAMES : Z := 4.

(** An [int] is 32 bits wide.  [wrap] is the two's-complement reduction
    applied to [x++], [x--] and [x + 1] on [int] fields.  (C leaves signed
    overflow undefined; the model takes the wrap-around of the usual
    targets.  No counter of a reachable state comes near the bounds,
    except a frequency after 2^31 hits on one page.) *)
Definition INT_MIN : Z := - 2 ^ 31.
Definition INT_MAX : Z := 2 ^ 31 - 1.
Definition wrap (z : Z) : Z := (z + 2 ^ 31) mod 2 ^ 32 - 2 ^ 31.

(** What running a piece of the program produces: a value, a fault (a
    dereference of NULL or of a freed frame, an index outside an array), or
    the exhaustion of the iteration budget given to its loops. *)
Inductive result (A : Type) : Type :=
| Ret (a : A)
| Crash
| OutOfFuel.
Arguments Ret {A} a.
Arguments Crash {A}.
Arguments OutOfFuel {A}.

Definition rbind {A B} (r : result A) (k : A -> result B) : result B :=
  match r with
  | Ret a => k a
  | Crash => Crash
  | OutOfFuel => OutOfFuel
  end.

Notation "'let*' x := e 'in' k" := (rbind e (fun x => k))
  (at level 10, x name, e at level 100, k at level 200, only parsing).

(** ** The Clock program (LRU-CLOCK.c) *)
Module Clock.

Record Frame := mkFrame {
  page : Z;          (* int page: -1 when empty *)
  valid : bool;
  reference : bool
}.

Record FrameList := mkFrameList {
  numFrames : Z;
  frames : list Frame;   (* Frame frames[NUM_FRAMES] *)
  clockHand : Z
}.

(** [frames[i]] read and written; an index outside the array is a fault. *)
Definition frame_at (fs : list Frame) (i : Z) : result Frame :=
  if i <? 0 then Crash
  else match fs !! Z.to_nat i with
       | Some f => Ret f
       | None => Crash
       end.

(** [frameList->frames[i].field = v]: one field of one slot is overwritten. *)
Definition update_frame (fl : FrameList) (i : Z) (g : Frame -> Frame) : result FrameList :=
  let* f := frame_at (frames fl) i in
  Ret (mkFrameList (numFrames fl) (<[Z.to_nat i := g f]> (frames fl)) (clockHand fl)).

Definition with_page (pg : Z) (f : Frame) : Frame := mkFrame pg (valid f) (reference f).
Definition with_valid (b : bool) (f : Frame) : Frame := mkFrame (page f) b (reference f).
Definition with_reference (b : bool) (f : Frame) : Frame := mkFrame (page f) (valid f) b.

Definition set_hand (fl : FrameList) (h : Z) : FrameList :=
  mkFrameList (numFrames fl) (frames fl) h.

(** The allocation is taken to succeed. *)
Definition createFrameList : FrameList :=
  mkFrameList 0 (replicate (Z.to_nat NUM_FRAMES) (mkFrame (-1) false false)) 0.

(** [for (i = 0; i < NUM_FRAMES; i++)]: [n] counts the iterations left. *)
Fixpoint findFrame_from (fs : list Frame) (pg : Z) (i : Z) (n : nat) : result Z :=
  match n with
  | O => Ret (-1)
  | S n' =>
      let* f := frame_at fs i in
      if page f =? pg then Ret i
      else findFrame_from fs pg (wrap (i + 1)) n'
  end.

Definition findFrame (fl : FrameList) (pg : Z) : result Z :=
  findFrame_from (frames fl) pg 0 (Z.to_nat NUM_FRAMES).

(** The [while (true)] of [loadPage]; [fuel] bounds the number of times
    the loop body runs. *)
Fixpoint scan (fuel : nat) (fl : FrameList) (pg : Z) : result FrameList :=
  match fuel with
  | O => OutOfFuel
  | S fuel' =>
      let* f := frame_at (frames fl) (clockHand fl) in
      if negb (valid f) || negb (reference f) then
        let* fl1 := update_frame fl (clockHand fl) (with_page pg) in
        let* fl2 := update_frame fl1 (clockHand fl1) (with_valid true) in
        let* fl3 := update_frame fl2 (clockHand fl2) (with_reference true) in
        Ret (set_hand fl3 (Z.rem (wrap (clockHand fl3 + 1)) NUM_FRAMES))
      else
        let* fl1 := update_frame fl (clockHand fl) (with_reference false) in
        scan fuel' (set_hand fl1 (Z.rem (wrap (clockHand fl1 + 1)) NUM_FRAMES)) pg
  end.

Definition loadPage (fuel : nat) (fl : FrameList) (pg : Z) : result FrameList :=
  let* frameIndex := findFrame fl pg in
  if negb (frameIndex =? -1) then
    update_frame fl frameIndex (with_reference true)
  else scan fuel fl pg.

(** Loading a whole access sequence, as [main] does. *)
Fixpoint loadPages (fuel : nat) (fl : FrameList) (pgs : list Z) : result FrameList :=
  match pgs with
  | [] => Ret fl
  | pg :: rest => let* fl' := loadPage fuel fl pg in loadPages fuel fl' rest
  end.

(** States the program can be in: the fresh table, and whatever a
    completed [loadPage] leaves. *)
Inductive reachable : FrameList -> Prop :=
| reach_init : reachable createFrameList
| reach_load fl fuel pg fl' :
    reachable fl -> loadPage fuel fl pg = Ret fl' -> reachable fl'.

Definition occupied (fl : FrameList) : nat :=
  length (filter (fun f => valid f = true) (frames fl)).

Definition resident_pages (fl : FrameList) : list Z :=
  page <$> filter (fun f => valid f = true) (frames fl).

Definition resident (fl : FrameList) (pg : Z) : Prop :=
  exists i f, frames fl !! i = Some f /\ valid f = true /\ page f = pg.

(** The table keeps its [NUM_FRAMES] slots and the hand points at one. *)
Definition shaped (fl : FrameList) : Prop :=
  length (frames fl) = Z.to_nat NUM_FRAMES /\ 0 <= clockHand fl < NUM_FRAMES.

(** The page of an occupied slot is in no other slot. *)
Definition distinct (fl : FrameList) : Prop :=
  forall i j fi fj,
    frames fl !! i = Some fi -> frames fl !! j = Some fj ->
    valid fi = true -> page fi = page fj -> i = j.

(** What a completed scan has done: one slot [k] now holds the page,
    occupied and referenced; every other slot kept its page and its
    occupancy. *)
Definition claimed (fl fl' : FrameList) (pg : Z) : Prop :=
  shaped fl' /\ numFrames fl' = numFrames fl /\
  exists k, frames fl' !! k = Some (mkFrame pg true true) /\
    forall j f, j <> k -> frames fl !! j = Some f ->
      exists f', frames fl' !! j = Some f' /\ page f' = page f /\ valid f' = valid f.

(** What holds of every state the Clock program reaches. *)
Definition Inv (fl : FrameList) : Prop :=
  shaped fl /\ distinct fl /\ numFrames fl = 0.

(** Slots that can make the scan go on: occupied and referenced. *)
Definition marked (fs : list Frame) : nat :=
  length (filter (fun f => valid f && reference f = true) fs).

End Clock.

(** ** The doubly linked list of the LFU and LRU programs

    Frames are allocated one by one with [malloc] and linked through
    [prev] and [next]; the list structure holds [head], [tail] and a
    counter.  The memory is a finite map from addresses to frames, a
    pointer is an address or NULL. *)
Module DList.

Abbreviation addr := positive (only parsing).
Abbreviation ptr := (option positive) (only parsing).

Section Frames.
(** [X] is what a frame carries for its policy: the [int frequency] of
    LFU, nothing for LRU. *)
Context {X : Type}.

Record Frame := mkFrame {
  page : Z;          (* int page: -1 when empty *)
  valid : bool;
  meta : X;
  prev : ptr;
  next : ptr
}.

Record FrameList := mkFrameList {
  numFrames : Z;
  head : ptr;
  tail : ptr
}.

Record state := mkState {
  mem : gmap positive Frame;
  flist : FrameList
}.

(** A piece of program: it reads and updates the state, or fails. *)
Definition M (A : Type) : Type := state -> result (A * state).

Definition ret {A} (a : A) : M A := fun s => Ret (a, s).
Definition bind {A B} (c : M A) (k : A -> M B) : M B :=
  fun s => match c s with
           | Ret (a, s') => k a s'
           | Crash => Crash
           | OutOfFuel => OutOfFuel
           end.
Definition out_of_fuel {A} : M A := fun _ => OutOfFuel.

Notation "'do' x <- c ; k" := (bind c (fun x => k))
  (at level 10, x name, c at level 100, k at level 200, only parsing).
Notation "c ;; k" := (bind c (fun _ => k))
  (at level 100, k at level 200, right associativity, only parsing).

(** [*p]: NULL and freed addresses fault. *)
Definition load (p : ptr) : M Frame := fun s =>
  match p with
  | None => Crash
  | Some a => match mem s !! a with
              | Some f => Ret (f, s)
              | None => Crash
              end
  end.

(** [p->field = v], as the function [g] on the frame. *)
Definition modify (p : ptr) (g : Frame -> Frame) : M unit := fun s =>
  match p with
  | None => Crash
  | Some a => match mem s !! a with
              | Some f => Ret (tt, mkState (<[a := g f]> (mem s)) (flist s))
              | None => Crash
              end
  end.

(** [malloc] is taken to succeed and to return an address not in use. *)
Definition malloc (f : Frame) : M ptr := fun s =>
  let a := fresh (dom (mem s)) in
  Ret (Some a, mkState (<[a := f]> (mem s)) (flist s)).

Definition free (p : ptr) : M unit := fun s =>
  match p with
  | None => Ret (tt, s)
  | Some a => match mem s !! a with
              | Some _ => Ret (tt, mkState (delete a (mem s)) (flist s))
              | None => Crash
              end
  end.

Definition with_page (v : Z) (f : Frame) : Frame :=
  mkFrame v (valid f) (meta f) (prev f) (next f).
Definition with_valid (v : bool) (f : Frame) : Frame :=
  mkFrame (page f) v (meta f) (prev f) (next f).
Definition with_meta (v : X) (f : Frame) : Frame :=
  mkFrame (page f) (valid f) v (prev f) (next f).
Definition with_prev (v : ptr) (f : Frame) : Frame :=
  mkFrame (page f) (valid f) (meta f) v (next f).
Definition with_next (v : ptr) (f : Frame) : Frame :=
  mkFrame (page f) (valid f) (meta f) (prev f) v.

Definition set_page (p : ptr) (v : Z) : M unit := modify p (with_page v).
Definition set_valid (p : ptr) (v : bool) : M unit := modify p (with_valid v).
Definition set_meta (p : ptr) (v : X) : M unit := modify p (with_meta v).
Definition set_prev (p : ptr) (v : ptr) : M unit := modify p (with_prev v).
Definition set_next (p : ptr) (v : ptr) : M unit := modify p (with_next v).

Definition get_prev (p : ptr) : M ptr := do f <- load p; ret (prev f).
Definition get_next (p : ptr) : M ptr := do f <- load p; ret (next f).

Definition get_head : M ptr := fun s => Ret (head (flist s), s).
Definition get_tail : M ptr := fun s => Ret (tail (flist s), s).
Definition get_numFrames : M Z := fun s => Ret (numFrames (flist s), s).
Definition set_head (v : ptr) : M unit := fun s =>
  Ret (tt, mkState (mem s) (mkFrameList (numFrames (flist s)) v (tail (flist s)))).
Definition set_tail (v : ptr) : M unit := fun s =>
  Ret (tt, mkState (mem s) (mkFrameList (numFrames (flist s)) (head (flist s)) v)).
Definition set_numFrames (v : Z) : M unit := fun s =>
  Ret (tt, mkState (mem s) (mkFrameList v (head (flist s)) (tail (flist s)))).

Definition is_null (p : ptr) : bool := match p with None => true | Some _ => false end.
Definition ptr_eqb (p q : ptr) : bool := bool_decide (p = q).

(** [createFrame]: an empty frame; [x0] is the initial policy field. *)
Definition createFrame (x0 : X) : M ptr :=
  malloc (mkFrame (-1) false x0 None None).

(** The list structure when [createFrameList] returns. *)
Definition createFrameList : state :=
  mkState ∅ (mkFrameList 0 None None).

Definition insertFrame (frame : ptr) : M unit :=
  (do hd <- get_head;
   if is_null hd then
     set_head frame ;;
     set_tail frame
   else
     (do hd <- get_head; set_next frame hd) ;;
     (do hd <- get_head; set_prev hd frame) ;;
     set_head frame) ;;
  do n <- get_numFrames; set_numFrames (wrap (n + 1)).

Definition removeFrame (frame : ptr) : M unit :=
  (do fp <- get_prev frame;
   if negb (is_null fp) then
     do fn <- get_next frame; set_next fp fn
   else
     do fn <- get_next frame; set_head fn) ;;
  (do fn <- get_next frame;
   if negb (is_null fn) then
     do fp <- get_prev frame; set_prev fn fp
   else
     do fp <- get_prev frame; set_tail fp) ;;
  (do n <- get_numFrames; set_numFrames (wrap (n - 1))) ;;
  free frame.

(** The [while (current != NULL)] of [findFrame]; [fuel] bounds the number
    of times the loop body runs. *)
Fixpoint findFrame_from (fuel : nat) (current : ptr) (pg : Z) : M ptr :=
  if is_null current then ret None
  else match fuel with
       | O => out_of_fuel
       | S fuel' =>
           do f <- load current;
           if page f =? pg then ret current
           else findFrame_from fuel' (next f) pg
       end.

Definition findFrame (fuel : nat) (pg : Z) : M ptr :=
  do hd <- get_head; findFrame_from fuel hd pg.

(** [printFrameList] walks the list from [head] and prints one line per
    frame; the lines, in order, are what is returned here. *)
Fixpoint print_from (fuel : nat) (current : ptr) : M (list (Z * X * bool)) :=
  if is_null current then ret []
  else match fuel with
       | O => out_of_fuel
       | S fuel' =>
           do f <- load current;
           do rest <- print_from fuel' (next f);
           ret ((page f, meta f, valid f) :: rest)
       end.

Definition printFrameList (fuel : nat) : M (list (Z * X * bool)) :=
  do hd <- get_head; print_from fuel hd.

(** What [printFrameList] shows of a frame. *)
Definition info (f : Frame) : Z * X * bool := (page f, meta f, valid f).

(** The shape of the memory along a stretch of the list.  [ls] gives, in
    order, the address of each frame of the stretch and what the frame
    holds; [hd] is the pointer that enters the stretch, [pv] the [prev] of
    its first frame, [tl] its last frame ([pv] when the stretch is empty)
    and [nx] the [next] of its last frame. *)
Fixpoint dlseg (m : gmap positive Frame) (ls : list (positive * (Z * X * bool)))
    (hd pv tl nx : ptr) : Prop :=
  match ls with
  | [] => hd = nx /\ tl = pv
  | (a, e) :: ls' =>
      hd = Some a /\
      exists f, m !! a = Some f /\ info f = e /\ prev f = pv /\
                dlseg m ls' (next f) (Some a) tl nx
  end.

(** The list structure describes the list [ls]: its frames are linked
    both ways from [head] to [tail], each at an address of its own, and
    [numFrames] counts them. *)
Definition linked (s : state) (ls : list (positive * (Z * X * bool))) : Prop :=
  NoDup ls.*1 /\
  dlseg (mem s) ls (head (flist s)) None (tail (flist s)) None /\
  numFrames (flist s) = Z.of_nat (length ls).

(** [c], run from [s], returns without fault, and its value and final
    state satisfy [Q]. *)
Definition wp {A} (c : M A) (s : state) (Q : A -> state -> Prop) : Prop :=
  exists a s', c s = Ret (a, s') /\ Q a s'.

(** The page of a frame of the list. *)
Definition entry_page (x : positive * (Z * X * bool)) : Z := x.2.1.1.

(** [r] points at the first frame of [ls] that holds page [pg], and is
    NULL when there is none. *)
Definition first_with (pg : Z) (ls : list (positive * (Z * X * bool)))
    (r : option positive) : Prop :=
  match r with
  | None => forall x, x ∈ ls -> entry_page x <> pg
  | Some a => exists l1 e l2, ls = l1 ++ (a, e) :: l2 /\ e.1.1 = pg /\
                forall x, x ∈ l1 -> entry_page x <> pg
  end.

(** With a larger budget for its loops, [c'] returns whatever [c] does. *)
Definition refines {A} (c c' : M A) : Prop :=
  forall s r, c s = Ret r -> c' s = Ret r.

(** The list a reachable state holds: at most [NUM_FRAMES] frames, all
    occupied, no page twice. *)
Definition well_formed (ls : list (positive * (Z * X * bool))) : Prop :=
  Z.of_nat (length ls) <= NUM_FRAMES /\
  NoDup (entry_page <$> ls) /\
  forall x, x ∈ ls -> x.2.2 = true.

(** The state holds the list [ls] and nothing else: every allocated frame
    is on the list. *)
Definition holds (s : state) (ls : list (positive * (Z * X * bool))) : Prop :=
  linked s ls /\ dom (mem s) = list_to_set ls.*1.

(** What holds of every state the LFU and LRU programs reach. *)
Definition Inv (s : state) : Prop :=
  exists ls, holds s ls /\ well_formed ls.

(** The frames [printFrameList] lists, as a function of the state: the
    walk is given as many iterations as there are allocated frames. *)
Definition resident (s : state) : list (Z * X * bool) :=
  match printFrameList (size (mem s)) s with
  | Ret (l, _) => l
  | _ => []
  end.

Definition occupied (s : state) : nat :=
  length (filter (fun e => e.2 = true) (resident s)).

Definition resident_pages (s : state) : list Z :=
  (fun e => e.1.1) <$> filter (fun e => e.2 = true) (resident s).

End Frames.
Arguments Frame : clear implicits.
Arguments state : clear implicits.
Arguments M : clear implicits.

Notation "'do' x <- c ; k" := (bind c (fun x => k))
  (at level 10, x name, c at level 100, k at level 200, only parsing).
Notation "c ;; k" := (bind c (fun _ => k))
  (at level 100, k at level 200, right associativity, only parsing).

End DList.

(** ** The LFU program *)
Module LFU.
Import DList.

(** [struct Frame] has an [int frequency]. *)
Abbreviation Frame := (DList.Frame Z).
Abbreviation state := (DList.state Z).
Definition frequency (f : Frame) : Z := meta f.

Definition createFrame : M Z ptr := DList.createFrame 0.

(** The victim search of [loadPage]: [lfuFrame] is replaced only by a
    frame of strictly smaller frequency. *)
Fixpoint find_lfu (fuel : nat) (lfuFrame current : ptr) : M Z ptr :=
  if is_null current then ret lfuFrame
  else match fuel with
       | O => out_of_fuel
       | S fuel' =>
           do c <- load current;
           do l <- load lfuFrame;
           let lfuFrame' := if frequency c <? frequency l then current else lfuFrame in
           find_lfu fuel' lfuFrame' (next c)
       end.

Definition loadPage (fuel : nat) (pg : Z) : M Z unit :=
  do frame <- findFrame fuel pg;
  if negb (is_null frame) then
    do f <- load frame; set_meta frame (wrap (frequency f + 1))
  else
    do frame <- createFrame;
    set_page frame pg ;;
    set_valid frame true ;;
    set_meta frame 1 ;;
    (do n <- get_numFrames;
     if n =? NUM_FRAMES then
       do hd <- get_head;
       do lfuFrame <- find_lfu fuel hd hd;
       removeFrame lfuFrame
     else ret tt) ;;
    insertFrame frame.

(** The frequency of a frame of the list. *)
Definition entry_freq (x : positive * (Z * Z * bool)) : Z := x.2.1.2.

(** The frame the victim search ends on, from the candidate so far and
    the frames still to visit. *)
Fixpoint pick_lfu (best : positive) (fbest : Z) (ls : list (positive * (Z * Z * bool)))
    : positive :=
  match ls with
  | [] => best
  | (a, e) :: ls' =>
      if e.1.2 <? fbest then pick_lfu a e.1.2 ls' else pick_lfu best fbest ls'
  end.

(** [v] is the first frame of least frequency. *)
Definition lfu_victim (ls l1 : list (positive * (Z * Z * bool))) (v : positive)
    (ev : Z * Z * bool) (l2 : list (positive * (Z * Z * bool))) : Prop :=
  ls = l1 ++ (v, ev) :: l2 /\
  (forall x, x ∈ l1 -> ev.1.2 < entry_freq x) /\
  (forall x, x ∈ l2 -> ev.1.2 <= entry_freq x).

(** What a [loadPage] does to the list of frames: the frequency of a
    resident page goes up by one, in place; a new page enters at the
    front with frequency 1, at an address not in use, after the victim has
    left a full list. *)
Definition lfu_step (pg : Z) (ls ls' : list (positive * (Z * Z * bool))) : Prop :=
  (exists l1 a e l2,
     ls = l1 ++ (a, e) :: l2 /\ e.1.1 = pg /\
     (forall x, x ∈ l1 -> entry_page x <> pg) /\
     ls' = l1 ++ (a, (e.1.1, wrap (e.1.2 + 1), e.2)) :: l2) \/
  ((forall x, x ∈ ls -> entry_page x <> pg) /\
   exists a, (a ∉ ls.*1) /\
     ((Z.of_nat (length ls) <> NUM_FRAMES /\ ls' = (a, (pg, 1, true)) :: ls) \/
      (Z.of_nat (length ls) = NUM_FRAMES /\
       exists l1 v ev l2, lfu_victim ls l1 v ev l2 /\
         ls' = (a, (pg, 1, true)) :: l1 ++ l2))).

(** Loading a whole access sequence, as [main] does. *)
Fixpoint loadPages (fuel : nat) (pgs : list Z) : M Z unit :=
  match pgs with
  | [] => ret tt
  | pg :: rest => loadPage fuel pg ;; loadPages fuel rest
  end.

Inductive reachable : state -> Prop :=
| reach_init : reachable createFrameList
| reach_load s fuel pg s' :
    reachable s -> loadPage fuel pg s = Ret (tt, s') -> reachable s'.

End LFU.

(** ** The LRU program *)
Module LRU.
Import DList.

(** [struct Frame] has no policy field: recency is the list order. *)
Abbreviation Frame := (DList.Frame unit).
Abbreviation state := (DList.state unit).

Definition createFrame : M unit ptr := DList.createFrame tt.

Definition moveToHead (frame : ptr) : M unit unit :=
  do hd <- get_head;
  if ptr_eqb hd frame then ret tt
  else
    (do fp <- get_prev frame;
     if negb (is_null fp) then
       do fn <- get_next frame; set_next fp fn
     else ret tt) ;;
    (do fn <- get_next frame;
     if negb (is_null fn) then
       do fp <- get_prev frame; set_prev fn fp
     else ret tt) ;;
    (do tl <- get_tail;
     if ptr_eqb tl frame then
       do fp <- get_prev frame; set_tail fp
     else ret tt) ;;
    (do hd <- get_head; set_next frame hd) ;;
    set_prev frame None ;;
    (do hd <- get_head;
     if negb (is_null hd) then set_prev hd frame else ret tt) ;;
    set_head frame ;;
    (do tl <- get_tail;
     if is_null tl then set_tail frame else ret tt).

Definition loadPage (fuel : nat) (pg : Z) : M unit unit :=
  do frame <- findFrame fuel pg;
  if negb (is_null frame) then moveToHead frame
  else
    do frame <- createFrame;
    set_page frame pg ;;
    set_valid frame true ;;
    (do n <- get_numFrames;
     if n =? NUM_FRAMES then
       do lruFrame <- get_tail;
       removeFrame lruFrame
     else ret tt) ;;
    insertFrame frame.

(** What a [loadPage] does to the list of frames: a resident page moves
    to the front; a new page enters at the front, at an address not in
    use, after the last frame has left a full list. *)
Definition lru_step (pg : Z) (ls ls' : list (positive * (Z * unit * bool))) : Prop :=
  (exists l1 a e l2,
     ls = l1 ++ (a, e) :: l2 /\ e.1.1 = pg /\
     (forall x, x ∈ l1 -> entry_page x <> pg) /\
     ls' = (a, e) :: l1 ++ l2) \/
  ((forall x, x ∈ ls -> entry_page x <> pg) /\
   exists a, (a ∉ ls.*1) /\
     ls' = (a, (pg, tt, true)) ::
           (if decide (Z.of_nat (length ls) = NUM_FRAMES) then removelast ls else ls)).

(** Loading a whole access sequence, as [main] does. *)
Fixpoint loadPages (fuel : nat) (pgs : list Z) : M unit unit :=
  match pgs with
  | [] => ret tt
  | pg :: rest => loadPage fuel pg ;; loadPages fuel rest
  end.

Inductive reachable : state -> Prop :=
| reach_init : reachable createFrameList
| reach_load s fuel pg s' :
    reachable s -> loadPage fuel pg s = Ret (tt, s') -> reachable s'.

End LRU.

(** ** The three programs side by side *)

(** A state of one of the three programs. *)
Inductive engine : Type :=
| LFU_engine (s : LFU.state)
| LRU_engine (s : LRU.state)
| Clock_engine (fl : Clock.FrameList).

Definition engine_loadPage (fuel : nat) (pg : Z) (e : engine) : result engine :=
  match e with
  | LFU_engine s => let* r := LFU.loadPage fuel pg s in Ret (LFU_engine r.2)
  | LRU_engine s => let* r := LRU.loadPage fuel pg s in Ret (LRU_engine r.2)
  | Clock_engine fl => let* fl' := Clock.loadPage fuel fl pg in Ret (Clock_engine fl')
  end.

Definition engine_reachable (e : engine) : Prop :=
  match e with
  | LFU_engine s => LFU.reachable s
  | LRU_engine s => LRU.reachable s
  | Clock_engine fl => Clock.reachable fl
  end.

(** Frames with [valid = true]: on the list, or in the table. *)
Definition engine_occupied (e : engine) : nat :=
  match e with
  | LFU_engine s => DList.occupied s
  | LRU_engine s => DList.occupied s
  | Clock_engine fl => Clock.occupied fl
  end.

(** The page of each occupied frame, in the order the program prints. *)
Definition engine_resident_pages (e : engine) : list Z :=
  match e with
  | LFU_engine s => DList.resident_pages s
  | LRU_engine s => DList.resident_pages s
  | Clock_engine fl => Clock.resident_pages fl
  end.

(** What a hit may change, program by program: the frequency of the
    touched frame (LFU), its place in the list (LRU), its reference bit
    (Clock).  No frame is allocated or freed, every frame keeps its page
    and its occupancy. *)
Definition hit_effect (pg : Z) (e e' : engine) : Prop :=
  match e, e' with
  | LFU_engine s, LFU_engine s' =>
      dom (DList.mem s') = dom (DList.mem s) /\
      exists l1 x l2,
        DList.resident s = l1 ++ (pg, x, true) :: l2 /\
        DList.resident s' = l1 ++ (pg, wrap (x + 1), true) :: l2
  | LRU_engine s, LRU_engine s' =>
      dom (DList.mem s') = dom (DList.mem s) /\
      exists l1 l2,
        DList.resident s = l1 ++ (pg, tt, true) :: l2 /\
        DList.resident s' = (pg, tt, true) :: l1 ++ l2
  | Clock_engine fl, Clock_engine fl' =>
      exists i f,
        Clock.frames fl !! i = Some f /\ Clock.valid f = true /\ Clock.page f = pg /\
        fl' = Clock.mkFrameList (Clock.numFrames fl)
                (<[i := Clock.with_reference true f]> (Clock.frames fl))
                (Clock.clockHand fl)
  | _, _ => False
  end.

(** On the Clock table -1 is not a page like the others: it is what an
    empty slot has in its [page] field.  The lists have no such value. *)
Definition not_empty_value (e : engine) (pg : Z) : Prop :=
  match e with
  | Clock_engine _ => pg <> -1
  | _ => True
  end.

(** The states the scenarios of the demo programs go through. *)
Definition lfu_after (pgs : list Z) : LFU.state :=
  match LFU.loadPages 4 pgs DList.createFrameList with
  | Ret (_, s) => s
  | _ => DList.createFrameList
  end.

Definition lru_after (pgs : list Z) : LRU.state :=
  match LRU.loadPages 4 pgs DList.createFrameList with
  | Ret (_, s) => s
  | _ => DList.createFrameList
  end.

Definition clock_after (pgs : list Z) : Clock.FrameList :=
  match Clock.loadPages 8 Clock.createFrameList pgs with
  | Ret fl => fl
  | _ => Clock.createFrameList
  end.

(** ** Further notions

    Notions the later properties of the code are stated with. *)

Module ClockView.
Import Clock.

(** The slots fill in index order: the occupied slots come first, the
    empty ones after them still hold the page -1 that [createFrameList]
    wrote, and while one is left the hand is on the first of them. *)
Definition fills_in_order (fl : FrameList) : Prop :=
  exists occ emp,
    frames fl = occ ++ emp /\
    Forall (fun f => valid f = true) occ /\
    Forall (fun f => valid f = false /\ page f = -1) emp /\
    (emp <> [] -> clockHand fl = Z.of_nat (length occ)).

End ClockView.

Module ClockQueue.
Import Clock.

(** The table read as a queue: the slot under the hand first, then the
    following ones, around the end of the array. *)
Definition from_hand (fl : FrameList) : list Frame :=
  drop (Z.to_nat (clockHand fl)) (frames fl) ++ take (Z.to_nat (clockHand fl)) (frames fl).

(** The test of the scan: the slot is empty or its reference bit is clear. *)
Definition claimable (f : Frame) : bool := negb (valid f) || negb (reference f).
End ClockQueue.

Module ClockPrint.
Import Clock.

(** [printFrameList] of the Clock program.  What is returned is what it
    prints, one [line] per slot: slot number, page, Ocupado or Vacio,
    reference bit. *)
Record line := mkLine { l_index : Z; l_page : Z; l_occupied : bool; l_reference : bool }.

(** [for (int i = 0; i < NUM_FRAMES; i++)]: [n] counts the iterations
    left. *)
Fixpoint print_from (fs : list Frame) (i : Z) (n : nat) : result (list line) :=
  match n with
  | O => Ret []
  | S n' =>
      let* f := frame_at fs i in
      let* rest := print_from fs (wrap (i + 1)) n' in
      Ret (mkLine i (page f) (valid f) (reference f) :: rest)
  end.

Definition printFrameList (fl : FrameList) : result (list line) :=
  print_from (frames fl) 0 (Z.to_nat NUM_FRAMES).
End ClockPrint.

Module DListAccount.
Import DList.

(** The list structure and the memory agree: every allocated frame is on
    the list and occupied, [numFrames] counts them, [head] is the frame
    listed first and [tail] the one listed last. *)
Definition accounted {X : Type} (s : state X) : Prop :=
  size (mem s) = length (resident s) /\
  numFrames (flist s) = Z.of_nat (length (resident s)) /\
  occupied s = length (resident s) /\
  match head (flist s) with
  | None => resident s = []
  | Some h => exists f, mem s !! h = Some f /\ prev f = None /\
                resident s !! 0%nat = Some (info f)
  end /\
  match tail (flist s) with
  | None => resident s = []
  | Some t => exists f, mem s !! t = Some f /\ next f = None /\
                last (resident s) = Some (info f)
  end.
End DListAccount.

Module Recency.

(** The LRU policy on plain lists of pages, most recently used first.
    These two functions are not part of the program; [loadPage] of the
    LRU program is compared with them.  First, what one access does. *)
Definition lru_update (pg : Z) (l : list Z) : list Z :=
  pg :: (if decide (pg ∈ l) then filter (fun q => q <> pg) l
         else if decide (length l = Z.to_nat NUM_FRAMES) then removelast l
         else l).

(** The distinct pages of [pgs], latest access first, cut to the number
    of frames. *)
Definition most_recent (pgs : list Z) : list Z :=
  take (Z.to_nat NUM_FRAMES) (reverse (remove_dups pgs)).
End Recency.

Module Frequency.

(** The LFU policy on plain lists of triples (page, frequency,
    occupied), in the order of the list of frames.  These functions are
    not part of the program; [loadPage] of the LFU program is compared
    with [lfu_update]. *)

(** The first frame that holds the page gets one more in its frequency. *)
Fixpoint touch (pg : Z) (l : list (Z * Z * bool)) : list (Z * Z * bool) :=
  match l with
  | [] => []
  | e :: l' =>
      if e.1.1 =? pg then (e.1.1, wrap (e.1.2 + 1), e.2) :: l'
      else e :: touch pg l'
  end.

(** The least frequency on the list. *)
Definition least (l : list (Z * Z * bool)) : Z :=
  match l with
  | [] => 0
  | e :: l' => foldr (fun x m => Z.min x.1.2 m) e.1.2 l'
  end.

(** The list without its first frame of frequency [m]. *)
Fixpoint drop_first (m : Z) (l : list (Z * Z * bool)) : list (Z * Z * bool) :=
  match l with
  | [] => []
  | e :: l' => if e.1.2 =? m then l' else e :: drop_first m l'
  end.

(** What one access does. *)
Definition lfu_update (pg : Z) (l : list (Z * Z * bool)) : list (Z * Z * bool) :=
  if decide (pg ∈ (fun e => e.1.1) <$> l) then touch pg l
  else (pg, 1, true) ::
       (if decide (length l = Z.to_nat NUM_FRAMES) then drop_first (least l) l else l).
End Frequency.

(** What one [loadPage] does to the resident pages and their number. *)
Definition load_effect (pg : Z) (occ occ' : nat) (res res' : list Z) : Prop :=
  (pg <> -1 -> pg ∈ res') /\
  (occ <= occ' <= S occ)%nat /\
  ((occ < Z.to_nat NUM_FRAMES)%nat -> forall q, q ∈ res -> q ∈ res').

(** * Proofs *)

Lemma wrap_small z : INT_MIN <= z <= INT_MAX -> wrap z = z.
Proof.
  unfold wrap, INT_MIN, INT_MAX. intros H.
  rewrite Z.mod_small; lia.
Qed.

Lemma rbind_Ret {A B} (r : result A) (k : A -> result B) b :
  rbind r k = Ret b -> exists a, r = Ret a /\ k a = Ret b.
Proof. destruct r; simpl; intros H; try discriminate. eauto. Qed.

(** A list whose entries are told apart by [f] wherever [P] holds keeps
    no duplicate once filtered by [P] and mapped through [f]. *)
Lemma NoDup_fmap_filter {A B} (f : A -> B) (P : A -> Prop)
    `{forall x, Decision (P x)} (l : list A) :
  (forall i j x y, l !! i = Some x -> l !! j = Some y ->
     P x -> P y -> f x = f y -> i = j) ->
  NoDup (f <$> filter P l).
Proof.
  induction l as [|a l IH]; intros Hu; [constructor|].
  assert (Hl : NoDup (f <$> filter P l)).
  { apply IH. intros i j x y Hi Hj Px Py E.
    specialize (Hu (S i) (S j) x y Hi Hj Px Py E). lia. }
  rewrite filter_cons. destruct (decide (P a)) as [Pa|]; [|exact Hl].
  rewrite fmap_cons. constructor; [|exact Hl].
  intros Hin. apply list_elem_of_fmap in Hin as (y & E & Hy).
  apply list_elem_of_filter in Hy as [Py Hy].
  apply list_elem_of_lookup in Hy as [j Hj].
  specialize (Hu 0%nat (S j) a y eq_refl Hj Pa Py E). lia.
Qed.

Lemma fmap_filter_insert_same {A B} (h : A -> B) (P : A -> Prop)
    `{forall x, Decision (P x)} (l : list A) (i : nat) (x y : A) :
  l !! i = Some x -> (P y <-> P x) -> h y = h x ->
  h <$> filter P (<[i := y]> l) = h <$> filter P l.
Proof.
  intros Hi HP Hh. revert i Hi. induction l as [|a l IH]; intros [|i] Hi; try discriminate.
  - injection Hi as ->. change (<[0%nat := y]> (x :: l)) with (y :: l).
    rewrite !filter_cons.
    destruct (decide (P y)), (decide (P x)); try tauto; try reflexivity.
    rewrite !fmap_cons, Hh. reflexivity.
  - change (<[S i := y]> (a :: l)) with (a :: <[i := y]> l).
    rewrite !filter_cons. cbn in Hi. destruct (decide (P a)).
    + rewrite !fmap_cons, (IH i Hi). reflexivity.
    + apply (IH i Hi).
Qed.

Module ClockFacts.
Import Clock.

Lemma frame_at_Ret fs i f :
  frame_at fs i = Ret f <-> 0 <= i /\ fs !! Z.to_nat i = Some f.
Proof.
  unfold frame_at. destruct (Z.ltb_spec i 0).
  - split; [discriminate | lia].
  - destruct (fs !! Z.to_nat i); split; intros; try discriminate;
      try (destruct H0; congruence); split; congruence || lia.
Qed.

Lemma update_frame_Ret fl i g f :
  0 <= i -> frames fl !! Z.to_nat i = Some f ->
  update_frame fl i g =
    Ret (mkFrameList (numFrames fl) (<[Z.to_nat i := g f]> (frames fl)) (clockHand fl)).
Proof.
  intros Hi Hf. unfold update_frame.
  replace (frame_at (frames fl) i) with (Ret f); [reflexivity|].
  symmetry. apply frame_at_Ret. auto.
Qed.

Lemma hand_next h :
  0 <= h < NUM_FRAMES -> 0 <= Z.rem (wrap (h + 1)) NUM_FRAMES < NUM_FRAMES.
Proof.
  unfold NUM_FRAMES. intros H.
  rewrite wrap_small by (unfold INT_MIN, INT_MAX; lia).
  rewrite Z.rem_mod_nonneg by lia. apply Z.mod_pos_bound. lia.
Qed.

(** One turn of the [while (true)] loop, with the three field writes of
    the claiming branch merged into one slot update. *)
Lemma scan_S n fl pg f :
  0 <= clockHand fl ->
  frames fl !! Z.to_nat (clockHand fl) = Some f ->
  scan (S n) fl pg =
    if negb (valid f) || negb (reference f) then
      Ret (mkFrameList (numFrames fl)
             (<[Z.to_nat (clockHand fl) := mkFrame pg true true]> (frames fl))
             (Z.rem (wrap (clockHand fl + 1)) NUM_FRAMES))
    else
      scan n (mkFrameList (numFrames fl)
                (<[Z.to_nat (clockHand fl) := mkFrame (page f) (valid f) false]> (frames fl))
                (Z.rem (wrap (clockHand fl + 1)) NUM_FRAMES)) pg.
Proof.
  intros Hh Hf.
  assert (Hlt : (Z.to_nat (clockHand fl) < length (frames fl))%nat)
    by (eapply lookup_lt_Some; eauto).
  assert (Hat : frame_at (frames fl) (clockHand fl) = Ret f)
    by (apply frame_at_Ret; auto).
  cbn [scan]. rewrite Hat. cbn [rbind].
  destruct (negb (valid f) || negb (reference f)).
  - rewrite (update_frame_Ret _ _ _ f) by auto. cbn [rbind clockHand frames].
    erewrite update_frame_Ret;
      [|auto|cbn [frames]; apply list_lookup_insert_eq; auto].
    cbn [rbind clockHand frames numFrames].
    erewrite update_frame_Ret;
      [|auto|cbn [frames]; apply list_lookup_insert_eq; rewrite length_insert; auto].
    cbn [rbind clockHand frames numFrames]. unfold set_hand. cbn.
    rewrite !list_insert_insert_eq. reflexivity.
  - rewrite (update_frame_Ret _ _ _ f) by auto. reflexivity.
Qed.

Lemma marked_clear fs i f :
  fs !! i = Some f -> valid f && reference f = true ->
  S (marked (<[i := mkFrame (page f) (valid f) false]> fs)) = marked fs.
Proof.
  unfold marked. revert i. induction fs as [|a fs IH]; intros [|i] Hi Hm;
    try discriminate.
  - injection Hi as ->.
    change (<[0%nat := ?x]> (f :: fs)) with (x :: fs).
    rewrite !filter_cons. cbn [valid reference]. rewrite andb_false_r.
    repeat case_decide; try discriminate; try contradiction. reflexivity.
  - cbn in Hi. specialize (IH i Hi Hm).
    change (<[S i := ?x]> (a :: fs)) with (a :: <[i := x]> fs).
    rewrite !filter_cons.
    repeat case_decide; try contradiction; cbn [length]; lia.
Qed.

Lemma marked_le fs : (marked fs <= length fs)%nat.
Proof. unfold marked. apply length_filter. Qed.

(** The scan stops: each turn that does not claim a slot clears the
    reference bit of an occupied, referenced slot, and there are at most
    [marked] of those. *)
Lemma scan_stops n fl pg :
  shaped fl -> (marked (frames fl) < n)%nat ->
  exists fl', scan n fl pg = Ret fl'.
Proof.
  revert fl. induction n as [|n IH]; intros fl [Hlen Hh] Hm; [lia|].
  destruct (lookup_lt_is_Some_2 (frames fl) (Z.to_nat (clockHand fl))) as [f Hf].
  { rewrite Hlen. unfold NUM_FRAMES in *. lia. }
  rewrite (scan_S n fl pg f) by (auto; lia).
  destruct (negb (valid f) || negb (reference f)) eqn:E; [eauto|].
  apply IH.
  - split; cbn; [rewrite length_insert; auto | apply hand_next; auto].
  - cbn [frames]. apply orb_false_elim in E as [E1 E2].
    apply negb_false_iff in E1, E2.
    assert (Hvr : valid f && reference f = true) by (rewrite E1, E2; reflexivity).
    pose proof (marked_clear (frames fl) _ f Hf Hvr). lia.
Qed.

Lemma scan_claims n fl pg fl' :
  shaped fl -> scan n fl pg = Ret fl' -> claimed fl fl' pg.
Proof.
  revert fl. induction n as [|n IH]; intros fl [Hlen Hh] Hs; [discriminate|].
  destruct (lookup_lt_is_Some_2 (frames fl) (Z.to_nat (clockHand fl))) as [f Hf].
  { rewrite Hlen. unfold NUM_FRAMES in *. lia. }
  assert (Hlt : (Z.to_nat (clockHand fl) < length (frames fl))%nat)
    by (eapply lookup_lt_Some; eauto).
  rewrite (scan_S n fl pg f) in Hs by (auto; lia).
  destruct (negb (valid f) || negb (reference f)).
  - injection Hs as <-. split; [|split]; cbn.
    + split; cbn; [rewrite length_insert; auto | apply hand_next; auto].
    + reflexivity.
    + exists (Z.to_nat (clockHand fl)). split.
      * apply list_lookup_insert_eq; auto.
      * intros j g Hj Hg. exists g. rewrite list_lookup_insert_ne by auto. auto.
  - apply IH in Hs.
    + destruct Hs as (Hsh & Hnf & k & Hk & Hrest). split; [|split]; auto.
      exists k. split; auto. intros j g Hj Hg.
      destruct (decide (j = Z.to_nat (clockHand fl))) as [->|Hne].
      * destruct (Hrest (Z.to_nat (clockHand fl)) (mkFrame (page f) (valid f) false) Hj)
          as (f' & ? & ? & ?).
        { cbn. apply list_lookup_insert_eq; auto. }
        exists f'. cbn in *. replace g with f in * by congruence. auto.
      * apply (Hrest j g Hj). cbn. rewrite list_lookup_insert_ne; auto.
    + split; cbn; [rewrite length_insert; auto | apply hand_next; auto].
Qed.

(** A larger budget changes nothing once the scan has returned. *)
Lemma scan_mono n n' fl pg fl' :
  scan n fl pg = Ret fl' -> (n <= n')%nat -> scan n' fl pg = Ret fl'.
Proof.
  revert n' fl. induction n as [|n IH]; intros n' fl Hs Hle; [discriminate|].
  destruct n' as [|n']; [lia|]. cbn [scan] in Hs |- *.
  destruct (frame_at (frames fl) (clockHand fl)) as [f| |]; try discriminate.
  cbn [rbind] in Hs |- *.
  destruct (negb (valid f) || negb (reference f)); [exact Hs|].
  destruct (update_frame fl (clockHand fl) (with_reference false)) as [fl1| |];
    try discriminate.
  cbn [rbind] in Hs |- *. apply IH; [exact Hs|lia].
Qed.

(** [findFrame] returns the first slot whose page field is the page,
    occupied or not, and -1 when no slot has it. *)
Lemma clock_findFrame_from_spec fs pg n k :
  (k + n = length fs)%nat -> Z.of_nat (length fs) <= INT_MAX ->
  (findFrame_from fs pg (Z.of_nat k) n = Ret (-1) /\
     forall j f, (k <= j)%nat -> fs !! j = Some f -> page f <> pg) \/
  (exists j f, findFrame_from fs pg (Z.of_nat k) n = Ret (Z.of_nat j) /\
     (k <= j)%nat /\ fs !! j = Some f /\ page f = pg /\
     forall i g, (k <= i < j)%nat -> fs !! i = Some g -> page g <> pg).
Proof.
  revert k. induction n as [|n IH]; intros k Hk Hmax.
  - left. split; [reflexivity|]. intros j f Hj Hf.
    apply lookup_lt_Some in Hf. lia.
  - destruct (lookup_lt_is_Some_2 fs k) as [f Hf]; [lia|].
    cbn [findFrame_from].
    replace (frame_at fs (Z.of_nat k)) with (Ret f)
      by (symmetry; apply frame_at_Ret; rewrite Nat2Z.id; split; [lia|auto]).
    cbn [rbind]. destruct (Z.eqb_spec (page f) pg) as [E|E].
    + right. exists k, f. repeat split; auto. intros; lia.
    + rewrite wrap_small by (unfold INT_MIN, INT_MAX in *; lia).
      replace (Z.of_nat k + 1) with (Z.of_nat (S k)) by lia.
      destruct (IH (S k)) as [[Hr Hno]|(j & g & Hr & Hj & Hg & Hpg & Hno)];
        [lia|auto|..].
      * left. split; auto. intros j g Hj Hg.
        destruct (decide (j = k)) as [->|]; [congruence|]. apply (Hno j); auto. lia.
      * right. exists j, g. repeat split; auto; [lia|]. intros i h Hi Hh.
        destruct (decide (i = k)) as [->|]; [congruence|]. apply (Hno i); auto. lia.
Qed.

Lemma clock_findFrame_spec fl pg :
  shaped fl ->
  (findFrame fl pg = Ret (-1) /\
     forall j f, frames fl !! j = Some f -> page f <> pg) \/
  (exists j f, findFrame fl pg = Ret (Z.of_nat j) /\
     frames fl !! j = Some f /\ page f = pg /\
     forall i g, (i < j)%nat -> frames fl !! i = Some g -> page g <> pg).
Proof.
  intros [Hlen _]. unfold findFrame.
  destruct (clock_findFrame_from_spec (frames fl) pg (Z.to_nat NUM_FRAMES) 0)
    as [[Hr Hno]|(j & g & Hr & Hj & Hg & Hpg & Hno)].
  - rewrite Hlen. reflexivity.
  - rewrite Hlen. unfold NUM_FRAMES, INT_MAX. lia.
  - left. split; auto. intros j f. apply Hno. lia.
  - right. exists j, g. repeat split; auto. intros i h Hi. apply Hno. lia.
Qed.

(** A hit writes one reference bit and nothing else. *)
Lemma clock_loadPage_hit fuel fl pg :
  Inv fl -> resident fl pg ->
  exists i f, frames fl !! i = Some f /\ valid f = true /\ page f = pg /\
    loadPage fuel fl pg =
      Ret (mkFrameList (numFrames fl)
             (<[i := with_reference true f]> (frames fl)) (clockHand fl)).
Proof.
  intros (Hsh & Hd & _) (i & f & Hi & Hv & Hp).
  destruct (clock_findFrame_spec fl pg Hsh) as [[_ Hno]|(j & g & Hr & Hg & Hpg & _)].
  - exfalso. exact (Hno i f Hi Hp).
  - assert (i = j) by (apply (Hd i j f g); auto; congruence). subst j.
    replace g with f in * by congruence.
    exists i, f. repeat split; auto.
    unfold loadPage. rewrite Hr. cbn [rbind].
    destruct (Z.eqb_spec (Z.of_nat i) (-1)); [lia|]. cbn [negb].
    rewrite (update_frame_Ret _ _ _ f) by (rewrite ?Nat2Z.id; auto; lia).
    rewrite Nat2Z.id. reflexivity.
Qed.

(** A miss runs the scan, which finds no slot with the page beforehand. *)
Lemma clock_loadPage_cases fuel fl pg fl' :
  shaped fl -> loadPage fuel fl pg = Ret fl' ->
  (exists j f, frames fl !! j = Some f /\ page f = pg /\
     fl' = mkFrameList (numFrames fl)
             (<[j := with_reference true f]> (frames fl)) (clockHand fl)) \/
  ((forall j f, frames fl !! j = Some f -> page f <> pg) /\
     scan fuel fl pg = Ret fl').
Proof.
  intros Hsh. unfold loadPage.
  destruct (clock_findFrame_spec fl pg Hsh) as [[Hr Hno]|(j & g & Hr & Hg & Hpg & _)];
    rewrite Hr; cbn [rbind].
  - cbn. intros Hs. right. auto.
  - destruct (Z.eqb_spec (Z.of_nat j) (-1)); [lia|]. cbn [negb].
    rewrite (update_frame_Ret _ _ _ g) by (rewrite ?Nat2Z.id; auto; lia).
    rewrite Nat2Z.id. intros [= <-]. left. exists j, g. auto.
Qed.

Lemma clock_loadPage_Inv fuel fl pg fl' :
  Inv fl -> loadPage fuel fl pg = Ret fl' -> Inv fl'.
Proof.
  intros (Hsh & Hd & Hn) Hl.
  destruct (clock_loadPage_cases _ _ _ _ Hsh Hl) as [(j & f & Hj & Hp & ->)|[Hno Hs]].
  - destruct Hsh as [Hlen Hh].
    split; [|split]; cbn; auto.
    + split; cbn; [rewrite length_insert|]; auto.
    + intros a b fa fb. cbn. intros Ha Hb Hva Hpab.
      assert (Hsame : forall c fc, <[j := with_reference true f]> (frames fl) !! c = Some fc ->
                exists gc, frames fl !! c = Some gc /\ page gc = page fc /\ valid gc = valid fc).
      { intros c fc Hc. destruct (decide (c = j)) as [->|Hne].
        - rewrite list_lookup_insert_eq in Hc by (eapply lookup_lt_Some; eauto).
          injection Hc as <-. exists f. auto.
        - rewrite list_lookup_insert_ne in Hc by auto. eauto. }
      destruct (Hsame a fa Ha) as (ga & Hga & Hpa & Hvla).
      destruct (Hsame b fb Hb) as (gb & Hgb & Hpb & Hvlb).
      apply (Hd a b ga gb); auto; congruence.
  - destruct (scan_claims _ _ _ _ Hsh Hs) as (Hsh' & Hnf & k & Hk & Hrest).
    split; [|split]; auto; [|congruence].
    destruct Hsh as [Hlen _]. destruct Hsh' as [Hlen' _].
    assert (Hold : forall c fc, c <> k -> frames fl' !! c = Some fc ->
              exists gc, frames fl !! c = Some gc /\ page gc = page fc /\ valid gc = valid fc).
    { intros c fc Hne Hc.
      destruct (lookup_lt_is_Some_2 (frames fl) c) as [gc Hgc].
      { apply lookup_lt_Some in Hc. lia. }
      destruct (Hrest c gc Hne Hgc) as (f' & Hf' & ? & ?).
      exists gc. replace fc with f' in * by congruence. auto. }
    intros a b fa fb Ha Hb Hva Hpab.
    destruct (decide (a = k)) as [->|Hak]; destruct (decide (b = k)) as [->|Hbk]; auto.
    + exfalso. destruct (Hold b fb Hbk Hb) as (gb & Hgb & Hpb & _).
      apply (Hno b gb Hgb). replace fa with (mkFrame pg true true) in * by congruence.
      cbn in Hpab. congruence.
    + exfalso. destruct (Hold a fa Hak Ha) as (ga & Hga & Hpa & _).
      apply (Hno a ga Hga). replace fb with (mkFrame pg true true) in * by congruence.
      cbn in Hpab. congruence.
    + destruct (Hold a fa Hak Ha) as (ga & Hga & Hpa & Hvla).
      destruct (Hold b fb Hbk Hb) as (gb & Hgb & Hpb & Hvlb).
      apply (Hd a b ga gb); auto; congruence.
Qed.

Lemma clock_createFrameList_Inv : Inv createFrameList.
Proof.
  split; [|split]; [split; cbn; [reflexivity|unfold NUM_FRAMES; lia]| |reflexivity].
  intros i j fi fj Hi Hj Hv. cbn in Hi.
  apply lookup_replicate in Hi as [-> _]. discriminate.
Qed.

Lemma clock_reachable_Inv fl : reachable fl -> Inv fl.
Proof.
  induction 1 as [|fl fuel pg fl' _ IH Hl]; [apply clock_createFrameList_Inv|].
  eapply clock_loadPage_Inv; eauto.
Qed.

(** [loadPage] returns, on a hit with no budget at all and on a miss
    within [NUM_FRAMES + 1] turns of the scan. *)
Lemma clock_loadPage_returns fuel fl pg :
  Inv fl -> (Z.to_nat NUM_FRAMES < fuel)%nat ->
  exists fl', loadPage fuel fl pg = Ret fl'.
Proof.
  intros (Hsh & _ & _) Hfuel. unfold loadPage.
  destruct (clock_findFrame_spec fl pg Hsh) as [[Hr Hno]|(j & g & Hr & Hg & Hpg & _)];
    rewrite Hr; cbn [rbind].
  - cbn. apply scan_stops; auto.
    pose proof (marked_le (frames fl)). destruct Hsh as [Hlen _]. lia.
  - destruct (Z.eqb_spec (Z.of_nat j) (-1)); [lia|]. cbn [negb].
    rewrite (update_frame_Ret _ _ _ g) by (rewrite ?Nat2Z.id; auto; lia). eauto.
Qed.

Lemma clock_occupied_le fl : Inv fl -> (occupied fl <= Z.to_nat NUM_FRAMES)%nat.
Proof.
  intros ((Hlen & _) & _). unfold occupied. rewrite <- Hlen. apply length_filter.
Qed.

Lemma clock_resident_pages_NoDup fl : Inv fl -> NoDup (resident_pages fl).
Proof.
  intros (_ & Hd & _). unfold resident_pages. apply NoDup_fmap_filter.
  intros i j x y Hi Hj Hx _ Hxy. exact (Hd i j x y Hi Hj Hx Hxy).
Qed.

Lemma clock_reachable_loadPages fuel pgs fl fl' :
  reachable fl -> loadPages fuel fl pgs = Ret fl' -> reachable fl'.
Proof.
  revert fl. induction pgs as [|pg pgs IH]; intros fl Hr; cbn.
  - intros [= <-]. exact Hr.
  - intros H. apply rbind_Ret in H as (fl1 & H1 & H2).
    apply (IH fl1); [|exact H2]. eapply reach_load; eauto.
Qed.
End ClockFacts.

(** ** The doubly linked list *)
Module DListFacts.
Import DList.
Local Set Warnings "-clear-no-such-hyp".

Section Frames.
Context {X : Type}.
Implicit Types (s : state X) (m : gmap positive (Frame X)).
Implicit Types (ls : list (positive * (Z * X * bool))).

(** *** Rules for running a program step by step *)

Lemma wp_bind {A B} (c : M X A) (k : A -> M X B) s Q :
  wp c s (fun a s' => wp (k a) s' Q) -> wp (bind c k) s Q.
Proof.
  intros (a & s' & Hc & b & s'' & Hk & HQ). exists b, s''.
  unfold bind. rewrite Hc. auto.
Qed.

Lemma wp_ret {A} (a : A) s (Q : A -> state X -> Prop) : Q a s -> wp (ret a) s Q.
Proof. intros HQ. exists a, s. auto. Qed.

Lemma wp_mono {A} (c : M X A) s (Q Q' : A -> state X -> Prop) :
  wp c s Q -> (forall a s', Q a s' -> Q' a s') -> wp c s Q'.
Proof. intros (a & s' & Hc & HQ) H. exists a, s'. auto. Qed.

Lemma wp_load a f s Q :
  mem s !! a = Some f -> Q f s -> wp (load (Some a)) s Q.
Proof. intros Hm HQ. exists f, s. unfold load. rewrite Hm. auto. Qed.

Lemma wp_modify a g f s Q :
  mem s !! a = Some f ->
  Q tt (mkState (<[a := g f]> (mem s)) (flist s)) ->
  wp (modify (Some a) g) s Q.
Proof. intros Hm HQ. eexists _, _. unfold modify. rewrite Hm. eauto. Qed.

Lemma wp_free a f s Q :
  mem s !! a = Some f ->
  Q tt (mkState (delete a (mem s)) (flist s)) ->
  wp (free (Some a)) s Q.
Proof. intros Hm HQ. eexists _, _. unfold free. rewrite Hm. eauto. Qed.

Lemma wp_malloc f s Q :
  Q (Some (fresh (dom (mem s))))
    (mkState (<[fresh (dom (mem s)) := f]> (mem s)) (flist s)) ->
  wp (malloc f) s Q.
Proof. intros HQ. eexists _, _. unfold malloc. eauto. Qed.

Lemma wp_get_head s Q : Q (head (flist s)) s -> wp get_head s Q.
Proof. intros HQ. eexists _, _. unfold get_head. eauto. Qed.

Lemma wp_get_tail s Q : Q (tail (flist s)) s -> wp get_tail s Q.
Proof. intros HQ. eexists _, _. unfold get_tail. eauto. Qed.

Lemma wp_get_numFrames s Q : Q (numFrames (flist s)) s -> wp get_numFrames s Q.
Proof. intros HQ. eexists _, _. unfold get_numFrames. eauto. Qed.

Lemma wp_set_head v s Q :
  Q tt (mkState (mem s) (mkFrameList (numFrames (flist s)) v (tail (flist s)))) ->
  wp (set_head v) s Q.
Proof. intros HQ. eexists _, _. unfold set_head. eauto. Qed.

Lemma wp_set_tail v s Q :
  Q tt (mkState (mem s) (mkFrameList (numFrames (flist s)) (head (flist s)) v)) ->
  wp (set_tail v) s Q.
Proof. intros HQ. eexists _, _. unfold set_tail. eauto. Qed.

Lemma wp_set_numFrames v s Q :
  Q tt (mkState (mem s) (mkFrameList v (head (flist s)) (tail (flist s)))) ->
  wp (set_numFrames v) s Q.
Proof. intros HQ. eexists _, _. unfold set_numFrames. eauto. Qed.

End Frames.

(** Running a program one instruction at a time. *)
Ltac wp_lookup :=
  cbn [mem flist head tail numFrames];
  repeat (rewrite lookup_insert_ne by congruence);
  first [ apply lookup_insert_eq | eassumption ].

Ltac wp_simpl :=
  cbn beta;
  cbn [negb is_null prev next page valid meta mem flist head tail numFrames].

Ltac wp_step :=
  lazymatch goal with
  | |- wp (bind _ _) _ _ => apply wp_bind
  | |- wp (ret _) _ _ => apply wp_ret
  | |- wp (load (Some _)) _ _ => eapply wp_load; [wp_lookup|]
  | |- wp (modify (Some _) _) _ _ => eapply wp_modify; [wp_lookup|]
  | |- wp (free (Some _)) _ _ => eapply wp_free; [wp_lookup|]
  | |- wp get_head _ _ => apply wp_get_head
  | |- wp get_tail _ _ => apply wp_get_tail
  | |- wp get_numFrames _ _ => apply wp_get_numFrames
  | |- wp (set_head _) _ _ => apply wp_set_head
  | |- wp (set_tail _) _ _ => apply wp_set_tail
  | |- wp (set_numFrames _) _ _ => apply wp_set_numFrames
  | |- wp (get_prev _) _ _ => unfold get_prev
  | |- wp (get_next _) _ _ => unfold get_next
  | |- wp (set_prev _ _) _ _ => unfold set_prev
  | |- wp (set_next _ _) _ _ => unfold set_next
  | |- wp (set_page _ _) _ _ => unfold set_page
  | |- wp (set_valid _ _) _ _ => unfold set_valid
  | |- wp (set_meta _ _) _ _ => unfold set_meta
  end; wp_simpl.

Ltac wp_run := repeat wp_step.

Lemma ptr_eqb_true (p q : option positive) : p = q -> ptr_eqb p q = true.
Proof. intros. unfold ptr_eqb. apply bool_decide_eq_true_2. auto. Qed.

Lemma ptr_eqb_false (p q : option positive) : p <> q -> ptr_eqb p q = false.
Proof. intros. unfold ptr_eqb. apply bool_decide_eq_false_2. auto. Qed.

Ltac wp_ptr_eqb :=
  lazymatch goal with
  | |- wp (if ptr_eqb ?p ?q then _ else _) _ _ =>
      first [ rewrite (ptr_eqb_true p q) by congruence
            | rewrite (ptr_eqb_false p q) by congruence ]
  end.

Ltac wp_go := repeat first [wp_step | wp_ptr_eqb].

Section Segments.
Context {X : Type}.
Implicit Types (s : state X) (m : gmap positive (Frame X)).
Implicit Types (ls : list (positive * (Z * X * bool))).

(** *** Segments *)

(** A segment only reads the memory at its own addresses. *)
Lemma dlseg_ext m m' ls hd pv tl nx :
  (forall a, a ∈ ls.*1 -> m' !! a = m !! a) ->
  dlseg m ls hd pv tl nx -> dlseg m' ls hd pv tl nx.
Proof.
  revert hd pv. induction ls as [|[a e] ls IH]; intros hd pv Hsame; cbn; [auto|].
  intros (-> & f & Hf & Hi & Hp & Hrest). split; [reflexivity|].
  exists f. repeat split; auto.
  - rewrite Hsame; [auto|]. cbn. apply list_elem_of_here.
  - apply IH; auto. intros b Hb. apply Hsame. cbn. apply list_elem_of_further, Hb.
Qed.

Lemma dlseg_insert_other m ls hd pv tl nx a f :
  a ∉ ls.*1 -> dlseg m ls hd pv tl nx -> dlseg (<[a := f]> m) ls hd pv tl nx.
Proof.
  intros Ha. apply dlseg_ext. intros b Hb. apply lookup_insert_ne. congruence.
Qed.

Lemma dlseg_delete_other m ls hd pv tl nx a :
  a ∉ ls.*1 -> dlseg m ls hd pv tl nx -> dlseg (delete a m) ls hd pv tl nx.
Proof.
  intros Ha. apply dlseg_ext. intros b Hb. apply lookup_delete_ne. congruence.
Qed.

Lemma dlseg_app m l1 l2 hd pv tl nx :
  dlseg m (l1 ++ l2) hd pv tl nx <->
  exists mt mh, dlseg m l1 hd pv mt mh /\ dlseg m l2 mh mt tl nx.
Proof.
  revert hd pv. induction l1 as [|[a e] l1 IH]; intros hd pv; cbn.
  - split.
    + intros H. exists pv, hd. auto.
    + intros (mt & mh & [-> ->] & H). exact H.
  - split.
    + intros (-> & f & Hf & Hi & Hp & Hrest).
      apply IH in Hrest as (mt & mh & H1 & H2).
      exists mt, mh. split; [|exact H2]. split; [reflexivity|]. exists f. auto.
    + intros (mt & mh & (-> & f & Hf & Hi & Hp & H1) & H2).
      split; [reflexivity|]. exists f. repeat split; auto.
      apply IH. eauto.
Qed.

(** The last frame of a segment is its [tl]. *)
Lemma dlseg_tl m ls hd pv tl nx :
  dlseg m ls hd pv tl nx ->
  tl = match last ls with Some (a, _) => Some a | None => pv end.
Proof.
  revert hd pv. induction ls as [|[a e] ls IH]; intros hd pv; cbn.
  - intros [_ ->]. reflexivity.
  - intros (_ & f & _ & _ & _ & Hrest). apply IH in Hrest.
    destruct ls as [|[b e'] ls']; [exact Hrest|].
    rewrite Hrest, last_cons_cons.
    destruct (last ((b, e') :: ls')) as [[? ?]|] eqn:E; [reflexivity|].
    apply last_None in E. discriminate.
Qed.

(** *** The list operations *)

Lemma seg_set_exit m l p ep hd pv tl nx nx' fp :
  dlseg m (l ++ [(p, ep)]) hd pv tl nx -> p ∉ l.*1 -> m !! p = Some fp ->
  dlseg (<[p := with_next nx' fp]> m) (l ++ [(p, ep)]) hd pv tl nx'.
Proof.
  intros H Hp Hfp. apply dlseg_app in H as (mt & mh & H1 & H2).
  apply dlseg_app. exists mt, mh. split.
  - apply dlseg_insert_other; auto.
  - cbn in *. destruct H2 as (-> & f & Hf & Hi & Hpv & Hn & Ht).
    replace f with fp in * by congruence.
    split; [reflexivity|]. exists (with_next nx' fp).
    rewrite lookup_insert_eq. repeat split; auto.
Qed.

Lemma seg_set_entry m l n en hd pv pv' tl nx fn :
  dlseg m ((n, en) :: l) hd pv tl nx -> n ∉ l.*1 -> m !! n = Some fn ->
  dlseg (<[n := with_prev pv' fn]> m) ((n, en) :: l) hd pv' tl nx.
Proof.
  cbn. intros (-> & f & Hf & Hi & Hpv & Hrest) Hn Hfn.
  replace f with fn in * by congruence.
  split; [reflexivity|]. exists (with_prev pv' fn).
  rewrite lookup_insert_eq. repeat split; auto.
  apply dlseg_insert_other; auto.
Qed.

Lemma dlseg_snoc_inv m l p ep hd pv tl nx :
  dlseg m (l ++ [(p, ep)]) hd pv tl nx ->
  tl = Some p /\ exists fp, m !! p = Some fp /\ next fp = nx /\ info fp = ep.
Proof.
  intros H. apply dlseg_app in H as (mt & mh & _ & H2). cbn in H2.
  destruct H2 as (_ & f & Hf & Hi & _ & Hn & Ht). eauto.
Qed.

(** The last frame of a non-empty segment is one of its frames. *)
Lemma dlseg_tl_in m n1 e1 l hd pv tl nx :
  dlseg m ((n1, e1) :: l) hd pv tl nx ->
  exists t, tl = Some t /\ t ∈ ((n1, e1) :: l).*1.
Proof.
  intros H. apply dlseg_tl in H.
  destruct (last ((n1, e1) :: l)) as [[t et]|] eqn:E.
  - exists t. split; auto. apply last_Some in E as [l' E]. rewrite E.
    rewrite fmap_app. cbn. set_solver.
  - apply last_None in E. discriminate.
Qed.

(** Taking the frame [a] out of the links when it is the last frame, and
    when it has a successor. *)
Lemma seg_unlink_last m l p ep a e hd tl fp :
  dlseg m ((l ++ [(p, ep)]) ++ [(a, e)]) hd None tl None ->
  NoDup ((l ++ [(p, ep)]) ++ [(a, e)]).*1 -> m !! p = Some fp ->
  dlseg (<[p := with_next None fp]> m) (l ++ [(p, ep)]) hd None (Some p) None.
Proof.
  intros H Hnd Hfp. apply dlseg_app in H as (mt & mh & H1 & _).
  destruct (dlseg_snoc_inv _ _ _ _ _ _ _ _ H1) as (-> & _).
  rewrite fmap_app in Hnd. apply NoDup_app in Hnd as (Hnd & _ & _).
  rewrite fmap_app in Hnd. apply NoDup_app in Hnd as (_ & Hd & _).
  eapply seg_set_exit; eauto.
  intros Hin. apply (Hd p Hin). cbn. set_solver.
Qed.

Lemma seg_unlink_mid m l p ep a e n1 e1 l2 hd tl fp f1 :
  dlseg m ((l ++ [(p, ep)]) ++ (a, e) :: (n1, e1) :: l2) hd None tl None ->
  NoDup ((l ++ [(p, ep)]) ++ (a, e) :: (n1, e1) :: l2).*1 ->
  m !! p = Some fp -> m !! n1 = Some f1 ->
  dlseg (<[n1 := with_prev (Some p) f1]> (<[p := with_next (Some n1) fp]> m))
    ((l ++ [(p, ep)]) ++ (n1, e1) :: l2) hd None tl None.
Proof.
  intros H Hnd Hfp Hf1. apply dlseg_app in H as (mt & mh & H1 & H2).
  destruct (dlseg_snoc_inv _ _ _ _ _ _ _ _ H1) as (-> & _).
  cbn in H2. destruct H2 as (-> & f & _ & _ & _ & Hnf & g & Hg & Hi & Hpv & H2).
  rewrite fmap_app in Hnd. apply NoDup_app in Hnd as (Hnd1 & Hd & Hnd2).
  rewrite fmap_app in Hnd1. apply NoDup_app in Hnd1 as (_ & Hd1 & _).
  cbn in Hnd2. apply NoDup_cons in Hnd2 as [_ Hnd2]. apply NoDup_cons in Hnd2 as [Hn Hnd2].
  assert (Hn1 : n1 ∉ (l ++ [(p, ep)]).*1).
  { intros Hin. apply (Hd n1 Hin). cbn. set_solver. }
  assert (Hpn : p <> n1).
  { intros ->. apply Hn1. rewrite fmap_app. cbn. set_solver. }
  apply dlseg_app. exists (Some p), (Some n1). split.
  - apply dlseg_insert_other; auto.
    eapply seg_set_exit; eauto.
    intros Hin. apply (Hd1 p Hin). cbn. set_solver.
  - eapply (seg_set_entry _ _ _ _ _ (Some a));
      [| exact Hn | rewrite lookup_insert_ne; eauto].
    apply dlseg_insert_other.
    + intros Hin. apply (Hd p); [rewrite fmap_app; cbn; set_solver|cbn; set_solver].
    + cbn. split; [reflexivity|]. exists g. auto.
Qed.

(** Writing the policy field of a frame changes that entry of the list
    and nothing of its shape. *)
Lemma seg_set_meta m l1 a e l2 hd pv tl nx f x :
  dlseg m (l1 ++ (a, e) :: l2) hd pv tl nx ->
  NoDup (l1 ++ (a, e) :: l2).*1 -> m !! a = Some f ->
  dlseg (<[a := with_meta x f]> m) (l1 ++ (a, (e.1.1, x, e.2)) :: l2) hd pv tl nx.
Proof.
  intros H Hnd Hf. apply dlseg_app in H as (mt & mh & H1 & H2).
  rewrite fmap_app, fmap_cons in Hnd. cbn [fst] in Hnd.
  apply NoDup_app in Hnd as (_ & Hd & Hnd). apply NoDup_cons in Hnd as [Ha2 _].
  apply dlseg_app. exists mt, mh. split.
  - apply dlseg_insert_other; auto. intros Hin. apply (Hd a Hin). set_solver.
  - cbn in H2 |- *. destruct H2 as (-> & g & Hg & Hi & Hp & H2).
    replace g with f in * by congruence.
    split; [reflexivity|]. exists (with_meta x f). rewrite lookup_insert_eq.
    split; [reflexivity|]. split; [subst e; reflexivity|]. split; [exact Hp|].
    apply dlseg_insert_other; auto.
Qed.
Lemma removeFrame_spec s l1 a e l2 :
  linked s (l1 ++ (a, e) :: l2) ->
  Z.of_nat (length (l1 ++ (a, e) :: l2)) <= INT_MAX ->
  wp (removeFrame (Some a)) s (fun _ s' =>
    linked s' (l1 ++ l2) /\
    dom (mem s') = (dom (mem s) ∖ {[a]}) /\
    forall b, b ∉ (l1 ++ (a, e) :: l2).*1 -> mem s' !! b = mem s !! b).
Proof.
  destruct s as [m [n hd tl]]. unfold linked. cbn [mem flist head tail numFrames].
  intros (Hnd & Hseg & Hn) Hmax.
  assert (Hcnt : wrap (n - 1) = Z.of_nat (length (l1 ++ l2))).
  { rewrite length_app in *. cbn [length] in *.
    rewrite wrap_small; unfold INT_MIN, INT_MAX in *; lia. }
  assert (Hout : forall b, b ∉ (l1 ++ (a, e) :: l2).*1 ->
            b <> a /\ (b ∉ l1.*1) /\ (b ∉ l2.*1)).
  { intros b. rewrite fmap_app, fmap_cons. cbn [fst].
    rewrite elem_of_app, elem_of_cons. tauto. }
  rewrite fmap_app, fmap_cons in Hnd. cbn [fst] in Hnd.
  apply NoDup_app in Hnd as (Hnd1 & Hdisj & Hnd2).
  apply NoDup_cons in Hnd2 as [Ha2 Hnd2].
  assert (Ha1 : a ∉ l1.*1) by (intros Hin; apply (Hdisj a Hin), list_elem_of_here).
  assert (Hnd' : NoDup (l1 ++ l2).*1).
  { rewrite fmap_app. apply NoDup_app. repeat split; auto.
    intros x Hx Hx2. apply (Hdisj x Hx), list_elem_of_further, Hx2. }
  apply dlseg_app in Hseg as (mt & mh & H1 & H2).
  cbn in H2. destruct H2 as (-> & f & Hf & Hi & Hpv & H2).
  destruct f as [fpg fv fx fpv fnx]. cbn in Hpv, H2. subst fpv. clear Hi.
  unfold removeFrame.
  destruct l1 as [|[p ep] l1' _] using rev_ind; destruct l2 as [|[n1 e1] l2'].
  - cbn in H1, H2. destruct H1 as [-> ->]. destruct H2 as [-> ->].
    wp_run. rewrite ?app_nil_r in *. refine (conj (conj Hnd' (conj _ Hcnt)) (conj _ _)).
    + cbn. auto.
    + apply dom_delete_L.
    + intros b Hb. apply Hout in Hb as (? & _ & _). apply lookup_delete_ne. congruence.
  - cbn in H1. destruct H1 as [-> ->].
    pose proof H2 as H2'. cbn in H2'. destruct H2' as (-> & f1 & Hf1 & _).
    cbn in Ha2. apply not_elem_of_cons in Ha2 as [Han Ha2].
    cbn in Hnd2. apply NoDup_cons in Hnd2 as [Hn2 Hnd2].
    wp_run. rewrite ?app_nil_r in *. refine (conj (conj Hnd' (conj _ Hcnt)) (conj _ _)).
    + apply dlseg_delete_other; [cbn; set_solver|].
      eapply seg_set_entry; eauto.
    + rewrite dom_delete_L, dom_insert_lookup_L; eauto.
    + intros b Hb. apply Hout in Hb as (? & _ & Hb). cbn in Hb.
      apply not_elem_of_cons in Hb as [? _].
      rewrite lookup_delete_ne, lookup_insert_ne; congruence.
  - cbn in H2. destruct H2 as [-> ->].
    destruct (dlseg_snoc_inv _ _ _ _ _ _ _ _ H1) as (-> & fp & Hfp & _ & _).
    assert (Hpa : p <> a).
    { intros ->. apply Ha1. rewrite fmap_app. cbn. set_solver. }
    rewrite fmap_app in Hnd1. cbn in Hnd1.
    apply NoDup_app in Hnd1 as (_ & Hp1 & _).
    assert (Hpl : p ∉ l1'.*1) by (intros Hin; apply (Hp1 p Hin); set_solver).
    wp_run. rewrite ?app_nil_r in *. refine (conj (conj Hnd' (conj _ Hcnt)) (conj _ _)).
    + apply dlseg_delete_other; auto.
      eapply seg_set_exit; eauto.
    + rewrite dom_delete_L, dom_insert_lookup_L; eauto.
    + intros b Hb. apply Hout in Hb as (? & Hb & _).
      rewrite fmap_app in Hb. cbn in Hb.
      rewrite lookup_delete_ne, lookup_insert_ne; set_solver.
  - destruct (dlseg_snoc_inv _ _ _ _ _ _ _ _ H1) as (-> & fp & Hfp & _ & _).
    pose proof H2 as H2'. cbn in H2'. destruct H2' as (-> & f1 & Hf1 & _).
    assert (Hpa : p <> a).
    { intros ->. apply Ha1. rewrite fmap_app. cbn. set_solver. }
    rewrite fmap_app in Hnd1. cbn in Hnd1.
    apply NoDup_app in Hnd1 as (_ & Hp1 & _).
    assert (Hpl : p ∉ l1'.*1) by (intros Hin; apply (Hp1 p Hin); set_solver).
    cbn in Ha2. apply not_elem_of_cons in Ha2 as [Han Ha2].
    cbn in Hnd2. apply NoDup_cons in Hnd2 as [Hn2 Hnd2].
    assert (Hpn : p <> n1).
    { intros ->. apply (Hdisj n1); [rewrite fmap_app; set_solver|cbn; set_solver]. }
    wp_run. rewrite ?app_nil_r in *. refine (conj (conj Hnd' (conj _ Hcnt)) (conj _ _)).
    + apply dlseg_app. exists (Some p), (Some n1). split.
      * apply dlseg_delete_other; auto.
        apply dlseg_insert_other.
        { rewrite fmap_app. cbn. intros Hin.
          apply (Hdisj n1); [rewrite fmap_app; cbn; exact Hin|cbn; set_solver]. }
        eapply seg_set_exit; eauto.
      * apply dlseg_delete_other; [cbn; set_solver|].
        eapply seg_set_entry;
          [apply dlseg_insert_other; [|exact H2] | auto | rewrite lookup_insert_ne; eauto].
        cbn. intros Hin. apply (Hdisj p); [rewrite fmap_app; set_solver|cbn; set_solver].
    + rewrite dom_delete_L, !dom_insert_lookup_L; eauto.
      rewrite lookup_insert_ne; eauto.
    + intros b Hb. apply Hout in Hb as (? & Hb1 & Hb2).
      rewrite fmap_app in Hb1. cbn in Hb1, Hb2.
      rewrite lookup_delete_ne, !lookup_insert_ne; set_solver.
Qed.

(** A new head in front of a non-empty list. *)
Lemma seg_push_front m a f' h eh rest tl fh :
  dlseg m ((h, eh) :: rest) (Some h) None tl None ->
  a ∉ ((h, eh) :: rest).*1 -> h ∉ rest.*1 ->
  prev f' = None -> next f' = Some h -> m !! h = Some fh ->
  dlseg (<[h := with_prev (Some a) fh]> (<[a := f']> m))
    ((a, info f') :: (h, eh) :: rest) (Some a) None tl None.
Proof.
  intros Hseg Ha Hh Hp Hn Hfh.
  assert (Hne : a <> h) by (intros ->; apply Ha; cbn; apply list_elem_of_here).
  cbn [dlseg]. split; [reflexivity|]. exists f'.
  rewrite lookup_insert_ne, lookup_insert_eq by congruence.
  split; [reflexivity|]. split; [reflexivity|]. split; [exact Hp|].
  rewrite Hn.
  eapply seg_set_entry;
    [apply dlseg_insert_other; [exact Ha|exact Hseg] | exact Hh
    | rewrite lookup_insert_ne; auto].
Qed.

Lemma insertFrame_spec s ls a f :
  linked s ls -> mem s !! a = Some f -> prev f = None -> next f = None ->
  a ∉ ls.*1 -> Z.of_nat (length ls) < INT_MAX ->
  wp (insertFrame (Some a)) s (fun _ s' =>
    linked s' ((a, info f) :: ls) /\
    dom (mem s') = dom (mem s) /\
    forall b, b ∉ (a :: ls.*1) -> mem s' !! b = mem s !! b).
Proof.
  destruct s as [m [n hd tl]]. unfold linked. cbn [mem flist head tail numFrames].
  intros (Hnd & Hseg & Hn) Hf Hp Hnx Ha Hmax.
  assert (Hcnt : wrap (n + 1) = Z.of_nat (length ((a, info f) :: ls))).
  { cbn [length]. rewrite wrap_small; unfold INT_MIN, INT_MAX in *; lia. }
  assert (Hnd' : NoDup ((a, info f) :: ls).*1) by (cbn; apply NoDup_cons; auto).
  unfold insertFrame.
  destruct ls as [|[h eh] rest].
  - cbn in Hseg. destruct Hseg as [-> ->].
    wp_run. refine (conj (conj Hnd' (conj _ Hcnt)) (conj eq_refl (fun _ _ => eq_refl))).
    cbn. split; [reflexivity|]. exists f. auto.
  - pose proof Hseg as Hseg'. cbn in Hseg'. destruct Hseg' as (-> & fh & Hfh & _).
    assert (Hne : a <> h) by (intros ->; apply Ha; cbn; apply list_elem_of_here).
    cbn in Hnd. apply NoDup_cons in Hnd as [Hh Hnd].
    wp_run. refine (conj (conj Hnd' (conj _ Hcnt)) (conj _ _)).
    + apply (seg_push_front m a (with_next (Some h) f)); auto.
    + rewrite !dom_insert_lookup_L; eauto. rewrite lookup_insert_ne; eauto.
    + intros b Hb. cbn in Hb. apply not_elem_of_cons in Hb as [? Hb].
      apply not_elem_of_cons in Hb as [? _].
      rewrite !lookup_insert_ne; congruence.
Qed.

Lemma findFrame_from_spec fuel s ls cur pv tl pg :
  dlseg (mem s) ls cur pv tl None -> (length ls <= fuel)%nat ->
  wp (findFrame_from fuel cur pg) s (fun r s' => s' = s /\ first_with pg ls r).
Proof.
  revert fuel cur pv. induction ls as [|[a e] ls IH]; intros fuel cur pv Hseg Hfuel.
  - cbn in Hseg. destruct Hseg as [-> _].
    destruct fuel; cbn [findFrame_from is_null]; wp_run;
      (split; [reflexivity|]); intros x Hx; inversion Hx.
  - cbn in Hseg. destruct Hseg as (-> & f & Hf & Hi & _ & Hrest).
    destruct fuel as [|fuel]; [cbn in Hfuel; lia|].
    cbn [findFrame_from is_null]. wp_run.
    destruct (Z.eqb_spec (page f) pg) as [E|E].
    + wp_run. split; [reflexivity|]. exists [], e, ls.
      repeat split; [subst e; exact E|]. intros x Hx. inversion Hx.
    + eapply wp_mono; [apply (IH fuel _ _ Hrest); cbn in Hfuel; lia|].
      intros r s' [-> Hr]. split; [reflexivity|].
      assert (Ha : entry_page (a, e) <> pg) by (subst e; exact E).
      destruct r as [b|]; cbn in Hr |- *.
      * destruct Hr as (l1 & e' & l2 & -> & He' & Hl1).
        exists ((a, e) :: l1), e', l2. repeat split; auto.
        intros x Hx. apply elem_of_cons in Hx as [->|Hx]; auto.
      * intros x Hx. apply elem_of_cons in Hx as [->|Hx]; auto.
Qed.

Lemma print_from_spec fuel s ls cur pv tl :
  dlseg (mem s) ls cur pv tl None -> (length ls <= fuel)%nat ->
  wp (print_from fuel cur) s (fun r s' => s' = s /\ r = ls.*2).
Proof.
  revert fuel cur pv. induction ls as [|[a e] ls IH]; intros fuel cur pv Hseg Hfuel.
  - cbn in Hseg. destruct Hseg as [-> _].
    destruct fuel; cbn [print_from is_null]; wp_run; auto.
  - cbn in Hseg. destruct Hseg as (-> & f & Hf & Hi & _ & Hrest).
    destruct fuel as [|fuel]; [cbn in Hfuel; lia|].
    cbn [print_from is_null]. wp_run.
    eapply wp_mono; [apply (IH fuel _ _ Hrest); cbn in Hfuel; lia|].
    intros r s' [-> ->]. wp_run. split; [reflexivity|]. cbn. rewrite <- Hi. reflexivity.
Qed.

Lemma refines_refl {A} (c : M X A) : refines c c.
Proof. intros s r H. exact H. Qed.

Lemma refines_bind {A B} (c c' : M X A) (k k' : A -> M X B) :
  refines c c' -> (forall a, refines (k a) (k' a)) -> refines (bind c k) (bind c' k').
Proof.
  intros Hc Hk s r. unfold bind. destruct (c s) as [[a s1]| |] eqn:E; try discriminate.
  rewrite (Hc _ _ E). apply Hk.
Qed.

Lemma findFrame_from_mono fuel fuel' cur pg :
  (fuel <= fuel')%nat ->
  refines (X:=X) (findFrame_from fuel cur pg) (findFrame_from fuel' cur pg).
Proof.
  revert fuel' cur. induction fuel as [|fuel IH]; intros fuel' cur Hle.
  - destruct cur, fuel'; cbn; try apply refines_refl; intros s r; discriminate.
  - destruct fuel' as [|fuel']; [lia|]. destruct cur as [a|]; cbn; [|apply refines_refl].
    apply refines_bind; [apply refines_refl|]. intros f.
    destruct (page f =? pg); [apply refines_refl|]. apply IH. lia.
Qed.

Lemma refines_if {A} (b : bool) (c1 c1' c2 c2' : M X A) :
  refines c1 c1' -> refines c2 c2' ->
  refines (if b then c1 else c2) (if b then c1' else c2').
Proof. destruct b; auto. Qed.

Lemma findFrame_mono fuel fuel' pg :
  (fuel <= fuel')%nat -> refines (X:=X) (findFrame fuel pg) (findFrame fuel' pg).
Proof.
  intros Hle. unfold findFrame. apply refines_bind; [apply refines_refl|].
  intros hd. apply findFrame_from_mono, Hle.
Qed.

Lemma holds_size s ls : holds s ls -> size (mem s) = length ls.
Proof.
  intros ((Hnd & _ & _) & Hdom).
  rewrite <- size_dom, Hdom, size_list_to_set, length_fmap; auto.
Qed.

(** [printFrameList] lists the frames of the list, in order. *)
Lemma resident_holds s ls : holds s ls -> resident s = ls.*2.
Proof.
  intros H. pose proof (holds_size s ls H) as Hsz. destruct H as ((Hnd & Hseg & _) & Hdom).
  unfold resident, printFrameList.
  assert (W : wp (bind get_head (fun hd => print_from (size (mem s)) hd)) s
                (fun r s' => s' = s /\ r = ls.*2)).
  { wp_go. eapply print_from_spec; eauto. lia. }
  destruct W as (r & s' & -> & _ & ->). reflexivity.
Qed.

Lemma createFrameList_holds : holds (X:=X) createFrameList [].
Proof.
  split; [split; [constructor|split; [cbn; auto|reflexivity]]|].
  cbn. apply dom_empty_L.
Qed.

Lemma dlist_createFrameList_Inv : Inv (X:=X) createFrameList.
Proof.
  exists []. split; [apply createFrameList_holds|].
  split; [unfold NUM_FRAMES; cbn; lia|]. split; [constructor|].
  intros x Hx. inversion Hx.
Qed.

Lemma filter_all {A} (P : A -> Prop) `{forall x, Decision (P x)} (l : list A) :
  (forall x, x ∈ l -> P x) -> filter P l = l.
Proof.
  induction l as [|a l IH]; intros Hall; [reflexivity|].
  rewrite filter_cons. destruct (decide (P a)) as [|Hn].
  - f_equal. apply IH. intros x Hx. apply Hall. set_solver.
  - exfalso. apply Hn, Hall. set_solver.
Qed.

Lemma occupied_holds s ls :
  holds s ls -> well_formed ls -> occupied s = length ls.
Proof.
  intros Hh (_ & _ & Hval). unfold occupied. rewrite (resident_holds s ls Hh).
  rewrite filter_all, length_fmap; [reflexivity|].
  intros e He. apply list_elem_of_fmap in He as (x & -> & Hx). auto.
Qed.

Lemma resident_pages_holds s ls :
  holds s ls -> well_formed ls -> resident_pages s = entry_page <$> ls.
Proof.
  intros Hh (_ & _ & Hval). unfold resident_pages. rewrite (resident_holds s ls Hh).
  rewrite filter_all.
  - rewrite <- list_fmap_compose. reflexivity.
  - intros e He. apply list_elem_of_fmap in He as (x & -> & Hx). auto.
Qed.

Lemma Inv_occupied s : Inv s -> (occupied s <= Z.to_nat NUM_FRAMES)%nat.
Proof.
  intros (ls & Hh & Hwf). rewrite (occupied_holds s ls Hh Hwf).
  destruct Hwf as (Hlen & _). lia.
Qed.

Lemma Inv_resident_pages s : Inv s -> NoDup (resident_pages s).
Proof.
  intros (ls & Hh & Hwf). rewrite (resident_pages_holds s ls Hh Hwf).
  destruct Hwf as (_ & Hnd & _). exact Hnd.
Qed.

Lemma resident_page_entry s ls pg :
  holds s ls -> well_formed ls ->
  pg ∈ resident_pages s <-> exists x, x ∈ ls /\ entry_page x = pg.
Proof.
  intros Hh Hwf. rewrite (resident_pages_holds s ls Hh Hwf), list_elem_of_fmap.
  split; intros (x & H1 & H2); exists x; auto.
Qed.

Lemma holds_same_dom s s' ls ls' :
  holds s ls -> holds s' ls' -> ls'.*1 ≡ₚ ls.*1 -> dom (mem s') = dom (mem s).
Proof.
  intros [_ Hd] [_ Hd'] Hp. rewrite Hd, Hd'.
  apply set_eq. intros a. rewrite !elem_of_list_to_set. rewrite Hp. reflexivity.
Qed.
End Segments.
End DListFacts.

(** ** The LFU program *)
Module LFUFacts.
Import DList DListFacts LFU.
Local Set Warnings "-clear-no-such-hyp".

Lemma pick_lfu_spec best fbest ls :
  (pick_lfu best fbest ls = best /\ forall x, x ∈ ls -> fbest <= entry_freq x) \/
  (exists l1 ev l2,
     ls = l1 ++ (pick_lfu best fbest ls, ev) :: l2 /\ ev.1.2 < fbest /\
     (forall x, x ∈ l1 -> ev.1.2 < entry_freq x) /\
     (forall x, x ∈ l2 -> ev.1.2 <= entry_freq x)).
Proof.
  revert best fbest. induction ls as [|[a e] ls IH]; intros best fbest.
  - left. split; [reflexivity|]. intros x Hx. inversion Hx.
  - cbn [pick_lfu]. destruct (Z.ltb_spec e.1.2 fbest) as [Hlt|Hge].
    + right. destruct (IH a e.1.2) as [[-> Hall]|(l1 & ev & l2 & Hls & Hev & H1 & H2)].
      * exists [], e, ls. repeat split; auto. intros x Hx. inversion Hx.
      * exists ((a, e) :: l1), ev, l2. split; [cbn; f_equal; exact Hls|].
        split; [lia|]. split; [|exact H2].
        intros x Hx. apply elem_of_cons in Hx as [->|Hx]; [exact Hev|auto].
    + destruct (IH best fbest) as [[-> Hall]|(l1 & ev & l2 & Hls & Hev & H1 & H2)].
      * left. split; [reflexivity|].
        intros x Hx. apply elem_of_cons in Hx as [->|Hx]; [exact Hge|auto].
      * right. exists ((a, e) :: l1), ev, l2. split; [cbn; f_equal; exact Hls|].
        split; [lia|]. split; [|exact H2].
        intros x Hx. apply elem_of_cons in Hx as [->|Hx]; [unfold entry_freq; cbn; lia|auto].
Qed.

Lemma find_lfu_spec fuel (s : state) ls cur pv tl l fl :
  dlseg (mem s) ls cur pv tl None -> mem s !! l = Some fl ->
  (length ls <= fuel)%nat ->
  wp (find_lfu fuel (Some l) cur) s (fun r s' =>
    s' = s /\ r = Some (pick_lfu l (frequency fl) ls)).
Proof.
  revert fuel cur pv l fl.
  induction ls as [|[a e] ls IH]; intros fuel cur pv l fl Hseg Hl Hfuel.
  - cbn in Hseg. destruct Hseg as [-> _].
    destruct fuel; cbn [find_lfu is_null]; wp_go; auto.
  - cbn in Hseg. destruct Hseg as (-> & f & Hf & Hi & _ & Hrest).
    destruct fuel as [|fuel]; [cbn in Hfuel; lia|].
    cbn [find_lfu is_null]. wp_go. cbn [pick_lfu].
    replace e.1.2 with (frequency f) by (subst e; reflexivity).
    destruct (frequency f <? frequency fl).
    + apply (IH fuel _ _ a f Hrest Hf). cbn in Hfuel. lia.
    + apply (IH fuel _ _ l fl Hrest Hl). cbn in Hfuel. lia.
Qed.

Lemma lfu_loadPage_spec fuel pg (s : state) ls :
  linked s ls -> dom (mem s) = list_to_set ls.*1 ->
  Z.of_nat (length ls) <= NUM_FRAMES -> (length ls <= fuel)%nat ->
  wp (loadPage fuel pg) s (fun _ s' => exists ls',
    linked s' ls' /\ dom (mem s') = list_to_set ls'.*1 /\ lfu_step pg ls ls').
Proof.
  intros Hl Hdom Hlen Hfuel. pose proof Hl as (Hnd & Hseg & Hn).
  unfold loadPage, findFrame. wp_go.
  eapply wp_mono; [eapply findFrame_from_spec; eauto|].
  intros [a|] s' [-> Hr]; cbn [negb is_null].
  - destruct Hr as (l1 & e & l2 & -> & He & Hl1).
    destruct (proj1 (dlseg_app _ _ _ _ _ _ _) Hseg) as (mt & mh & _ & H2).
    cbn in H2. destruct H2 as (_ & f & Hf & Hi & _).
    wp_go. exists (l1 ++ (a, (e.1.1, wrap (e.1.2 + 1), e.2)) :: l2).
    split; [|split].
    + split; [|split]; cbn [mem flist].
      * revert Hnd. rewrite !fmap_app, !fmap_cons. auto.
      * replace e.1.2 with (frequency f) by (subst e; reflexivity).
        apply seg_set_meta; auto.
      * rewrite Hn, !length_app. reflexivity.
    + cbn [mem]. rewrite dom_insert_lookup_L by eauto.
      rewrite Hdom, !fmap_app, !fmap_cons. reflexivity.
    + left. exists l1, a, e, l2. auto.
  - cbn in Hr. unfold createFrame, DList.createFrame.
    apply wp_bind, wp_malloc.
    set (a := fresh (dom (mem s))).
    assert (Ha : a ∉ ls.*1).
    { intros Hin. apply (is_fresh (dom (mem s))). fold a. rewrite Hdom.
      apply elem_of_list_to_set. exact Hin. }
    wp_go. rewrite !insert_insert_eq.
    set (f2 := with_meta 1 (with_valid true (with_page pg (mkFrame (-1) false 0 None None)))).
    set (s2 := mkState (<[a := f2]> (mem s)) (flist s)).
    assert (Hl2 : linked s2 ls).
    { split; [exact Hnd|]. split; [|exact Hn]. apply dlseg_insert_other; auto. }
    assert (Hf2 : mem s2 !! a = Some f2) by apply lookup_insert_eq.
    assert (Hdom2 : dom (mem s2) = {[a]} ∪ list_to_set ls.*1).
    { cbn [s2 mem]. rewrite dom_insert_L, Hdom. reflexivity. }
    assert (Hmax : Z.of_nat (length ls) < INT_MAX)
      by (unfold NUM_FRAMES, INT_MAX in *; lia).
    destruct (Z.eqb_spec (numFrames (flist s)) NUM_FRAMES) as [Hfull|Hfree].
    + destruct ls as [|[h eh] rest]; [rewrite Hn in Hfull; discriminate|].
      pose proof Hseg as Hseg'. cbn in Hseg'.
      destruct Hseg' as (Hhd & fh & Hfh & Hih & _ & Hrest).
      wp_go. change (head (flist s2)) with (head (flist s)). rewrite Hhd.
      eapply wp_mono.
      { apply (find_lfu_spec fuel s2 ((h, eh) :: rest) _ None (tail (flist s)) h fh).
        - apply dlseg_insert_other; auto. rewrite <- Hhd. exact Hseg.
        - cbn [s2 mem]. rewrite lookup_insert_ne; auto.
          intros ->. apply Ha. cbn. set_solver.
        - exact Hfuel. }
      intros r s3 [-> ->].
      set (v := pick_lfu h (frequency fh) ((h, eh) :: rest)).
      assert (Hv : exists l1 ev l2, lfu_victim ((h, eh) :: rest) l1 v ev l2).
      { unfold v. cbn [pick_lfu].
        replace eh.1.2 with (frequency fh) by (subst eh; reflexivity).
        rewrite Z.ltb_irrefl.
        destruct (pick_lfu_spec h (frequency fh) rest)
          as [[-> Hall]|(l1 & ev & l2 & Hls & Hev & H1 & H2)].
        - exists [], eh, rest. split; [reflexivity|]. split.
          + intros x Hx. inversion Hx.
          + subst eh. exact Hall.
        - exists ((h, eh) :: l1), ev, l2. split; [cbn; f_equal; exact Hls|].
          split; [|exact H2].
          intros x Hx. apply elem_of_cons in Hx as [->|Hx]; [|auto].
          subst eh. exact Hev. }
      destruct Hv as (l1 & ev & l2 & Hv). pose proof Hv as (Hls & _).
      rewrite Hls in Hl2, Ha, Hmax, Hdom2, Hnd.
      eapply wp_mono; [apply (removeFrame_spec s2 l1 v ev l2); [exact Hl2|lia]|].
      intros _ s3 (Hl3 & Hdom3 & Hsame3).
      eapply wp_mono; [apply (insertFrame_spec s3 (l1 ++ l2) a f2); auto|].
      * rewrite Hsame3; auto.
      * revert Ha. rewrite !fmap_app, fmap_cons. set_solver.
      * revert Hmax. rewrite !length_app. cbn [length]. lia.
      * intros _ s4 (Hl4 & Hdom4 & _). exists ((a, (pg, 1, true)) :: l1 ++ l2).
        split; [exact Hl4|]. split.
        -- rewrite Hdom4, Hdom3, Hdom2. revert Hnd Ha.
           rewrite fmap_cons, !fmap_app, fmap_cons, list_to_set_cons, !list_to_set_app_L,
             list_to_set_cons.
           cbn. rewrite NoDup_app, NoDup_cons. set_solver.
        -- right. split; [exact Hr|]. exists a. split; [rewrite Hls; exact Ha|].
           right. split; [congruence|]. exists l1, v, ev, l2. auto.
    + wp_go.
      eapply wp_mono; [apply (insertFrame_spec s2 ls a f2); auto|].
      intros _ s4 (Hl4 & Hdom4 & _). exists ((a, (pg, 1, true)) :: ls).
      split; [exact Hl4|]. split.
      * rewrite Hdom4, Hdom2. reflexivity.
      * right. split; [exact Hr|]. exists a. split; [exact Ha|].
        left. split; [congruence|reflexivity].
Qed.

Lemma find_lfu_mono fuel fuel' l cur :
  (fuel <= fuel')%nat -> refines (find_lfu fuel l cur) (find_lfu fuel' l cur).
Proof.
  revert fuel' l cur. induction fuel as [|fuel IH]; intros fuel' l cur Hle.
  - destruct cur, fuel'; cbn; try apply refines_refl; intros s r; discriminate.
  - destruct fuel' as [|fuel']; [lia|]. destruct cur as [a|]; cbn; [|apply refines_refl].
    apply refines_bind; [apply refines_refl|]. intros c.
    apply refines_bind; [apply refines_refl|]. intros f.
    apply IH. lia.
Qed.

Lemma lfu_loadPage_mono fuel fuel' pg :
  (fuel <= fuel')%nat -> refines (loadPage fuel pg) (loadPage fuel' pg).
Proof.
  intros Hle. unfold loadPage.
  repeat first
    [ apply refines_refl
    | apply findFrame_mono, Hle
    | apply find_lfu_mono, Hle
    | apply refines_if
    | apply refines_bind
    | intros ? ].
Qed.

Lemma lfu_step_well_formed pg ls ls' :
  well_formed ls -> lfu_step pg ls ls' -> well_formed ls'.
Proof.
  intros (Hlen & Hnd & Hval)
    [(l1 & a & e & l2 & -> & He & Hl1 & ->)
    |(Hno & a & Ha & [[Hfree ->]|(Hfull & l1 & v & ev & l2 & (-> & _) & ->)])].
  - split; [|split].
    + revert Hlen. rewrite !length_app. cbn. lia.
    + revert Hnd. rewrite !fmap_app, !fmap_cons. auto.
    + intros x Hx. apply elem_of_app in Hx as [Hx|Hx]; [apply Hval; set_solver|].
      apply elem_of_cons in Hx as [->|Hx]; [|apply Hval; set_solver].
      apply (Hval (a, e)). set_solver.
  - assert (Hpg : pg ∉ entry_page <$> ls).
    { intros Hin. apply list_elem_of_fmap in Hin as (x & -> & Hx). exact (Hno x Hx eq_refl). }
    split; [|split].
    + cbn [length]. lia.
    + rewrite fmap_cons. apply NoDup_cons. split; [exact Hpg|exact Hnd].
    + intros y Hy. apply elem_of_cons in Hy as [->|Hy]; [reflexivity|]. auto.
  - assert (Hpg : pg ∉ entry_page <$> (l1 ++ l2)).
    { intros Hin. apply list_elem_of_fmap in Hin as (x & -> & Hx).
      apply (Hno x); [set_solver|reflexivity]. }
    split; [|split].
    + revert Hlen. cbn. rewrite !length_app. cbn. lia.
    + rewrite fmap_cons. apply NoDup_cons. split; [exact Hpg|].
      revert Hnd. rewrite !fmap_app, fmap_cons, !NoDup_app, NoDup_cons. set_solver.
    + intros y Hy. apply elem_of_cons in Hy as [->|Hy]; [reflexivity|].
      apply Hval. set_solver.
Qed.

Lemma lfu_loadPage_step fuel pg (s : state) ls :
  holds s ls -> well_formed ls -> (Z.to_nat NUM_FRAMES <= fuel)%nat ->
  exists s' ls', loadPage fuel pg s = Ret (tt, s') /\
    holds s' ls' /\ well_formed ls' /\ lfu_step pg ls ls'.
Proof.
  intros [Hl Hdom] Hwf Hfuel. pose proof Hwf as (Hlen & _).
  destruct (lfu_loadPage_spec fuel pg s ls Hl Hdom Hlen)
    as ([] & s' & Hrun & ls' & Hl' & Hdom' & Hstep); [lia|].
  exists s', ls'. split; [exact Hrun|]. split; [split; assumption|].
  split; [|exact Hstep]. eapply lfu_step_well_formed; eauto.
Qed.

Lemma lfu_reachable_Inv s : reachable s -> Inv s.
Proof.
  induction 1 as [|s fuel pg s' _ (ls & Hh & Hwf) Hrun]; [apply dlist_createFrameList_Inv|].
  destruct (lfu_loadPage_step (Nat.max fuel (Z.to_nat NUM_FRAMES)) pg s ls Hh Hwf)
    as (s1 & ls' & Hrun' & Hh' & Hwf' & _); [lia|].
  apply (lfu_loadPage_mono fuel (Nat.max fuel (Z.to_nat NUM_FRAMES))) in Hrun; [|lia].
  replace s' with s1 by congruence. exists ls'. auto.
Qed.

Lemma lfu_reachable_loadPages fuel pgs (s s' : state) :
  reachable s -> loadPages fuel pgs s = Ret (tt, s') -> reachable s'.
Proof.
  revert s. induction pgs as [|pg pgs IH]; intros s Hr; cbn.
  - intros [= <-]. exact Hr.
  - unfold bind. destruct (loadPage fuel pg s) as [[[] s1]| |] eqn:E; try discriminate.
    intros H. apply (IH s1); [|exact H]. eapply reach_load; eauto.
Qed.

(** A hit: the frequency of the frame goes up by one; the list keeps its
    order and every other frame its content. *)
Lemma lfu_hit fuel pg (s : state) :
  reachable s -> pg ∈ resident_pages s -> (Z.to_nat NUM_FRAMES <= fuel)%nat ->
  exists s' a x l1 l2,
    loadPage fuel pg s = Ret (tt, s') /\
    holds s (l1 ++ (a, (pg, x, true)) :: l2) /\
    holds s' (l1 ++ (a, (pg, wrap (x + 1), true)) :: l2) /\
    well_formed (l1 ++ (a, (pg, wrap (x + 1), true)) :: l2).
Proof.
  intros Hr Hin Hfuel. destruct (lfu_reachable_Inv s Hr) as (ls & Hh & Hwf).
  destruct (lfu_loadPage_step fuel pg s ls Hh Hwf Hfuel)
    as (s' & ls' & Hrun & Hh' & Hwf' & [(l1 & a & e & l2 & -> & He & Hl1 & ->)|(Hno & _)]).
  - destruct e as [[p x] v]. cbn in He. subst p.
    assert (v = true) as ->.
    { destruct Hwf as (_ & _ & Hval). apply (Hval (a, (pg, x, v))). set_solver. }
    exists s', a, x, l1, l2. auto.
  - exfalso. apply (resident_page_entry s ls pg Hh Hwf) in Hin as (x & Hx & Hpg).
    exact (Hno x Hx Hpg).
Qed.

(** A miss: the new page enters at the front with frequency 1; when the
    list is full, the first frame of least frequency has left. *)
Lemma lfu_miss fuel pg (s : state) :
  reachable s -> pg ∉ resident_pages s -> (Z.to_nat NUM_FRAMES <= fuel)%nat ->
  exists s' ls a,
    loadPage fuel pg s = Ret (tt, s') /\ holds s ls /\ well_formed ls /\
    ((Z.of_nat (length ls) <> NUM_FRAMES /\ holds s' ((a, (pg, 1, true)) :: ls)) \/
     (Z.of_nat (length ls) = NUM_FRAMES /\
      exists l1 v ev l2, lfu_victim ls l1 v ev l2 /\
        holds s' ((a, (pg, 1, true)) :: l1 ++ l2))).
Proof.
  intros Hr Hin Hfuel. destruct (lfu_reachable_Inv s Hr) as (ls & Hh & Hwf).
  destruct (lfu_loadPage_step fuel pg s ls Hh Hwf Hfuel)
    as (s' & ls' & Hrun & Hh' & Hwf' &
        [(l1 & a & e & l2 & -> & He & Hl1 & ->)
        |(Hno & a & Ha & [[Hfree ->]|(Hfull & l1 & v & ev & l2 & Hv & ->)])]).
  - exfalso. apply Hin. apply (resident_page_entry s _ pg Hh Hwf).
    exists (a, e). split; [set_solver|exact He].
  - exists s', ls, a. split; [exact Hrun|]. split; [exact Hh|]. split; [exact Hwf|].
    left. auto.
  - exists s', ls, a. split; [exact Hrun|]. split; [exact Hh|]. split; [exact Hwf|].
    right. split; [exact Hfull|]. exists l1, v, ev, l2. auto.
Qed.

End LFUFacts.

(** ** The LRU program *)
Module LRUFacts.
Import DList DListFacts LRU.
Local Set Warnings "-clear-no-such-hyp".

Lemma moveToHead_spec (s : state) l1 a e l2 :
  linked s (l1 ++ (a, e) :: l2) ->
  wp (moveToHead (Some a)) s (fun _ s' =>
    linked s' ((a, e) :: l1 ++ l2) /\
    dom (mem s') = dom (mem s) /\
    forall b, b ∉ (l1 ++ (a, e) :: l2).*1 -> mem s' !! b = mem s !! b).
Proof.
  destruct s as [m [n hd tl]]. unfold linked. cbn [mem flist head tail numFrames].
  intros (Hnd & Hseg & Hn).
  unfold moveToHead.
  destruct l1 as [|[p ep] l1' _] using rev_ind.
  { cbn in Hseg. destruct Hseg as (-> & Hseg). wp_go.
    cbn. repeat split; auto. }
  assert (Hcnt : n = Z.of_nat (length ((a, e) :: (l1' ++ [(p, ep)]) ++ l2))).
  { rewrite Hn. rewrite !length_app. cbn [length]. rewrite !length_app. cbn [length]. lia. }
  assert (Hnd' : NoDup ((a, e) :: (l1' ++ [(p, ep)]) ++ l2).*1).
  { revert Hnd. rewrite fmap_cons, !fmap_app, fmap_cons. cbn [fst].
    intros H. rewrite Permutation_middle. exact H. }
  assert (Hout : forall b, b ∉ ((l1' ++ [(p, ep)]) ++ (a, e) :: l2).*1 ->
            b <> a /\ b <> p /\ (b ∉ l1'.*1) /\ (b ∉ l2.*1)).
  { intros b. rewrite !fmap_app, !fmap_cons. cbn. set_solver. }
  pose proof Hnd' as Hnd''. rewrite fmap_cons in Hnd''. cbn [fst] in Hnd''.
  apply NoDup_cons in Hnd'' as [Ha Hnd''].
  assert (Hdisj : forall x, x ∈ (l1' ++ [(p, ep)]).*1 -> x ∉ l2.*1).
  { rewrite fmap_app in Hnd''. apply NoDup_app in Hnd'' as (_ & H & _). exact H. }
  assert (Hpa : p <> a).
  { intros ->. apply Ha. rewrite !fmap_app. cbn. set_solver. }
  assert (Hpl2 : p ∉ l2.*1).
  { apply Hdisj. rewrite fmap_app. cbn. set_solver. }
  destruct (proj1 (dlseg_app _ _ _ _ _ _ _) Hseg) as (mt & mh & H1 & H2).
  destruct (dlseg_snoc_inv _ _ _ _ _ _ _ _ H1) as (-> & fp & Hfp & _ & _).
  cbn in H2. destruct H2 as (-> & f & Hf & Hi & Hpv & H2).
  destruct f as [fpg fv fx fpv fnx]. cbn in Hpv, H2. subst fpv.
  unfold info in Hi. cbn in Hi. subst e.
  destruct l1' as [|[h eh] l1'']; destruct l2 as [|[n1 e1] l2'].
  - cbn in H1. destruct H1 as (-> & _). cbn in H2. destruct H2 as [-> ->].
    wp_go. rewrite insert_insert_eq.
    refine (conj (conj Hnd' (conj _ Hcnt)) (conj _ _)).
    + apply (seg_push_front _ a (mkFrame fpg fv fx None (Some p)) p ep []);
        [ apply (seg_unlink_last m [] p ep a _ _ _ fp Hseg Hnd Hfp)
        | exact Ha | apply not_elem_of_nil
        | reflexivity | reflexivity | apply lookup_insert_eq ].
    + rewrite !dom_insert_lookup_L; eauto.
      all: repeat (rewrite lookup_insert_ne by congruence); rewrite ?lookup_insert_eq; eauto.
    + intros b Hb. apply Hout in Hb as (? & ? & ? & ?).
      rewrite !lookup_insert_ne; congruence.
  - cbn in H1. destruct H1 as (-> & _).
    destruct (dlseg_tl_in _ _ _ _ _ _ _ _ H2) as (t & -> & Ht).
    cbn in H2. destruct H2 as (-> & f1 & Hf1 & _).
    assert (Hna : n1 <> a) by (intros ->; apply Ha; cbn; set_solver).
    assert (Hnp : n1 <> p) by (intros ->; apply Hpl2; cbn; set_solver).
    assert (Hta : t <> a) by (intros ->; apply Ha; cbn; set_solver).
    wp_go. rewrite insert_insert_eq.
    refine (conj (conj Hnd' (conj _ Hcnt)) (conj _ _)).
    + apply (seg_push_front _ a (mkFrame fpg fv fx None (Some p)) p ep ((n1, e1) :: l2'));
        [ apply (seg_unlink_mid m [] p ep a _ n1 e1 l2' _ _ fp f1 Hseg Hnd Hfp Hf1)
        | exact Ha | exact Hpl2
        | reflexivity | reflexivity
        | rewrite lookup_insert_ne by congruence; apply lookup_insert_eq ].
    + rewrite !dom_insert_lookup_L; eauto.
      all: repeat (rewrite lookup_insert_ne by congruence); rewrite ?lookup_insert_eq; eauto.
    + intros b Hb. apply Hout in Hb as (? & ? & ? & Hb). cbn in Hb.
      apply not_elem_of_cons in Hb as [? _].
      rewrite !lookup_insert_ne; congruence.
  - pose proof H1 as H1'. cbn in H1'. destruct H1' as (-> & fh & Hfh & _).
    cbn in H2. destruct H2 as [-> ->].
    rewrite app_nil_r in Hnd', Hcnt, Ha, Hnd'' |- *.
    assert (Hha : h <> a) by (intros ->; apply Ha; cbn; set_solver).
    assert (Hh : h ∉ (l1'' ++ [(p, ep)]).*1) by (apply NoDup_cons; exact Hnd'').
    assert (Hhp : h <> p).
    { intros ->. apply Hh. rewrite fmap_app. cbn. set_solver. }
    wp_go. rewrite insert_insert_eq.
    refine (conj (conj Hnd' (conj _ Hcnt)) (conj _ _)).
    + apply (seg_push_front _ a (mkFrame fpg fv fx None (Some h)) h eh (l1'' ++ [(p, ep)]));
        [ apply (seg_unlink_last m ((h, eh) :: l1'') p ep a _ _ _ fp Hseg Hnd Hfp)
        | exact Ha | exact Hh
        | reflexivity | reflexivity
        | rewrite lookup_insert_ne by congruence; exact Hfh ].
    + rewrite !dom_insert_lookup_L; eauto.
      all: repeat (rewrite lookup_insert_ne by congruence); rewrite ?lookup_insert_eq; eauto.
    + intros b Hb. apply Hout in Hb as (? & ? & Hb & ?). cbn in Hb.
      apply not_elem_of_cons in Hb as [? _].
      rewrite !lookup_insert_ne; congruence.
  - pose proof H1 as H1'. cbn in H1'. destruct H1' as (-> & fh & Hfh & _).
    destruct (dlseg_tl_in _ _ _ _ _ _ _ _ H2) as (t & -> & Ht).
    cbn in H2. destruct H2 as (-> & f1 & Hf1 & _).
    assert (Hha : h <> a) by (intros ->; apply Ha; cbn; set_solver).
    assert (Hh : h ∉ ((l1'' ++ [(p, ep)]) ++ (n1, e1) :: l2').*1)
      by (apply NoDup_cons; exact Hnd'').
    assert (Hhp : h <> p).
    { intros ->. apply Hh. rewrite !fmap_app. cbn. set_solver. }
    assert (Hna : n1 <> a).
    { intros ->. apply Ha. rewrite !fmap_app. cbn. set_solver. }
    assert (Hnp : n1 <> p) by (intros ->; apply Hpl2; cbn; set_solver).
    assert (Hnh : n1 <> h).
    { intros ->. apply Hh. rewrite !fmap_app. cbn. set_solver. }
    assert (Hta : t <> a).
    { intros ->. apply Ha. rewrite !fmap_app. set_solver. }
    wp_go. rewrite insert_insert_eq.
    refine (conj (conj Hnd' (conj _ Hcnt)) (conj _ _)).
    + apply (seg_push_front _ a (mkFrame fpg fv fx None (Some h)) h eh
               ((l1'' ++ [(p, ep)]) ++ (n1, e1) :: l2'));
        [ apply (seg_unlink_mid m ((h, eh) :: l1'') p ep a _ n1 e1 l2' _ _ fp f1
                   Hseg Hnd Hfp Hf1)
        | exact Ha | exact Hh
        | reflexivity | reflexivity
        | rewrite !lookup_insert_ne by congruence; exact Hfh ].
    + rewrite !dom_insert_lookup_L; eauto.
      all: repeat (rewrite lookup_insert_ne by congruence); rewrite ?lookup_insert_eq; eauto.
    + intros b Hb. apply Hout in Hb as (? & ? & Hb & Hb'). cbn in Hb, Hb'.
      apply not_elem_of_cons in Hb as [? _]. apply not_elem_of_cons in Hb' as [? _].
      rewrite !lookup_insert_ne; congruence.
Qed.

Lemma lru_loadPage_spec fuel pg (s : state) ls :
  linked s ls -> dom (mem s) = list_to_set ls.*1 ->
  Z.of_nat (length ls) <= NUM_FRAMES -> (length ls <= fuel)%nat ->
  wp (loadPage fuel pg) s (fun _ s' => exists ls',
    linked s' ls' /\ dom (mem s') = list_to_set ls'.*1 /\ lru_step pg ls ls').
Proof.
  intros Hl Hdom Hlen Hfuel. pose proof Hl as (Hnd & Hseg & Hn).
  unfold loadPage, findFrame. wp_go.
  eapply wp_mono; [eapply findFrame_from_spec; eauto|].
  intros [a|] s' [-> Hr]; cbn [negb is_null].
  - destruct Hr as (l1 & e & l2 & -> & He & Hl1).
    eapply wp_mono; [apply moveToHead_spec; exact Hl|].
    intros _ s' (Hl' & Hdom' & _). exists ((a, e) :: l1 ++ l2).
    split; [exact Hl'|]. split.
    + rewrite Hdom', Hdom. rewrite fmap_cons, !fmap_app, fmap_cons.
      rewrite list_to_set_cons, !list_to_set_app_L, list_to_set_cons. set_solver.
    + left. exists l1, a, e, l2. auto.
  - cbn in Hr. unfold createFrame, DList.createFrame.
    apply wp_bind, wp_malloc.
    set (a := fresh (dom (mem s))).
    assert (Ha : a ∉ ls.*1).
    { intros Hin. apply (is_fresh (dom (mem s))). fold a. rewrite Hdom.
      apply elem_of_list_to_set. exact Hin. }
    wp_go. rewrite !insert_insert_eq.
    set (f2 := with_valid true (with_page pg (mkFrame (-1) false tt None None))).
    set (s2 := mkState (<[a := f2]> (mem s)) (flist s)).
    assert (Hl2 : linked s2 ls).
    { split; [exact Hnd|]. split; [|exact Hn]. apply dlseg_insert_other; auto. }
    assert (Hf2 : mem s2 !! a = Some f2) by apply lookup_insert_eq.
    assert (Hdom2 : dom (mem s2) = {[a]} ∪ list_to_set ls.*1).
    { cbn [s2 mem]. rewrite dom_insert_L, Hdom. reflexivity. }
    assert (Hmax : Z.of_nat (length ls) < INT_MAX)
      by (unfold NUM_FRAMES, INT_MAX in *; lia).
    destruct (Z.eqb_spec (numFrames (flist s)) NUM_FRAMES) as [Hfull|Hfree].
    + destruct ls as [|[t et] l _] using rev_ind;
        [rewrite Hn in Hfull; discriminate|].
      assert (Htl : tail (flist s) = Some t).
      { rewrite (dlseg_tl _ _ _ _ _ _ Hseg), last_snoc. reflexivity. }
      wp_go. change (tail (flist s2)) with (tail (flist s)). rewrite Htl.
      eapply wp_mono;
        [apply (removeFrame_spec s2 l t et []); [exact Hl2|lia]|].
      intros _ s3 (Hl3 & Hdom3 & Hsame3). rewrite app_nil_r in Hl3.
      eapply wp_mono; [apply (insertFrame_spec s3 l a f2); auto|].
      * rewrite Hsame3; auto.
      * rewrite fmap_app in Ha. set_solver.
      * rewrite length_app in Hmax. lia.
      * intros _ s4 (Hl4 & Hdom4 & _). exists ((a, (pg, tt, true)) :: l).
        split; [exact Hl4|]. split.
        -- rewrite Hdom4, Hdom3, Hdom2. revert Hnd Ha.
           rewrite fmap_cons, fmap_app, list_to_set_cons, list_to_set_app_L.
           cbn. rewrite NoDup_app. set_solver.
        -- right. split; [exact Hr|]. exists a. split; [exact Ha|].
           destruct (decide (Z.of_nat (length (l ++ [(t, et)])) = NUM_FRAMES));
             [|congruence].
           rewrite removelast_last. reflexivity.
    + wp_go.
      eapply wp_mono; [apply (insertFrame_spec s2 ls a f2); auto|].
      intros _ s4 (Hl4 & Hdom4 & _). exists ((a, (pg, tt, true)) :: ls).
      split; [exact Hl4|]. split.
      * rewrite Hdom4, Hdom2. reflexivity.
      * right. split; [exact Hr|]. exists a. split; [exact Ha|].
        destruct (decide (Z.of_nat (length ls) = NUM_FRAMES)); [congruence|].
        reflexivity.
Qed.
Lemma lru_loadPage_mono fuel fuel' pg :
  (fuel <= fuel')%nat -> refines (loadPage fuel pg) (loadPage fuel' pg).
Proof.
  intros Hle. unfold loadPage. apply refines_bind; [apply findFrame_mono, Hle|].
  intros r. apply refines_refl.
Qed.

Lemma lru_step_well_formed pg ls ls' :
  well_formed ls -> lru_step pg ls ls' -> well_formed ls'.
Proof.
  intros (Hlen & Hnd & Hval) [(l1 & a & e & l2 & -> & He & Hl1 & ->)|(Hno & a & Ha & ->)].
  - split; [|split].
    + revert Hlen. cbn. rewrite !length_app. cbn. lia.
    + revert Hnd. rewrite fmap_cons, !fmap_app, fmap_cons.
      intros H. rewrite Permutation_middle. exact H.
    + intros x Hx. apply Hval. set_solver.
  - assert (Hpg : pg ∉ entry_page <$> ls).
    { intros Hin. apply list_elem_of_fmap in Hin as (x & -> & Hx). exact (Hno x Hx eq_refl). }
    destruct (decide (Z.of_nat (length ls) = NUM_FRAMES)) as [Hfull|Hfree].
    + destruct ls as [|x l _] using rev_ind; [discriminate|].
      rewrite removelast_last.
      rewrite fmap_app in Hnd, Hpg. apply NoDup_app in Hnd as (Hnd & _ & _).
      split; [|split].
      * revert Hlen. cbn. rewrite length_app. cbn. lia.
      * rewrite fmap_cons. apply NoDup_cons. split; [|exact Hnd].
        cbn. set_solver.
      * intros y Hy. apply elem_of_cons in Hy as [->|Hy]; [reflexivity|].
        apply Hval. set_solver.
    + split; [|split].
      * cbn [length]. lia.
      * rewrite fmap_cons. apply NoDup_cons. split; [exact Hpg|exact Hnd].
      * intros y Hy. apply elem_of_cons in Hy as [->|Hy]; [reflexivity|]. auto.
Qed.

(** One [loadPage], from a state of the invariant, with enough budget to
    walk the list. *)
Lemma lru_loadPage_step fuel pg (s : state) ls :
  holds s ls -> well_formed ls -> (Z.to_nat NUM_FRAMES <= fuel)%nat ->
  exists s' ls', loadPage fuel pg s = Ret (tt, s') /\
    holds s' ls' /\ well_formed ls' /\ lru_step pg ls ls'.
Proof.
  intros [Hl Hdom] Hwf Hfuel. pose proof Hwf as (Hlen & _).
  destruct (lru_loadPage_spec fuel pg s ls Hl Hdom Hlen)
    as ([] & s' & Hrun & ls' & Hl' & Hdom' & Hstep); [lia|].
  exists s', ls'. split; [exact Hrun|]. split; [split; assumption|].
  split; [|exact Hstep]. eapply lru_step_well_formed; eauto.
Qed.

Lemma lru_reachable_Inv s : reachable s -> Inv s.
Proof.
  induction 1 as [|s fuel pg s' _ (ls & Hh & Hwf) Hrun]; [apply dlist_createFrameList_Inv|].
  destruct (lru_loadPage_step (Nat.max fuel (Z.to_nat NUM_FRAMES)) pg s ls Hh Hwf)
    as (s1 & ls' & Hrun' & Hh' & Hwf' & _); [lia|].
  apply (lru_loadPage_mono fuel (Nat.max fuel (Z.to_nat NUM_FRAMES))) in Hrun; [|lia].
  replace s' with s1 by congruence. exists ls'. auto.
Qed.

Lemma lru_reachable_loadPages fuel pgs (s s' : state) :
  reachable s -> loadPages fuel pgs s = Ret (tt, s') -> reachable s'.
Proof.
  revert s. induction pgs as [|pg pgs IH]; intros s Hr; cbn.
  - intros [= <-]. exact Hr.
  - unfold bind. destruct (loadPage fuel pg s) as [[[] s1]| |] eqn:E; try discriminate.
    intros H. apply (IH s1); [|exact H]. eapply reach_load; eauto.
Qed.

(** A hit: the frame of the page moves to the front, the others keep
    their order, no frame is allocated or freed. *)
Lemma lru_hit fuel pg (s : state) :
  reachable s -> pg ∈ resident_pages s -> (Z.to_nat NUM_FRAMES <= fuel)%nat ->
  exists s' a l1 l2,
    loadPage fuel pg s = Ret (tt, s') /\
    holds s (l1 ++ (a, (pg, tt, true)) :: l2) /\
    holds s' ((a, (pg, tt, true)) :: l1 ++ l2) /\
    well_formed ((a, (pg, tt, true)) :: l1 ++ l2).
Proof.
  intros Hr Hin Hfuel. destruct (lru_reachable_Inv s Hr) as (ls & Hh & Hwf).
  destruct (lru_loadPage_step fuel pg s ls Hh Hwf Hfuel)
    as (s' & ls' & Hrun & Hh' & Hwf' & [(l1 & a & e & l2 & -> & He & Hl1 & ->)|(Hno & _)]).
  - assert (e = (pg, tt, true)) as ->.
    { destruct Hwf as (_ & _ & Hval). specialize (Hval (a, e)).
      destruct e as [[p []] v]. cbn in *. rewrite Hval by set_solver. congruence. }
    exists s', a, l1, l2. auto.
  - exfalso. apply (resident_page_entry s ls pg Hh Hwf) in Hin as (x & Hx & Hpg).
    exact (Hno x Hx Hpg).
Qed.

(** A miss: the new page enters at the front; when the list is full, the
    frame at its tail has left. *)
Lemma lru_miss fuel pg (s : state) :
  reachable s -> pg ∉ resident_pages s -> (Z.to_nat NUM_FRAMES <= fuel)%nat ->
  exists s' ls a,
    loadPage fuel pg s = Ret (tt, s') /\ holds s ls /\
    holds s' ((a, (pg, tt, true)) ::
              (if decide (Z.of_nat (length ls) = NUM_FRAMES) then removelast ls else ls)).
Proof.
  intros Hr Hin Hfuel. destruct (lru_reachable_Inv s Hr) as (ls & Hh & Hwf).
  destruct (lru_loadPage_step fuel pg s ls Hh Hwf Hfuel)
    as (s' & ls' & Hrun & Hh' & Hwf' &
        [(l1 & a & e & l2 & -> & He & Hl1 & ->)|(Hno & a & Ha & ->)]).
  - exfalso. apply Hin. apply (resident_page_entry s _ pg Hh Hwf).
    exists (a, e). split; [set_solver|exact He].
  - exists s', ls, a. auto.
Qed.

(** Loading the page at the head again changes nothing at all. *)
Lemma lru_head_again fuel pg (s : state) a e ls :
  holds s ((a, e) :: ls) -> e.1.1 = pg -> (1 <= fuel)%nat ->
  loadPage fuel pg s = Ret (tt, s).
Proof.
  intros [(Hnd & Hseg & Hn) _] He Hfuel. cbn in Hseg.
  destruct Hseg as (Hhd & f & Hf & Hi & _).
  assert (W : wp (loadPage fuel pg) s (fun _ s' => s' = s)).
  { unfold loadPage, findFrame. wp_go. rewrite Hhd.
    destruct fuel as [|fuel]; [lia|]. cbn [findFrame_from is_null]. wp_go.
    replace (page f) with pg by (subst e; symmetry; exact He).
    rewrite Z.eqb_refl. wp_go. unfold moveToHead. wp_go. reflexivity. }
  destruct W as ([] & s' & Hrun & ->). exact Hrun.
Qed.

Lemma lru_again_many fuel pg (s : state) n :
  loadPage fuel pg s = Ret (tt, s) ->
  loadPages fuel (replicate n pg) s = Ret (tt, s).
Proof.
  intros H. induction n as [|n IH]; cbn; [reflexivity|].
  unfold bind. rewrite H. exact IH.
Qed.

End LRUFacts.

(** ** Further lemmas *)

Local Set Warnings "-clear-no-such-hyp".

(** *** Clock: the slots fill in index order *)

Module ClockViewFacts.
Import Clock ClockFacts ClockView.

Lemma createFrameList_fills : fills_in_order createFrameList.
Proof.
  exists [], (frames createFrameList). split; [reflexivity|]. split; [constructor|].
  split; [|reflexivity]. cbn. repeat constructor.
Qed.

Lemma occupied_app occ emp :
  Forall (fun f => valid f = true) occ ->
  Forall (fun f => valid f = false /\ page f = -1) emp ->
  filter (fun f => valid f = true) (occ ++ emp) = occ.
Proof.
  intros Ho He. rewrite filter_app.
  rewrite (DListFacts.filter_all _ occ) by (apply Forall_forall; exact Ho).
  replace (filter (fun f => valid f = true) emp) with (@nil Frame); [apply app_nil_r|].
  symmetry. induction He as [|f emp [Hv _] _ IH]; [reflexivity|].
  rewrite filter_cons. destruct (decide (valid f = true)); [congruence|exact IH].
Qed.

(** One turn of the scan on a table with a free slot: the slot under the
    hand is taken. *)
Lemma scan_free_slot n fl pg occ e emp :
  shaped fl -> frames fl = occ ++ e :: emp -> valid e = false ->
  clockHand fl = Z.of_nat (length occ) ->
  scan (S n) fl pg =
    Ret (mkFrameList (numFrames fl) (occ ++ mkFrame pg true true :: emp)
           (Z.rem (wrap (Z.of_nat (length occ) + 1)) NUM_FRAMES)).
Proof.
  intros Hsh Hfr Hv Hh.
  assert (Hlk : frames fl !! Z.to_nat (clockHand fl) = Some e).
  { rewrite Hh, Nat2Z.id, Hfr. rewrite lookup_app_r by lia.
    rewrite Nat.sub_diag. reflexivity. }
  rewrite (scan_S n fl pg e) by (auto; lia).
  rewrite Hv. cbn [negb orb]. rewrite Hh, Nat2Z.id, Hfr.
  f_equal. f_equal. rewrite insert_app_r_alt by lia.
  rewrite Nat.sub_diag. reflexivity.
Qed.

Lemma loadPage_fills fuel fl pg fl' :
  Inv fl -> fills_in_order fl -> loadPage fuel fl pg = Ret fl' -> fills_in_order fl'.
Proof.
  intros (Hsh & Hd & Hn) (occ & emp & Hfr & Ho & He & Hh) Hl.
  destruct (clock_loadPage_cases _ _ _ _ Hsh Hl) as [(j & f & Hj & Hp & ->)|[Hno Hs]].
  - (* a hit writes a reference bit *)
    rewrite Hfr in Hj. cbn [frames clockHand]. unfold fills_in_order. cbn [frames clockHand].
    rewrite Hfr. apply lookup_app_Some in Hj as [Hj|[Hge Hj]].
    + exists (<[j := with_reference true f]> occ), emp.
      split; [apply insert_app_l; eapply lookup_lt_Some; eauto|].
      split; [|split; [exact He|rewrite length_insert; exact Hh]].
      apply Forall_insert; [exact Ho|]. cbn. rewrite Forall_forall in Ho.
      apply Ho. eapply list_elem_of_lookup_2; eauto.
    + exists occ, (<[(j - length occ)%nat := with_reference true f]> emp).
      split; [rewrite insert_app_r_alt by lia; reflexivity|].
      split; [exact Ho|]. split.
      * apply Forall_insert; [exact He|]. cbn. rewrite Forall_forall in He.
        apply He. eapply list_elem_of_lookup_2; eauto.
      * intros Hne. apply Hh. intros ->. discriminate.
  - destruct emp as [|e emp].
    + (* full: the scan keeps every slot occupied *)
      destruct (scan_claims _ _ _ _ Hsh Hs) as ((Hlen' & _) & _ & k & Hk & Hrest).
      exists (frames fl'), []. rewrite app_nil_r. split; [reflexivity|].
      split; [|split; [constructor|congruence]].
      apply Forall_lookup. intros i f' Hi.
      destruct (decide (i = k)) as [->|Hne]; [replace f' with (mkFrame pg true true) by congruence; reflexivity|].
      destruct (lookup_lt_is_Some_2 (frames fl) i) as [g Hg].
      { apply lookup_lt_Some in Hi. destruct Hsh as [Hlen _]. lia. }
      destruct (Hrest i g Hne Hg) as (f'' & Hf'' & _ & Hv).
      replace f' with f'' by congruence. rewrite Hv.
      rewrite app_nil_r in Hfr. rewrite Hfr in Hg. rewrite Forall_forall in Ho.
      apply Ho. eapply list_elem_of_lookup_2; eauto.
    + (* a free slot: it is under the hand and is taken at once *)
      specialize (Hh ltac:(discriminate)).
      apply Forall_cons in He as [[Hv _] He].
      destruct fuel as [|n]; [discriminate|].
      rewrite (scan_free_slot n fl pg occ e emp Hsh Hfr Hv Hh) in Hs.
      injection Hs as <-. unfold fills_in_order. cbn [frames clockHand].
      exists (occ ++ [mkFrame pg true true]), emp.
      split; [rewrite <- app_assoc; reflexivity|].
      split; [apply Forall_app; split; [exact Ho|repeat constructor]|].
      split; [exact He|]. intros Hne.
      destruct Hsh as [Hlen _]. rewrite Hfr, length_app in Hlen. cbn [length] in Hlen.
      assert (length emp <> 0)%nat by (destruct emp; cbn; congruence).
      rewrite length_app. cbn [length]. unfold NUM_FRAMES in *.
      rewrite wrap_small by (unfold INT_MIN, INT_MAX; lia).
      rewrite Z.rem_small by lia. lia.
Qed.

Lemma reachable_fills fl : reachable fl -> fills_in_order fl.
Proof.
  induction 1 as [|fl fuel pg fl' Hr IH Hl]; [apply createFrameList_fills|].
  eapply loadPage_fills; eauto. apply clock_reachable_Inv, Hr.
Qed.

End ClockViewFacts.

(** *** Clock: counting the occupied slots, and [printFrameList] *)

Module ClockPrintFacts.
Import Clock ClockFacts ClockView ClockViewFacts ClockPrint.

Lemma fills_counts fl occ emp :
  frames fl = occ ++ emp ->
  Forall (fun f => valid f = true) occ ->
  Forall (fun f => valid f = false /\ page f = -1) emp ->
  occupied fl = length occ /\ resident_pages fl = page <$> occ.
Proof.
  intros Hfr Ho He. unfold occupied, resident_pages.
  rewrite Hfr, (occupied_app occ emp Ho He). auto.
Qed.

Lemma clock_print_from_spec fs n k :
  (k + n = length fs)%nat -> Z.of_nat (length fs) <= INT_MAX ->
  print_from fs (Z.of_nat k) n =
    Ret (imap (fun i f => mkLine (Z.of_nat (k + i)) (page f) (valid f) (reference f))
           (drop k fs)).
Proof.
  revert k. induction n as [|n IH]; intros k Hk Hmax.
  - rewrite drop_ge by lia. reflexivity.
  - destruct (lookup_lt_is_Some_2 fs k) as [f Hf]; [lia|].
    assert (Hat : frame_at fs (Z.of_nat k) = Ret f).
    { apply frame_at_Ret. rewrite Nat2Z.id. split; [lia|exact Hf]. }
    cbn [print_from]. rewrite Hat. cbn [rbind]. rewrite wrap_small by (unfold INT_MIN, INT_MAX in *; lia).
    replace (Z.of_nat k + 1) with (Z.of_nat (S k)) by lia.
    rewrite IH by lia. cbn [rbind].
    rewrite (drop_S fs f k Hf). cbn [imap]. rewrite Nat.add_0_r. do 2 f_equal.
    apply imap_ext. intros i g _. cbn. do 2 f_equal. lia.
Qed.

End ClockPrintFacts.

(** *** Clock: the table as a queue from the hand *)

Module ClockQueueFacts.
Import Clock ClockFacts ClockView ClockViewFacts ClockPrint ClockPrintFacts ClockQueue.

(** Writing the slot under the hand and advancing the hand moves the
    head of the queue to its end. *)
Lemma from_hand_step fl x q y :
  shaped fl -> from_hand fl = x :: q ->
  frames fl !! Z.to_nat (clockHand fl) = Some x /\
  from_hand (mkFrameList (numFrames fl)
               (<[Z.to_nat (clockHand fl) := y]> (frames fl))
               (Z.rem (wrap (clockHand fl + 1)) NUM_FRAMES)) = q ++ [y].
Proof.
  intros [Hlen Hh]. unfold from_hand. cbn [frames clockHand].
  set (h := Z.to_nat (clockHand fl)). set (fs := frames fl) in *. intros Hq.
  assert (Hlt : (h < length fs)%nat) by (unfold NUM_FRAMES in *; lia).
  destruct (lookup_lt_is_Some_2 fs h Hlt) as [x' Hx'].
  rewrite (drop_S fs x' h Hx') in Hq. injection Hq as -> <-.
  split; [exact Hx'|].
  rewrite wrap_small by (unfold INT_MIN, INT_MAX, NUM_FRAMES in *; lia).
  destruct (decide (S h = length fs)) as [Hend|Hmid].
  - replace (Z.rem (clockHand fl + 1) NUM_FRAMES) with 0.
    2:{ replace (clockHand fl + 1) with NUM_FRAMES by (unfold NUM_FRAMES in *; lia).
        reflexivity. }
    cbn [Z.to_nat drop take]. rewrite app_nil_r.
    rewrite (drop_ge fs (S h)) by lia. cbn [app].
    rewrite insert_take_drop by lia. rewrite (drop_ge fs (S h)) by lia. reflexivity.
  - rewrite Z.rem_small by (unfold NUM_FRAMES in *; lia).
    replace (Z.to_nat (clockHand fl + 1)) with (S h) by lia.
    rewrite drop_insert_lt by lia.
    rewrite (take_S_r _ h y) by (apply list_lookup_insert_eq; lia).
    rewrite take_insert_ge by lia. rewrite app_assoc. reflexivity.
Qed.

Lemma hand_next_mod h :
  0 <= h < NUM_FRAMES -> Z.rem (wrap (h + 1)) NUM_FRAMES = (h + 1) mod NUM_FRAMES.
Proof.
  intros Hh. rewrite wrap_small by (unfold INT_MIN, INT_MAX, NUM_FRAMES in *; lia).
  apply Z.rem_mod_nonneg; unfold NUM_FRAMES in *; lia.
Qed.

Lemma claimable_false f : claimable f = false -> valid f = true /\ reference f = true.
Proof. unfold claimable. destruct (valid f), (reference f); cbn; auto; discriminate. Qed.

(** The scan passes over the occupied and referenced slots at the head
    of the queue, clearing their bits; each costs one turn of the loop. *)
Lemma scan_passes pg pre : forall fl rest,
  shaped fl -> from_hand fl = pre ++ rest ->
  Forall (fun f => claimable f = false) pre ->
  exists fl1, shaped fl1 /\ numFrames fl1 = numFrames fl /\
    clockHand fl1 = (clockHand fl + Z.of_nat (length pre)) mod NUM_FRAMES /\
    from_hand fl1 = rest ++ (with_reference false <$> pre) /\
    forall n, scan (length pre + n) fl pg = scan n fl1 pg.
Proof.
  induction pre as [|x pre IH]; intros fl rest Hsh Hq Hp.
  - exists fl. rewrite app_nil_r. repeat (split; [auto|]); [|auto].
    cbn [length]. destruct Hsh as [_ Hh]. rewrite Z.add_0_r, Z.mod_small; [reflexivity|exact Hh].
  - apply Forall_cons in Hp as [Hx Hp]. cbn [app] in Hq.
    destruct (from_hand_step fl x (pre ++ rest) (with_reference false x) Hsh Hq) as [Hlk Hq'].
    set (fl0 := mkFrameList (numFrames fl)
               (<[Z.to_nat (clockHand fl) := with_reference false x]> (frames fl))
               (Z.rem (wrap (clockHand fl + 1)) NUM_FRAMES)) in *.
    assert (Hsh0 : shaped fl0).
    { destruct Hsh as [Hlen Hh]. split; cbn [fl0 frames clockHand].
      - rewrite length_insert. exact Hlen.
      - apply hand_next, Hh. }
    rewrite <- app_assoc in Hq'.
    destruct (IH fl0 (rest ++ [with_reference false x]) Hsh0 Hq' Hp)
      as (fl1 & Hsh1 & Hn1 & Hh1 & Hq1 & Hrun).
    exists fl1. split; [exact Hsh1|]. split; [exact Hn1|]. split; [|split].
    + rewrite Hh1. cbn [fl0 clockHand length].
      rewrite hand_next_mod by (destruct Hsh; auto).
      rewrite Zplus_mod_idemp_l. f_equal. lia.
    + rewrite Hq1, <- app_assoc. reflexivity.
    + intros n. cbn [length Nat.add].
      rewrite (scan_S _ fl pg x) by (destruct Hsh; auto; lia).
      unfold claimable in Hx. rewrite Hx. apply Hrun.
Qed.

(** A claimable slot at the head of the queue is taken in one turn. *)
Lemma scan_takes pg fl c post n :
  shaped fl -> from_hand fl = c :: post -> claimable c = true ->
  exists fl', scan (S n) fl pg = Ret fl' /\ numFrames fl' = numFrames fl /\
    clockHand fl' = (clockHand fl + 1) mod NUM_FRAMES /\
    from_hand fl' = post ++ [mkFrame pg true true].
Proof.
  intros Hsh Hq Hc.
  destruct (from_hand_step fl c post (mkFrame pg true true) Hsh Hq) as [Hlk Hq'].
  eexists. split; [|split; [|split; [|exact Hq']]]; [|reflexivity|].
  2:{ cbn [clockHand]. apply hand_next_mod. destruct Hsh; auto. }
  rewrite (scan_S _ fl pg c) by (destruct Hsh; auto; lia).
  unfold claimable in Hc. rewrite Hc. reflexivity.
Qed.

Lemma scan_short pg : forall n fl pre rest,
  shaped fl -> from_hand fl = pre ++ rest ->
  Forall (fun f => claimable f = false) pre -> (n <= length pre)%nat ->
  scan n fl pg = OutOfFuel.
Proof.
  intros n fl pre rest Hsh Hq Hp Hn.
  rewrite <- (take_drop n pre) in Hq, Hp. rewrite <- app_assoc in Hq.
  apply Forall_app in Hp as [Hp _].
  destruct (scan_passes pg _ fl _ Hsh Hq Hp) as (fl1 & _ & _ & _ & _ & Hrun).
  specialize (Hrun 0%nat). rewrite length_take, Nat.add_0_r in Hrun.
  replace (n `min` length pre)%nat with n in Hrun by lia. rewrite Hrun. reflexivity.
Qed.

End ClockQueueFacts.

(** *** Lists: the list determines the state *)

Module DListMore.
Import DList DListFacts.
Section More.
Context {X : Type}.
Implicit Types (s : state X) (ls : list (positive * (Z * X * bool))).

(** The list determines the frames on it, and [head] and [tail]. *)
Lemma dlseg_same (m m' : gmap positive (Frame X)) ls : forall hd hd' pv tl tl' nx,
  dlseg m ls hd pv tl nx -> dlseg m' ls hd' pv tl' nx ->
  hd = hd' /\ tl = tl' /\ forall b, b ∈ ls.*1 -> m !! b = m' !! b.
Proof.
  induction ls as [|[a e] ls IH]; intros hd hd' pv tl tl' nx H H'.
  - destruct H as [-> ->], H' as [-> ->]. split; [auto|]. split; [auto|].
    intros b Hb. cbn in Hb. apply elem_of_nil in Hb. contradiction.
  - destruct H as (-> & f & Hf & Hi & Hp & Hrest).
    destruct H' as (-> & f' & Hf' & Hi' & Hp' & Hrest').
    destruct (IH _ _ _ _ _ _ Hrest Hrest') as (Hn & Ht & Hs).
    assert (f = f').
    { destruct f, f'. unfold info in *. cbn in *. congruence. }
    subst f'. split; [auto|]. split; [auto|].
    intros b Hb. cbn in Hb. apply elem_of_cons in Hb as [->|Hb]; [congruence|auto].
Qed.

Lemma linked_same s s' ls :
  linked s ls -> linked s' ls ->
  (forall b, b ∉ ls.*1 -> mem s !! b = mem s' !! b) -> s = s'.
Proof.
  intros (_ & Hd & Hn) (_ & Hd' & Hn') Hout.
  destruct (dlseg_same _ _ _ _ _ _ _ _ _ Hd Hd') as (Hh & Ht & Hin).
  destruct s as [m [n h t]], s' as [m' [n' h' t']]. cbn in *. subst.
  f_equal. apply map_eq. intros b.
  destruct (decide (b ∈ ls.*1)); auto.
Qed.

Lemma dlist_findFrame_spec s ls fuel pg :
  linked s ls -> (length ls <= fuel)%nat ->
  exists r, findFrame fuel pg s = Ret (r, s) /\ first_with pg ls r.
Proof.
  intros (_ & Hd & _) Hfuel.
  destruct (findFrame_from_spec fuel s ls _ _ _ pg Hd Hfuel) as (r & s' & Hrun & -> & Hr).
  exists r. split; [|exact Hr]. unfold findFrame, bind, get_head. exact Hrun.
Qed.

Lemma first_with_None pg ls : first_with pg ls None <-> pg ∉ (entry_page <$> ls).
Proof.
  cbn. split.
  - intros H Hin. apply list_elem_of_fmap in Hin as (x & -> & Hx). exact (H x Hx eq_refl).
  - intros H x Hx Hp. apply H. apply list_elem_of_fmap. eauto.
Qed.

End More.
End DListMore.

(** *** Lists: what the invariant gives *)

Module DListAccountFacts.
Import DList DListFacts DListMore DListAccount.

Lemma Inv_accounted {X : Type} (s : state X) : Inv s -> accounted s.
Proof.
  intros (ls & Hh & Hwf). pose proof Hh as ((Hnd & Hd & Hn) & Hdom).
  unfold accounted. rewrite (resident_holds s ls Hh), (occupied_holds s ls Hh Hwf).
  rewrite length_fmap. split; [apply holds_size, Hh|]. split; [exact Hn|].
  split; [reflexivity|]. split.
  - destruct ls as [|[a e] ls]; [destruct Hd as [-> _]; reflexivity|].
    destruct Hd as (-> & f & Hf & Hi & Hp & _). exists f. cbn. rewrite Hi. auto.
  - destruct ls as [|x ls _] using rev_ind; [destruct Hd as [_ ->]; reflexivity|].
    destruct x as [p ep]. apply dlseg_snoc_inv in Hd as (-> & f & Hf & Hnx & Hi).
    exists f. rewrite fmap_app. cbn [fmap list_fmap]. rewrite last_snoc. cbn. rewrite Hi. auto.
Qed.

Lemma Inv_printFrameList {X : Type} (s : state X) (fuel : nat) :
  Inv s -> (Z.to_nat NUM_FRAMES <= fuel)%nat ->
  printFrameList fuel s = Ret (resident s, s) /\
  (length (resident s) <= Z.to_nat NUM_FRAMES)%nat /\
  Forall (fun e => e.2 = true) (resident s).
Proof.
  intros (ls & Hh & Hwf) Hfuel. pose proof Hh as ((Hnd & Hd & Hn) & Hdom).
  destruct Hwf as (Hlen & _ & Hv).
  rewrite (resident_holds s ls Hh), length_fmap. split; [|split].
  - destruct (print_from_spec fuel s ls _ _ _ Hd) as (r & s' & Hrun & -> & ->); [lia|].
    unfold printFrameList, bind, get_head. exact Hrun.
  - lia.
  - apply Forall_fmap, Forall_forall. intros x Hx. cbn. apply Hv, Hx.
Qed.

End DListAccountFacts.

(** *** LRU on plain lists *)

Module RecencyFacts.
Import DList DListFacts LRU LRUFacts Recency.

Lemma remove_dups_snoc (l : list Z) (p : Z) :
  remove_dups (l ++ [p]) = filter (fun q => q <> p) (remove_dups l) ++ [p].
Proof.
  induction l as [|x l IH]; [reflexivity|].
  cbn [app remove_dups]. rewrite IH. unfold decide_rel.
  destruct (list_elem_of_dec x (l ++ [p])) as [H1|H1], (list_elem_of_dec x l) as [H2|H2].
  - reflexivity.
  - apply elem_of_app in H1 as [H1|H1]; [contradiction|].
    apply list_elem_of_singleton in H1 as ->.
    rewrite filter_cons_False by auto. reflexivity.
  - exfalso. apply H1, elem_of_app. auto.
  - rewrite filter_cons_True; [reflexivity|].
    intros ->. apply H1, elem_of_app. right. left.
Qed.

Lemma filter_other (p : Z) (l : list Z) : p ∉ l -> filter (fun q => q <> p) l = l.
Proof.
  intros Hp. apply filter_all. intros x Hx ->. auto.
Qed.

Lemma removelast_cons {A} (x : A) (l : list A) : l <> [] -> removelast (x :: l) = x :: removelast l.
Proof. destruct l; [congruence|reflexivity]. Qed.

Lemma fmap_removelast {A B} (f : A -> B) (l : list A) :
  f <$> removelast l = removelast (f <$> l).
Proof.
  induction l as [|x l IH]; [reflexivity|].
  destruct l as [|y l]; [reflexivity|].
  change (f <$> x :: removelast (y :: l) = f x :: removelast (f <$> y :: l)).
  rewrite fmap_cons, IH. reflexivity.
Qed.

Lemma take_filter_other (p : Z) (D : list Z) : forall n,
  NoDup D ->
  take n (filter (fun q => q <> p) D) =
    if decide (p ∈ take (S n) D) then filter (fun q => q <> p) (take (S n) D)
    else if decide (length (take (S n) D) = S n) then removelast (take (S n) D)
    else take (S n) D.
Proof.
  induction D as [|x D IH]; intros n Hnd.
  - rewrite filter_nil, !take_nil. rewrite decide_False by apply not_elem_of_nil.
    rewrite decide_False by (cbn; lia). reflexivity.
  - apply NoDup_cons in Hnd as [Hx Hnd]. cbn [take].
    destruct (decide (x = p)) as [->|Hne].
    + rewrite decide_True by left.
      rewrite !filter_cons_False by auto.
      rewrite (filter_other p D Hx).
      rewrite filter_other; [reflexivity|].
      intros H. apply Hx. eapply subseteq_take, H.
    + rewrite filter_cons_True by auto.
      destruct n as [|n].
      * cbn [take]. rewrite decide_False.
        2:{ intros H. apply list_elem_of_singleton in H. auto. }
        rewrite decide_True by reflexivity. reflexivity.
      * cbn [take]. rewrite (IH n Hnd). cbn [take].
        destruct (decide (p ∈ take (S n) D)) as [Hin|Hnin].
        -- rewrite decide_True by (right; exact Hin).
           rewrite filter_cons_True by auto. reflexivity.
        -- rewrite (decide_False (P := p ∈ x :: take (S n) D)).
           2:{ intros H. apply elem_of_cons in H as [H|H]; auto. }
           cbn [length].
           destruct (decide (length (take (S n) D) = S n)) as [Hl|Hl].
           ++ rewrite decide_True by lia. rewrite removelast_cons; [reflexivity|].
              intros E. rewrite E in Hl. discriminate.
           ++ rewrite decide_False by lia. reflexivity.
Qed.

Lemma most_recent_snoc (pgs : list Z) (p : Z) :
  most_recent (pgs ++ [p]) = lru_update p (most_recent pgs).
Proof.
  unfold most_recent, lru_update.
  rewrite remove_dups_snoc, reverse_snoc, <- filter_reverse.
  change (Z.to_nat NUM_FRAMES) with 4%nat. cbn [take]. f_equal.
  rewrite (take_filter_other p _ 3).
  2:{ rewrite reverse_Permutation. apply NoDup_remove_dups. }
  destruct (decide (p ∈ take 4 (reverse (remove_dups pgs)))); [reflexivity|].
  destruct (decide (length (take 4 (reverse (remove_dups pgs))) = 4%nat)); reflexivity.
Qed.

(** One access on the lists of frames, read on the pages. *)
Lemma lru_step_pages pg ls ls' :
  well_formed ls -> lru_step pg ls ls' ->
  entry_page <$> ls' = lru_update pg (entry_page <$> ls).
Proof.
  intros (Hlen & Hnd & _) [(l1 & a & e & l2 & -> & He & Hl1 & ->)|(Hno & a & Ha & ->)].
  - rewrite fmap_app, fmap_cons in Hnd.
    change (entry_page (a, e)) with (e.1.1) in Hnd. rewrite He in Hnd.
    unfold lru_update. rewrite fmap_cons, !fmap_app, fmap_cons.
    change (entry_page (a, e)) with (e.1.1). rewrite He.
    rewrite decide_True by (apply elem_of_app; right; left). f_equal.
    apply NoDup_app in Hnd as (Hnd1 & Hdis & Hnd2). apply NoDup_cons in Hnd2 as [Hp2 _].
    rewrite filter_app, filter_cons_False by auto.
    rewrite !filter_other; auto. intros H. apply (Hdis _ H). left.
  - unfold lru_update. rewrite fmap_cons. unfold entry_page at 1. cbn [snd fst]. f_equal.
    rewrite (decide_False (P := pg ∈ entry_page <$> ls)).
    2:{ intros H. apply list_elem_of_fmap in H as (x & Hx & Hin). eapply Hno; eauto. }
    rewrite length_fmap. unfold NUM_FRAMES.
    destruct (decide (Z.of_nat (length ls) = 4)).
    + rewrite (decide_True (P := length ls = Z.to_nat 4)) by lia. apply fmap_removelast.
    + rewrite (decide_False (P := length ls = Z.to_nat 4)) by lia. reflexivity.
Qed.

Lemma lru_loadPage_pages fuel pg (s s' : state) :
  reachable s -> loadPage fuel pg s = Ret (tt, s') ->
  resident_pages s' = lru_update pg (resident_pages s).
Proof.
  intros Hr Hrun. destruct (lru_reachable_Inv s Hr) as (ls & Hh & Hwf).
  destruct (lru_loadPage_step (fuel `max` Z.to_nat NUM_FRAMES) pg s ls Hh Hwf)
    as (s1 & ls' & Hrun1 & Hh' & Hwf' & Hstep); [lia|].
  apply (lru_loadPage_mono fuel (fuel `max` Z.to_nat NUM_FRAMES) pg) in Hrun; [|lia].
  rewrite Hrun in Hrun1. injection Hrun1 as <-.
  rewrite (resident_pages_holds s' ls' Hh' Hwf'), (resident_pages_holds s ls Hh Hwf).
  apply lru_step_pages; assumption.
Qed.

Lemma lru_loadPages_pages fuel pgs : forall (s s' : state) done,
  reachable s -> resident_pages s = most_recent done ->
  loadPages fuel pgs s = Ret (tt, s') ->
  resident_pages s' = most_recent (done ++ pgs).
Proof.
  induction pgs as [|p pgs IH]; intros s s' done Hr Hres Hrun.
  - injection Hrun as <-. rewrite app_nil_r. exact Hres.
  - cbn [loadPages] in Hrun. unfold bind in Hrun.
    destruct (loadPage fuel p s) as [[[] s1]| |] eqn:E1; try discriminate.
    rewrite (IH s1 s' (done ++ [p])); [rewrite <- app_assoc; reflexivity| | |exact Hrun].
    + eapply reach_load; eauto.
    + rewrite most_recent_snoc, <- Hres. eapply lru_loadPage_pages; eauto.
Qed.

Lemma lru_loadPages_returns fuel pgs : forall (s : state),
  reachable s -> (Z.to_nat NUM_FRAMES <= fuel)%nat ->
  exists s', loadPages fuel pgs s = Ret (tt, s').
Proof.
  induction pgs as [|p pgs IH]; intros s Hr Hfuel.
  - exists s. reflexivity.
  - destruct (lru_reachable_Inv s Hr) as (ls & Hh & Hwf).
    destruct (lru_loadPage_step fuel p s ls Hh Hwf Hfuel) as (s1 & ls' & Hrun1 & _).
    destruct (IH s1) as (s' & Hrun); [eapply reach_load; eauto|exact Hfuel|].
    exists s'. cbn [loadPages]. unfold bind. rewrite Hrun1. exact Hrun.
Qed.

End RecencyFacts.

(** *** LFU: a miss on a full list *)

Module LFUMore.
Import DList DListFacts LFU LFUFacts.

(** On a full list whose first frame has frequency 1 and no frame has
    less, a miss takes the place of that first frame. *)
Lemma lfu_miss_head fuel pg (s : state) p rest :
  reachable s -> (Z.to_nat NUM_FRAMES <= fuel)%nat ->
  pg ∉ resident_pages s -> length (resident s) = Z.to_nat NUM_FRAMES ->
  resident s = (p, 1, true) :: rest -> Forall (fun e => 1 <= e.1.2) rest ->
  exists s', loadPage fuel pg s = Ret (tt, s') /\ resident s' = (pg, 1, true) :: rest.
Proof.
  intros Hr Hfuel Hmiss Hfull Hres Hfreq.
  destruct (lfu_miss fuel pg s Hr Hmiss Hfuel) as (s' & ls & a & Hrun & Hh & Hwf & Hcase).
  exists s'. split; [exact Hrun|].
  rewrite (resident_holds s ls Hh) in Hres, Hfull. rewrite length_fmap in Hfull.
  destruct Hcase as [[Hne _]|(_ & l1 & v & ev & l2 & (Hls & Hlt & Hle) & Hh')].
  { exfalso. unfold NUM_FRAMES in *. lia. }
  rewrite (resident_holds s' _ Hh'). cbn [fmap list_fmap snd]. f_equal.
  destruct l1 as [|x l1].
  - subst ls. cbn in Hres. injection Hres as _ <-. reflexivity.
  - exfalso. subst ls. cbn in Hres. injection Hres as Hx Hrest.
    assert (Hev : ev ∈ rest).
    { rewrite <- Hrest, fmap_app, fmap_cons. apply elem_of_app. right. left. }
    rewrite Forall_forall in Hfreq. specialize (Hfreq ev Hev).
    specialize (Hlt x ltac:(left)). unfold entry_freq in Hlt. rewrite Hx in Hlt.
    cbn in Hlt. lia.
Qed.

End LFUMore.

(** *** LFU on plain lists *)

Module FrequencyFacts.
Import DList DListFacts LFU LFUFacts Frequency.

Lemma touch_app pg k1 e k2 :
  (forall x, x ∈ k1 -> x.1.1 <> pg) -> e.1.1 = pg ->
  touch pg (k1 ++ e :: k2) = k1 ++ (e.1.1, wrap (e.1.2 + 1), e.2) :: k2.
Proof.
  intros Hk1 He. induction k1 as [|x k1 IH]; cbn [app touch].
  - rewrite (proj2 (Z.eqb_eq _ _) He). reflexivity.
  - rewrite (proj2 (Z.eqb_neq _ _)) by (apply Hk1; left).
    rewrite IH; [reflexivity|]. intros y Hy. apply Hk1. right. exact Hy.
Qed.

Lemma drop_first_app m k1 e k2 :
  (forall x, x ∈ k1 -> x.1.2 <> m) -> e.1.2 = m ->
  drop_first m (k1 ++ e :: k2) = k1 ++ k2.
Proof.
  intros Hk1 He. induction k1 as [|x k1 IH]; cbn [app drop_first].
  - rewrite (proj2 (Z.eqb_eq _ _) He). reflexivity.
  - rewrite (proj2 (Z.eqb_neq _ _)) by (apply Hk1; left).
    rewrite IH; [reflexivity|]. intros y Hy. apply Hk1. right. exact Hy.
Qed.

Lemma foldr_min_bounds (d : Z) (l : list (Z * Z * bool)) :
  foldr (fun x m => Z.min x.1.2 m) d l <= d /\
  (forall x, x ∈ l -> foldr (fun x m => Z.min x.1.2 m) d l <= x.1.2) /\
  (forall m, m <= d -> (forall x, x ∈ l -> m <= x.1.2) ->
     m <= foldr (fun x m => Z.min x.1.2 m) d l).
Proof.
  induction l as [|y l (IH1 & IH2 & IH3)]; cbn [foldr].
  - split; [lia|]. split; [intros x Hx; apply elem_of_nil in Hx; contradiction|].
    intros m Hm _. exact Hm.
  - split; [lia|]. split.
    + intros x Hx. apply elem_of_cons in Hx as [->|Hx]; [lia|]. specialize (IH2 x Hx). lia.
    + intros m Hm Hall. apply Z.min_glb; [apply Hall; left|].
      apply IH3; [exact Hm|]. intros x Hx. apply Hall. right. exact Hx.
Qed.

Lemma least_victim k1 e k2 :
  (forall x, x ∈ k1 -> e.1.2 < x.1.2) -> (forall x, x ∈ k2 -> e.1.2 <= x.1.2) ->
  least (k1 ++ e :: k2) = e.1.2.
Proof.
  intros H1 H2.
  assert (Hall : forall x, x ∈ k1 ++ e :: k2 -> e.1.2 <= x.1.2).
  { intros x Hx. apply elem_of_app in Hx as [Hx|Hx]; [specialize (H1 x Hx); lia|].
    apply elem_of_cons in Hx as [->|Hx]; [lia|auto]. }
  assert (Hin : e ∈ k1 ++ e :: k2) by (apply elem_of_app; right; left).
  destruct (k1 ++ e :: k2) as [|d l]; [apply elem_of_nil in Hin; contradiction|].
  unfold least. destruct (foldr_min_bounds d.1.2 l) as (B1 & B2 & B3).
  apply Z.le_antisymm.
  - apply elem_of_cons in Hin as [->|Hin]; [exact B1|apply B2, Hin].
  - apply B3; [apply Hall; left|]. intros x Hx. apply Hall. right. exact Hx.
Qed.

(** One access on the list of frames, read on the triples. *)
Lemma lfu_step_list pg (ls ls' : list (positive * (Z * Z * bool))) :
  lfu_step pg ls ls' -> ls'.*2 = lfu_update pg ls.*2.
Proof.
  assert (Hpages : forall l : list (positive * (Z * Z * bool)),
            (forall x, x ∈ l -> entry_page x <> pg) ->
            forall y, y ∈ l.*2 -> y.1.1 <> pg).
  { intros l Hl y Hy. apply list_elem_of_fmap in Hy as (x & -> & Hx). apply (Hl x Hx). }
  intros [(l1 & a & e & l2 & -> & He & Hl1 & ->)
         |(Hno & a & _ & [[Hfree ->]|(Hfull & l1 & v & ev & l2 & (-> & Hlt & Hle) & ->)])];
    unfold lfu_update.
  - rewrite !fmap_app, !fmap_cons. cbn [snd].
    rewrite decide_True.
    2:{ apply elem_of_app. right.
        apply elem_of_cons. left. exact (eq_sym He). }
    symmetry. apply touch_app; [apply Hpages, Hl1|exact He].
  - rewrite (decide_False (P := pg ∈ (fun e => e.1.1) <$> ls.*2)).
    2:{ intros H. apply list_elem_of_fmap in H as (y & Hy & Hin). eapply Hpages; eauto. }
    rewrite length_fmap.
    rewrite (decide_False (P := length ls = Z.to_nat NUM_FRAMES))
      by (unfold NUM_FRAMES in *; lia). reflexivity.
  - rewrite (decide_False (P := pg ∈ (fun e => e.1.1) <$> (l1 ++ (v, ev) :: l2).*2)).
    2:{ intros H. apply list_elem_of_fmap in H as (y & Hy & Hin). eapply Hpages; eauto. }
    rewrite length_fmap.
    rewrite (decide_True (P := length (l1 ++ (v, ev) :: l2) = Z.to_nat NUM_FRAMES))
      by (unfold NUM_FRAMES in *; lia).
    rewrite fmap_cons, !fmap_app, fmap_cons. cbn [snd]. f_equal.
    assert (H1 : forall y, y ∈ l1.*2 -> ev.1.2 < y.1.2).
    { intros y Hy. apply list_elem_of_fmap in Hy as (x & -> & Hx). apply (Hlt x Hx). }
    assert (H2 : forall y, y ∈ l2.*2 -> ev.1.2 <= y.1.2).
    { intros y Hy. apply list_elem_of_fmap in Hy as (x & -> & Hx). apply (Hle x Hx). }
    rewrite (least_victim _ _ _ H1 H2). symmetry. apply drop_first_app; [|reflexivity].
    intros y Hy. specialize (H1 y Hy). lia.
Qed.

End FrequencyFacts.

(** *** One access, in each of the three programs *)

Module EngineFacts.
Import DList DListFacts ClockFacts ClockView ClockViewFacts ClockPrintFacts.

Lemma lfu_step_effect pg ls ls' :
  LFU.lfu_step pg ls ls' ->
  load_effect pg (length ls) (length ls') (entry_page <$> ls) (entry_page <$> ls').
Proof.
  intros [(l1 & a & e & l2 & -> & He & _ & ->)
         |(_ & a & _ & [[_ ->]|(Hfull & l1 & v & ev & l2 & (-> & _) & ->)])].
  - split; [|split].
    + intros _. rewrite fmap_app, fmap_cons. apply elem_of_app. right. apply elem_of_cons. left. exact (eq_sym He).
    + rewrite !length_app. cbn [length]. lia.
    + intros _ q. rewrite !fmap_app, !fmap_cons. auto.
  - split; [|split].
    + intros _. left.
    + cbn [length]. lia.
    + intros _ q Hq. right. exact Hq.
  - split; [|split].
    + intros _. left.
    + cbn [length]. rewrite !length_app. cbn [length]. lia.
    + intros Hlt. exfalso. unfold NUM_FRAMES in *. lia.
Qed.

Lemma lru_step_effect pg ls ls' :
  LRU.lru_step pg ls ls' ->
  load_effect pg (length ls) (length ls') (entry_page <$> ls) (entry_page <$> ls').
Proof.
  intros [(l1 & a & e & l2 & -> & He & _ & ->)|(_ & a & _ & ->)].
  - split; [|split].
    + intros _. rewrite fmap_cons. apply elem_of_cons. left. exact (eq_sym He).
    + cbn [length]. rewrite !length_app. cbn [length]. lia.
    + intros _ q. rewrite fmap_cons, !fmap_app, fmap_cons. set_solver.
  - destruct (decide (Z.of_nat (length ls) = NUM_FRAMES)) as [Hfull|Hfree].
    + split; [|split].
      * intros _. left.
      * cbn [length]. destruct ls as [|x ls _] using rev_ind; [discriminate|].
        rewrite removelast_last, length_app. cbn [length]. lia.
      * intros Hlt. exfalso. unfold NUM_FRAMES in *. lia.
    + split; [|split].
      * intros _. left.
      * cbn [length]. lia.
      * intros _ q Hq. right. exact Hq.
Qed.

Lemma clock_resident_in fl i f :
  Clock.frames fl !! i = Some f -> Clock.valid f = true ->
  Clock.page f ∈ Clock.resident_pages fl.
Proof.
  intros Hi Hv. unfold Clock.resident_pages. apply list_elem_of_fmap.
  exists f. split; [reflexivity|]. apply list_elem_of_filter. split; [exact Hv|].
  eapply list_elem_of_lookup_2; eauto.
Qed.

Lemma clock_load_effect fuel fl pg fl' :
  Clock.reachable fl -> Clock.loadPage fuel fl pg = Ret fl' ->
  load_effect pg (Clock.occupied fl) (Clock.occupied fl')
    (Clock.resident_pages fl) (Clock.resident_pages fl').
Proof.
  intros Hr Hrun. destruct (clock_reachable_Inv fl Hr) as (Hsh & Hd & Hn).
  destruct (reachable_fills fl Hr) as (occ & emp & Hfr & Ho & He & Hh).
  destruct (fills_counts fl occ emp Hfr Ho He) as [Hocc Hres].
  destruct (clock_loadPage_cases _ _ _ _ Hsh Hrun) as [(j & f & Hj & Hp & ->)|[Hno Hs]].
  - (* a hit: only a reference bit is written *)
    assert (Hsame : Clock.resident_pages
                      (Clock.mkFrameList (Clock.numFrames fl)
                         (<[j := Clock.with_reference true f]> (Clock.frames fl))
                         (Clock.clockHand fl)) = Clock.resident_pages fl).
    { unfold Clock.resident_pages. cbn [Clock.frames].
      apply fmap_filter_insert_same with (x := f); [exact Hj|reflexivity|reflexivity]. }
    assert (Hsameo : Clock.occupied
                      (Clock.mkFrameList (Clock.numFrames fl)
                         (<[j := Clock.with_reference true f]> (Clock.frames fl))
                         (Clock.clockHand fl)) = Clock.occupied fl).
    { apply (f_equal length) in Hsame. unfold Clock.resident_pages in Hsame.
      rewrite !length_fmap in Hsame. exact Hsame. }
    rewrite Hsame, Hsameo. split; [|split; [lia|auto]].
    intros Hne. rewrite <- Hp. apply (clock_resident_in fl j f Hj).
    destruct (Clock.valid f) eqn:Hv; [reflexivity|exfalso].
    rewrite Hfr in Hj. apply lookup_app_Some in Hj as [Hj|[_ Hj]].
    + rewrite Forall_forall in Ho. rewrite Ho in Hv; [discriminate|].
      eapply list_elem_of_lookup_2; eauto.
    + rewrite Forall_forall in He. destruct (He f) as [_ Hm]; [|congruence].
      eapply list_elem_of_lookup_2; eauto.
  - destruct emp as [|e emp].
    + (* full: a slot is claimed, the others stay occupied *)
      rewrite app_nil_r in Hfr.
      destruct (scan_claims _ _ _ _ Hsh Hs) as ((Hlen' & _) & _ & k & Hk & Hrest).
      assert (Hall : Forall (fun f => Clock.valid f = true) (Clock.frames fl')).
      { apply Forall_lookup. intros i f' Hi.
        destruct (decide (i = k)) as [->|Hne];
          [replace f' with (Clock.mkFrame pg true true) by congruence; reflexivity|].
        destruct (lookup_lt_is_Some_2 (Clock.frames fl) i) as [g Hg].
        { apply lookup_lt_Some in Hi. destruct Hsh as [Hlen _]. lia. }
        destruct (Hrest i g Hne Hg) as (f'' & Hf'' & _ & Hv).
        replace f' with f'' by congruence. rewrite Hv.
        rewrite Hfr in Hg. rewrite Forall_forall in Ho.
        apply Ho. eapply list_elem_of_lookup_2; eauto. }
      assert (Hocc' : Clock.occupied fl' = length (Clock.frames fl')).
      { unfold Clock.occupied. rewrite filter_all; [reflexivity|].
        apply Forall_forall. exact Hall. }
      destruct Hsh as [Hlen _]. rewrite Hfr in Hlen.
      split; [|split].
      * intros _. apply (clock_resident_in fl' k _ Hk). reflexivity.
      * rewrite Hocc', Hocc. lia.
      * intros Hlt. exfalso. lia.
    + (* a free slot is taken *)
      specialize (Hh ltac:(discriminate)).
      apply Forall_cons in He as [[Hv _] He].
      destruct fuel as [|n]; [discriminate|].
      rewrite (scan_free_slot n fl pg occ e emp Hsh Hfr Hv Hh) in Hs.
      injection Hs as <-.
      destruct (fills_counts
                  (Clock.mkFrameList (Clock.numFrames fl)
                     (occ ++ Clock.mkFrame pg true true :: emp)
                     (Z.rem (wrap (Z.of_nat (length occ) + 1)) NUM_FRAMES))
                  (occ ++ [Clock.mkFrame pg true true]) emp) as [Hocc' Hres'].
      { cbn [Clock.frames]. rewrite <- app_assoc. reflexivity. }
      { apply Forall_app. split; [exact Ho|repeat constructor]. }
      { exact He. }
      rewrite Hocc', Hres', Hocc, Hres, length_app, fmap_app. cbn [length].
      split; [|split].
      * intros _. apply elem_of_app. right. left.
      * lia.
      * intros _ q Hq. apply elem_of_app. left. exact Hq.
Qed.

Lemma engine_load_effect fuel pg e e' :
  engine_reachable e -> engine_loadPage fuel pg e = Ret e' ->
  load_effect pg (engine_occupied e) (engine_occupied e')
    (engine_resident_pages e) (engine_resident_pages e').
Proof.
  destruct e as [s|s|fl]; cbn [engine_reachable engine_loadPage]; intros Hr Hrun.
  - destruct (LFUFacts.lfu_reachable_Inv s Hr) as (ls & Hh & Hwf).
    destruct (LFUFacts.lfu_loadPage_step (fuel `max` Z.to_nat NUM_FRAMES) pg s ls Hh Hwf)
      as (s1 & ls' & Hrun1 & Hh' & Hwf' & Hstep); [lia|].
    destruct (LFU.loadPage fuel pg s) as [[[] s']| |] eqn:E; try discriminate.
    injection Hrun as <-.
    apply (LFUFacts.lfu_loadPage_mono fuel (fuel `max` Z.to_nat NUM_FRAMES) pg) in E; [|lia].
    rewrite E in Hrun1. injection Hrun1 as <-.
    cbn [engine_occupied engine_resident_pages snd].
    rewrite (occupied_holds s ls Hh Hwf), (occupied_holds s' ls' Hh' Hwf').
    rewrite (resident_pages_holds s ls Hh Hwf), (resident_pages_holds s' ls' Hh' Hwf').
    apply lfu_step_effect, Hstep.
  - destruct (LRUFacts.lru_reachable_Inv s Hr) as (ls & Hh & Hwf).
    destruct (LRUFacts.lru_loadPage_step (fuel `max` Z.to_nat NUM_FRAMES) pg s ls Hh Hwf)
      as (s1 & ls' & Hrun1 & Hh' & Hwf' & Hstep); [lia|].
    destruct (LRU.loadPage fuel pg s) as [[[] s']| |] eqn:E; try discriminate.
    injection Hrun as <-.
    apply (LRUFacts.lru_loadPage_mono fuel (fuel `max` Z.to_nat NUM_FRAMES) pg) in E; [|lia].
    rewrite E in Hrun1. injection Hrun1 as <-.
    cbn [engine_occupied engine_resident_pages snd].
    rewrite (occupied_holds s ls Hh Hwf), (occupied_holds s' ls' Hh' Hwf').
    rewrite (resident_pages_holds s ls Hh Hwf), (resident_pages_holds s' ls' Hh' Hwf').
    apply lru_step_effect, Hstep.
  - destruct (Clock.loadPage fuel fl pg) as [fl'| |] eqn:E; try discriminate.
    injection Hrun as <-. cbn [engine_occupied engine_resident_pages].
    eapply clock_load_effect; eauto.
Qed.

End EngineFacts.

(** *** Clock: a miss on a full table *)

Module ClockChanceFacts.
Import Clock ClockFacts ClockView ClockViewFacts ClockPrintFacts ClockQueue ClockQueueFacts EngineFacts.

Lemma split_claimable (l : list Frame) :
  Exists (fun f => claimable f = true) l ->
  exists pre c post, l = pre ++ c :: post /\
    Forall (fun f => claimable f = false) pre /\ claimable c = true.
Proof.
  induction l as [|x l IH]; intros Hex; [inversion Hex|].
  destruct (claimable x) eqn:Hx.
  - exists [], x, l. auto.
  - destruct IH as (pre & c & post & -> & Hpre & Hc).
    { inversion Hex; subst; [congruence|assumption]. }
    exists (x :: pre), c, post. auto.
Qed.

Lemma from_hand_perm fl : from_hand fl ≡ₚ frames fl.
Proof.
  unfold from_hand. rewrite Permutation_app_comm. rewrite take_drop. reflexivity.
Qed.

(** A miss on a full table with an unreferenced slot: what the scan
    leaves, in the queue view. *)
Lemma scan_full_table fuel fl pg :
  shaped fl -> (Z.to_nat NUM_FRAMES <= fuel)%nat ->
  Exists (fun f => claimable f = true) (frames fl) ->
  exists pre c post fl',
    from_hand fl = pre ++ c :: post /\
    Forall (fun f => claimable f = false) pre /\ claimable c = true /\
    scan fuel fl pg = Ret fl' /\
    from_hand fl' = post ++ (with_reference false <$> pre) ++ [mkFrame pg true true].
Proof.
  intros Hsh Hfuel Hex. rewrite <- from_hand_perm in Hex.
  destruct (split_claimable _ Hex) as (pre & c & post & Hq & Hpre & Hc).
  destruct (scan_passes pg pre fl (c :: post) Hsh Hq Hpre) as (fl1 & Hsh1 & _ & _ & Hq1 & Hrun).
  cbn [app] in Hq1.
  assert (Hlen : (length pre < fuel)%nat).
  { pose proof (Permutation_length (from_hand_perm fl)) as Hl.
    rewrite Hq, length_app in Hl. cbn [length] in Hl. destruct Hsh as [Hlen _]. lia. }
  destruct (scan_takes pg fl1 c _ (fuel - length pre - 1) Hsh1 Hq1 Hc) as (fl' & Hs & _ & _ & Hq').
  exists pre, c, post, fl'. repeat (split; [assumption|]). split.
  - replace fuel with (length pre + S (fuel - length pre - 1))%nat by lia.
    rewrite Hrun. exact Hs.
  - rewrite Hq', <- app_assoc. reflexivity.
Qed.

End ClockChanceFacts.

(** *** LRU: the page that leaves *)

Module RecencyOrder.
Import DList DListFacts LRU LRUFacts Recency RecencyFacts.

(** The page kept last by [remove_dups] was accessed for the last time
    before the last access of every page kept after it. *)
Lemma remove_dups_split (l : list Z) : forall A v B,
  remove_dups l = A ++ v :: B ->
  exists before after, l = before ++ v :: after /\ (v ∉ after) /\
    forall q, q ∈ B -> q ∈ after.
Proof.
  induction l as [|x l IH]; intros A v B Heq.
  - destruct A; discriminate.
  - cbn [remove_dups] in Heq. unfold decide_rel in Heq.
    destruct (list_elem_of_dec x l) as [Hin|Hnin].
    + destruct (IH A v B Heq) as (before & after & -> & Hv & HB).
      exists (x :: before), after. auto.
    + destruct A as [|y A]; cbn [app] in Heq; injection Heq as -> Heq.
      * exists [], l. split; [reflexivity|]. split; [exact Hnin|].
        intros q Hq. rewrite <- Heq in Hq. exact (proj1 (elem_of_remove_dups l q) Hq).
      * destruct (IH A v B Heq) as (before & after & -> & Hv & HB).
        exists (y :: before), after. auto.
Qed.

Lemma most_recent_last (pgs : list Z) kept v :
  most_recent pgs = kept ++ [v] ->
  exists before after, pgs = before ++ v :: after /\ (v ∉ after) /\
    forall q, q ∈ kept -> q ∈ after.
Proof.
  unfold most_recent. intros Hm.
  set (D := reverse (remove_dups pgs)) in *.
  assert (HD : remove_dups pgs = reverse (drop (Z.to_nat NUM_FRAMES) D) ++ v :: reverse kept).
  { rewrite <- (reverse_involutive (remove_dups pgs)). fold D.
    rewrite <- (take_drop (Z.to_nat NUM_FRAMES) D) at 1. rewrite Hm.
    rewrite !reverse_app, reverse_singleton. reflexivity. }
  destruct (remove_dups_split pgs _ _ _ HD) as (before & after & Hp & Hv & HB).
  exists before, after. split; [exact Hp|]. split; [exact Hv|].
  intros q Hq. apply HB, elem_of_reverse, Hq.
Qed.

(** A miss of the LRU program on a full list, on the pages. *)
Lemma lru_miss_full fuel pg (s : state) :
  reachable s -> pg ∉ resident_pages s -> occupied s = Z.to_nat NUM_FRAMES ->
  (Z.to_nat NUM_FRAMES <= fuel)%nat ->
  exists s' kept v,
    loadPage fuel pg s = Ret (tt, s') /\
    resident_pages s = kept ++ [v] /\
    resident_pages s' = pg :: kept /\
    (v ∉ resident_pages s').
Proof.
  intros Hr Hmiss Hfull Hfuel.
  destruct (lru_reachable_Inv s Hr) as (ls & Hh & Hwf).
  destruct (lru_loadPage_step fuel pg s ls Hh Hwf Hfuel) as (s' & ls' & Hrun & _).
  pose proof (lru_loadPage_pages fuel pg s s' Hr Hrun) as Hres.
  pose proof (Inv_resident_pages s (lru_reachable_Inv s Hr)) as Hnd.
  assert (Hlen : length (resident_pages s) = Z.to_nat NUM_FRAMES).
  { rewrite <- Hfull. unfold resident_pages, occupied. apply length_fmap. }
  unfold lru_update in Hres. rewrite decide_False in Hres by exact Hmiss.
  rewrite decide_True in Hres by exact Hlen.
  destruct (resident_pages s) as [|x l _] using rev_ind; [discriminate|].
  rewrite removelast_last in Hres.
  exists s', l, x. split; [exact Hrun|]. split; [reflexivity|]. split; [exact Hres|].
  rewrite Hres. apply NoDup_app in Hnd as (_ & Hdis & _).
  intros Hin. apply elem_of_cons in Hin as [->|Hin].
  - apply Hmiss, elem_of_app. right. left.
  - apply (Hdis x Hin). left.
Qed.

End RecencyOrder.

(** * The claims *)

Import DList DListFacts ClockFacts.
Local Set Warnings "-clear-no-such-hyp".

(** The states named in the claims' scenarios are reachable. *)
Lemma lfu_after_reachable pgs :
  (exists s, LFU.loadPages 4 pgs createFrameList = Ret (tt, s)) ->
  LFU.reachable (lfu_after pgs).
Proof.
  intros [s Hs]. unfold lfu_after. rewrite Hs.
  eapply LFUFacts.lfu_reachable_loadPages; [apply LFU.reach_init|exact Hs].
Qed.

Lemma lru_after_reachable pgs :
  (exists s, LRU.loadPages 4 pgs createFrameList = Ret (tt, s)) ->
  LRU.reachable (lru_after pgs).
Proof.
  intros [s Hs]. unfold lru_after. rewrite Hs.
  eapply LRUFacts.lru_reachable_loadPages; [apply LRU.reach_init|exact Hs].
Qed.

Lemma clock_after_reachable pgs :
  (exists fl, Clock.loadPages 8 Clock.createFrameList pgs = Ret fl) ->
  Clock.reachable (clock_after pgs).
Proof.
  intros [s Hs]. unfold clock_after. rewrite Hs.
  eapply clock_reachable_loadPages; [apply Clock.reach_init|exact Hs].
Qed.

(** From a reachable state every [loadPage] returns, within a budget of
    [2 * NUM_FRAMES] iterations for each of its loops, and the state it
    leaves is reachable. *)
Lemma engine_loadPage_returns (e : engine) (pg : Z) (fuel : nat) :
  engine_reachable e -> (Z.to_nat (2 * NUM_FRAMES) <= fuel)%nat ->
  exists e', engine_loadPage fuel pg e = Ret e' /\ engine_reachable e'.
Proof.
  destruct e as [s|s|fl]; cbn [engine_reachable engine_loadPage]; intros Hr Hfuel.
  - destruct (LFUFacts.lfu_reachable_Inv s Hr) as (ls & Hh & Hwf).
    destruct (LFUFacts.lfu_loadPage_step fuel pg s ls Hh Hwf)
      as (s' & ls' & Hrun & _); [unfold NUM_FRAMES in *; lia|].
    exists (LFU_engine s'). rewrite Hrun. split; [reflexivity|].
    exact (LFU.reach_load s fuel pg s' Hr Hrun).
  - destruct (LRUFacts.lru_reachable_Inv s Hr) as (ls & Hh & Hwf).
    destruct (LRUFacts.lru_loadPage_step fuel pg s ls Hh Hwf)
      as (s' & ls' & Hrun & _); [unfold NUM_FRAMES in *; lia|].
    exists (LRU_engine s'). rewrite Hrun. split; [reflexivity|].
    exact (LRU.reach_load s fuel pg s' Hr Hrun).
  - destruct (clock_loadPage_returns fuel fl pg (clock_reachable_Inv fl Hr)) as [fl' Hrun];
      [unfold NUM_FRAMES in *; lia|].
    exists (Clock_engine fl'). rewrite Hrun. split; [reflexivity|].
    exact (Clock.reach_load fl fuel pg fl' Hr Hrun).
Qed.

Lemma engine_occupied_le (e : engine) :
  engine_reachable e -> (engine_occupied e <= Z.to_nat NUM_FRAMES)%nat.
Proof.
  destruct e as [s|s|fl]; cbn [engine_reachable engine_occupied]; intros Hr.
  - apply Inv_occupied, LFUFacts.lfu_reachable_Inv, Hr.
  - apply Inv_occupied, LRUFacts.lru_reachable_Inv, Hr.
  - apply clock_occupied_le, clock_reachable_Inv, Hr.
Qed.

(** C1 (capacity invariant).  In each of the three programs, whatever
    pages have been loaded since the frame table was created, the number
    of occupied frames (frames with [valid = true], on the list or in the
    table) is at most [NUM_FRAMES]; and a further [loadPage] of any page
    returns and leaves a state of which the same holds. *)
Theorem C1_capacity (e : engine) :
  engine_reachable e ->
  (engine_occupied e <= Z.to_nat NUM_FRAMES)%nat /\
  forall pg fuel, (Z.to_nat (2 * NUM_FRAMES) <= fuel)%nat ->
    exists e', engine_loadPage fuel pg e = Ret e' /\
      (engine_occupied e' <= Z.to_nat NUM_FRAMES)%nat.
Proof.
  intros Hr. split; [apply engine_occupied_le, Hr|].
  intros pg fuel Hfuel.
  destruct (engine_loadPage_returns e pg fuel Hr Hfuel) as (e' & Hrun & Hr').
  exists e'. split; [exact Hrun|]. apply engine_occupied_le, Hr'.
Qed.

(** The Clock table after 1,2,3,4,5: four occupied slots. *)
Lemma C1_capacity_witness :
  (engine_occupied (Clock_engine (clock_after [1; 2; 3; 4; 5]%Z)) <= Z.to_nat NUM_FRAMES)%nat /\
  forall pg fuel, (Z.to_nat (2 * NUM_FRAMES) <= fuel)%nat ->
    exists e', engine_loadPage fuel pg (Clock_engine (clock_after [1; 2; 3; 4; 5]%Z)) = Ret e' /\
      (engine_occupied e' <= Z.to_nat NUM_FRAMES)%nat.
Proof.
  apply C1_capacity.
  apply clock_after_reachable. eexists. vm_compute. reflexivity.
Defined.

(** C2 (residency uniqueness).  In each of the three programs, whatever
    pages have been loaded since the frame table was created, no page
    identifier is held by two occupied frames: the pages of the occupied
    frames, listed in the order the program prints them, are pairwise
    distinct. *)
Theorem C2_residency_unique (e : engine) :
  engine_reachable e -> NoDup (engine_resident_pages e).
Proof.
  destruct e as [s|s|fl]; cbn [engine_reachable engine_resident_pages]; intros Hr.
  - apply Inv_resident_pages, LFUFacts.lfu_reachable_Inv, Hr.
  - apply Inv_resident_pages, LRUFacts.lru_reachable_Inv, Hr.
  - apply clock_resident_pages_NoDup, clock_reachable_Inv, Hr.
Qed.

(** The LFU list after the ten accesses of its [main]. *)
Lemma C2_residency_unique_witness :
  NoDup (engine_resident_pages (LFU_engine (lfu_after [1; 2; 3; 4; 5; 1; 2; 1; 3; 4]))).
Proof.
  apply C2_residency_unique.
  apply lfu_after_reachable. eexists. vm_compute. reflexivity.
Defined.

(** C3 (LFU victim).  When the LFU list is full and the page is not
    resident, [loadPage] removes the first frame, from the head, whose
    frequency is least: every frame before it has a strictly greater
    frequency, every frame after it one that is not smaller; the new page
    enters at the head with frequency 1.  On the access sequence
    1,2,3,4,5,1,2,1,3,4 the miss on 5 removes page 4, the last miss on 4
    removes page 5, and the list ends as 4 (frequency 1), 3 (2), 2 (2),
    1 (3). *)
Theorem C3_lfu_victim :
  (forall (s : LFU.state) pg fuel,
     LFU.reachable s -> length (resident s) = Z.to_nat NUM_FRAMES ->
     pg ∉ resident_pages s -> (Z.to_nat NUM_FRAMES <= fuel)%nat ->
     exists s' l1 ev l2,
       LFU.loadPage fuel pg s = Ret (tt, s') /\
       resident s = l1 ++ ev :: l2 /\
       (forall x, x ∈ l1 -> ev.1.2 < x.1.2) /\
       (forall x, x ∈ l2 -> ev.1.2 <= x.1.2) /\
       resident s' = (pg, 1, true) :: l1 ++ l2) /\
  (exists s4 s5 s9 s10,
     LFU.loadPages 4 [1; 2; 3; 4] createFrameList = Ret (tt, s4) /\
     resident s4 = [(4, 1, true); (3, 1, true); (2, 1, true); (1, 1, true)] /\
     LFU.loadPage 4 5 s4 = Ret (tt, s5) /\
     resident s5 = [(5, 1, true); (3, 1, true); (2, 1, true); (1, 1, true)] /\
     LFU.loadPages 4 [1; 2; 1; 3] s5 = Ret (tt, s9) /\
     resident s9 = [(5, 1, true); (3, 2, true); (2, 2, true); (1, 3, true)] /\
     LFU.loadPage 4 4 s9 = Ret (tt, s10) /\
     resident s10 = [(4, 1, true); (3, 2, true); (2, 2, true); (1, 3, true)]).
Proof.
  split.
  - intros s pg fuel Hr Hfull Hmiss Hfuel.
    destruct (LFUFacts.lfu_miss fuel pg s Hr Hmiss Hfuel)
      as (s' & ls & a & Hrun & Hh & Hwf & [[Hfree Hh']|(_ & l1 & v & ev & l2 & Hv & Hh')]).
    + exfalso. rewrite (resident_holds s ls Hh), length_fmap in Hfull.
      unfold NUM_FRAMES in *. lia.
    + destruct Hv as (-> & H1 & H2).
      exists s', l1.*2, ev, l2.*2. split; [exact Hrun|].
      rewrite (resident_holds _ _ Hh), (resident_holds _ _ Hh').
      rewrite fmap_cons, !fmap_app, fmap_cons. cbn [snd].
      split; [reflexivity|]. split; [|split; [|reflexivity]].
      * intros x Hx. apply list_elem_of_fmap in Hx as (y & -> & Hy). exact (H1 y Hy).
      * intros x Hx. apply list_elem_of_fmap in Hx as (y & -> & Hy). exact (H2 y Hy).
  - exists (lfu_after [1; 2; 3; 4]), (lfu_after [1; 2; 3; 4; 5]),
      (lfu_after [1; 2; 3; 4; 5; 1; 2; 1; 3]), (lfu_after [1; 2; 3; 4; 5; 1; 2; 1; 3; 4]).
    repeat (split; [vm_compute; reflexivity|]). vm_compute; reflexivity.
Qed.

(** The miss on 5 after 1,2,3,4. *)
Lemma C3_lfu_victim_witness :
  exists s' l1 ev l2,
    LFU.loadPage 4 5 (lfu_after [1; 2; 3; 4]) = Ret (tt, s') /\
    resident (lfu_after [1; 2; 3; 4]) = l1 ++ ev :: l2 /\
    (forall x, x ∈ l1 -> ev.1.2 < x.1.2) /\
    (forall x, x ∈ l2 -> ev.1.2 <= x.1.2) /\
    resident s' = (5, 1, true) :: l1 ++ l2.
Proof.
  apply (proj1 C3_lfu_victim (lfu_after [1; 2; 3; 4]) 5 4%nat).
  - apply lfu_after_reachable. eexists. vm_compute. reflexivity.
  - vm_compute. reflexivity.
  - apply (bool_decide_unpack _). vm_compute. exact I.
  - vm_compute. lia.
Defined.

(** C4 (LRU victim).  On a miss with a full list the LRU [loadPage]
    removes the least recently used page.  Whatever accesses [pgs] were
    made so far from the empty list, the page [v] that leaves is the last
    of the resident pages, its last access comes before an access to each
    of the pages that stay, the new page is first and the pages that stay
    follow in their order.  That page is the one in the frame at the tail:
    from any reachable state a miss puts the new page at the head, and
    when the list is full the last frame leaves and the other frames keep
    their order.  Loading 1,2,3,4 gives the list 4,3,2,1 from head to
    tail, and loading 5 then removes page 1 and gives 5,4,3,2. *)
Theorem C4_lru_victim :
  (forall (pgs : list Z) (s : LRU.state) (pg : Z) (fuel fuel' : nat),
     LRU.loadPages fuel pgs createFrameList = Ret (tt, s) ->
     pg ∉ resident_pages s -> occupied s = Z.to_nat NUM_FRAMES ->
     (Z.to_nat NUM_FRAMES <= fuel')%nat ->
     exists s' kept v before after,
       LRU.loadPage fuel' pg s = Ret (tt, s') /\
       resident_pages s = kept ++ [v] /\
       resident_pages s' = pg :: kept /\
       (v ∉ resident_pages s') /\
       pgs = before ++ v :: after /\ (v ∉ after) /\
       (forall q, q ∈ kept -> q ∈ after)) /\
  (forall (s : LRU.state) pg fuel,
     LRU.reachable s -> pg ∉ resident_pages s -> (Z.to_nat NUM_FRAMES <= fuel)%nat ->
     exists s',
       LRU.loadPage fuel pg s = Ret (tt, s') /\
       ((length (resident s) = Z.to_nat NUM_FRAMES /\
         exists l t, resident s = l ++ [t] /\ resident s' = (pg, tt, true) :: l) \/
        (length (resident s) <> Z.to_nat NUM_FRAMES /\
         resident s' = (pg, tt, true) :: resident s))) /\
  (exists s4 s5,
     LRU.loadPages 4 [1; 2; 3; 4] createFrameList = Ret (tt, s4) /\
     resident s4 = [(4, tt, true); (3, tt, true); (2, tt, true); (1, tt, true)] /\
     LRU.loadPage 4 5 s4 = Ret (tt, s5) /\
     resident s5 = [(5, tt, true); (4, tt, true); (3, tt, true); (2, tt, true)]).
Proof.
  split; [|split].
  - intros pgs s pg fuel fuel' Hrun Hmiss Hfull Hfuel.
    assert (Hr : LRU.reachable s).
    { eapply LRUFacts.lru_reachable_loadPages; [apply LRU.reach_init|exact Hrun]. }
    assert (Hres : resident_pages s = Recency.most_recent pgs).
    { apply (RecencyFacts.lru_loadPages_pages fuel pgs createFrameList s []);
        [apply LRU.reach_init|reflexivity|exact Hrun]. }
    destruct (RecencyOrder.lru_miss_full fuel' pg s Hr Hmiss Hfull Hfuel)
      as (s' & kept & v & Hload & Hs & Hs' & Hv).
    rewrite Hs in Hres.
    destruct (RecencyOrder.most_recent_last pgs kept v (eq_sym Hres))
      as (before & after & Hp & Hva & Hk).
    exists s', kept, v, before, after. auto 10.
  - intros s pg fuel Hr Hmiss Hfuel.
    destruct (LRUFacts.lru_miss fuel pg s Hr Hmiss Hfuel) as (s' & ls & a & Hrun & Hh & Hh').
    exists s'. split; [exact Hrun|].
    rewrite (resident_holds _ _ Hh), (resident_holds _ _ Hh'), length_fmap.
    destruct (decide (Z.of_nat (length ls) = NUM_FRAMES)) as [Hfull|Hfree].
    + left. split; [unfold NUM_FRAMES in *; lia|].
      destruct ls as [|[t et] l _] using rev_ind; [discriminate|].
      exists l.*2, et. rewrite removelast_last, fmap_app. split; reflexivity.
    + right. split; [unfold NUM_FRAMES in *; lia|reflexivity].
  - exists (lru_after [1; 2; 3; 4]), (lru_after [1; 2; 3; 4; 5]).
    repeat (split; [vm_compute; reflexivity|]). vm_compute; reflexivity.
Qed.

(** After 1,2,3,4,1 the miss on 5 removes page 2, not page 1. *)
Lemma C4_lru_victim_witness :
  exists s' kept v before after,
    LRU.loadPage 4 5 (lru_after [1; 2; 3; 4; 1]) = Ret (tt, s') /\
    resident_pages (lru_after [1; 2; 3; 4; 1]) = kept ++ [v] /\
    resident_pages s' = 5 :: kept /\
    (v ∉ resident_pages s') /\
    [1; 2; 3; 4; 1] = before ++ v :: after /\ (v ∉ after) /\
    (forall q, q ∈ kept -> q ∈ after).
Proof.
  apply (proj1 C4_lru_victim [1; 2; 3; 4; 1] (lru_after [1; 2; 3; 4; 1]) 5 4%nat 4%nat).
  - vm_compute. reflexivity.
  - apply (bool_decide_unpack _). vm_compute. exact I.
  - vm_compute. reflexivity.
  - vm_compute. lia.
Defined.

(** C5 (Clock scenario).  From the fresh table, loading 1,2,3,4 fills the
    four slots in index order, every reference bit set, the hand back at
    0.  Loading 5 then takes five turns of the scan and no fewer (four
    that clear a reference bit, one that claims slot 0) and leaves slot 0
    with page 5 and its bit set, slots 1 to 3 with pages 2, 3, 4 and their
    bits clear, and the hand at 1; [numFrames] is 0 throughout. *)
Theorem C5_clock_scenario :
  Clock.loadPages 8 Clock.createFrameList [1; 2; 3; 4] =
    Ret (Clock.mkFrameList 0
           [Clock.mkFrame 1 true true; Clock.mkFrame 2 true true;
            Clock.mkFrame 3 true true; Clock.mkFrame 4 true true] 0) /\
  Clock.loadPage 4 (clock_after [1; 2; 3; 4]) 5 = OutOfFuel /\
  Clock.loadPage 5 (clock_after [1; 2; 3; 4]) 5 =
    Ret (Clock.mkFrameList 0
           [Clock.mkFrame 5 true true; Clock.mkFrame 2 true false;
            Clock.mkFrame 3 true false; Clock.mkFrame 4 true false] 1) /\
  Clock.loadPages 8 Clock.createFrameList [1; 2; 3; 4; 5] =
    Ret (Clock.mkFrameList 0
           [Clock.mkFrame 5 true true; Clock.mkFrame 2 true false;
            Clock.mkFrame 3 true false; Clock.mkFrame 4 true false] 1).
Proof. repeat (split; [vm_compute; reflexivity|]). vm_compute; reflexivity. Qed.

(** C6 (Clock termination bound).  From a reachable state, a [loadPage]
    that misses ([findFrame] returns -1) leaves its scan loop within
    [2 * NUM_FRAMES] turns, having claimed a slot for the page; a larger
    budget gives the same state. *)
Theorem C6_clock_scan_bound (fl : Clock.FrameList) (pg : Z) :
  Clock.reachable fl -> Clock.findFrame fl pg = Ret (-1) ->
  exists fl',
    Clock.scan (Z.to_nat (2 * NUM_FRAMES)) fl pg = Ret fl' /\
    Clock.claimed fl fl' pg /\
    forall fuel, (Z.to_nat (2 * NUM_FRAMES) <= fuel)%nat ->
      Clock.loadPage fuel fl pg = Ret fl'.
Proof.
  intros Hr Hmiss. pose proof (clock_reachable_Inv fl Hr) as (Hsh & _ & _).
  destruct (scan_stops (Z.to_nat (2 * NUM_FRAMES)) fl pg Hsh) as [fl' Hs].
  { pose proof (marked_le (Clock.frames fl)). destruct Hsh as [Hlen _].
    unfold NUM_FRAMES in *. lia. }
  exists fl'. split; [exact Hs|]. split.
  - eapply scan_claims; eauto.
  - intros fuel Hfuel. unfold Clock.loadPage. rewrite Hmiss. cbn.
    eapply scan_mono; eauto.
Qed.

(** The miss on 5 with the four slots occupied and referenced. *)
Lemma C6_clock_scan_bound_witness :
  exists fl',
    Clock.scan (Z.to_nat (2 * NUM_FRAMES)) (clock_after [1; 2; 3; 4]) 5 = Ret fl' /\
    Clock.claimed (clock_after [1; 2; 3; 4]) fl' 5 /\
    forall fuel, (Z.to_nat (2 * NUM_FRAMES) <= fuel)%nat ->
      Clock.loadPage fuel (clock_after [1; 2; 3; 4]) 5 = Ret fl'.
Proof.
  apply C6_clock_scan_bound.
  - apply clock_after_reachable. eexists. vm_compute. reflexivity.
  - vm_compute. reflexivity.
Defined.

(** C7 (LRU touch).  From a reachable LRU state in which the page is
    resident, loading it once or any number of times in a row gives one
    and the same state: the frame of the page is at the head, the other
    frames follow in the order they had, the resident pages and the number
    of occupied frames are what they were; and loading the page once more
    from that state changes nothing at all. *)
Theorem C7_lru_touch_idempotent (s : LRU.state) (pg : Z) (fuel n : nat) :
  LRU.reachable s -> pg ∈ resident_pages s ->
  (Z.to_nat NUM_FRAMES <= fuel)%nat -> (1 <= n)%nat ->
  exists s' l1 l2,
    LRU.loadPage fuel pg s = Ret (tt, s') /\
    LRU.loadPages fuel (replicate n pg) s = Ret (tt, s') /\
    LRU.loadPage fuel pg s' = Ret (tt, s') /\
    resident s = l1 ++ (pg, tt, true) :: l2 /\
    resident s' = (pg, tt, true) :: l1 ++ l2 /\
    occupied s' = occupied s /\
    resident_pages s' ≡ₚ resident_pages s.
Proof.
  intros Hr Hin Hfuel Hn.
  destruct (LRUFacts.lru_hit fuel pg s Hr Hin Hfuel)
    as (s' & a & l1 & l2 & Hrun & Hh & Hh' & Hwf').
  assert (Hagain : LRU.loadPage fuel pg s' = Ret (tt, s')).
  { apply (LRUFacts.lru_head_again fuel pg s' a (pg, tt, true) (l1 ++ l2) Hh');
      [reflexivity|unfold NUM_FRAMES in *; lia]. }
  assert (Hwf : well_formed (l1 ++ (a, (pg, tt, true)) :: l2)).
  { destruct Hwf' as (Hlen & Hnd & Hval). split; [|split].
    - revert Hlen. cbn. rewrite !length_app. cbn. lia.
    - revert Hnd. rewrite fmap_cons, !fmap_app, fmap_cons.
      intros H. rewrite <- Permutation_middle. exact H.
    - intros x Hx. apply Hval. set_solver. }
  exists s', l1.*2, l2.*2. split; [exact Hrun|]. split; [|split; [exact Hagain|]].
  - destruct n as [|n]; [lia|]. cbn [replicate LRU.loadPages]. unfold bind.
    rewrite Hrun. apply LRUFacts.lru_again_many, Hagain.
  - rewrite (resident_holds _ _ Hh), (resident_holds _ _ Hh').
    rewrite (occupied_holds _ _ Hh Hwf), (occupied_holds _ _ Hh' Hwf').
    rewrite (resident_pages_holds _ _ Hh Hwf), (resident_pages_holds _ _ Hh' Hwf').
    rewrite !fmap_cons, !fmap_app, !fmap_cons. cbn [snd length].
    split; [reflexivity|]. split; [reflexivity|]. split.
    + rewrite !length_app. cbn [length]. lia.
    + apply Permutation_middle.
Qed.

(** Page 2, third from the head after 1,2,3,4, loaded three times. *)
Lemma C7_lru_touch_idempotent_witness :
  exists s' l1 l2,
    LRU.loadPage 4 2 (lru_after [1; 2; 3; 4]) = Ret (tt, s') /\
    LRU.loadPages 4 (replicate 3 2) (lru_after [1; 2; 3; 4]) = Ret (tt, s') /\
    LRU.loadPage 4 2 s' = Ret (tt, s') /\
    resident (lru_after [1; 2; 3; 4]) = l1 ++ (2, tt, true) :: l2 /\
    resident s' = (2, tt, true) :: l1 ++ l2 /\
    occupied s' = occupied (lru_after [1; 2; 3; 4]) /\
    resident_pages s' ≡ₚ resident_pages (lru_after [1; 2; 3; 4]).
Proof.
  apply (C7_lru_touch_idempotent (lru_after [1; 2; 3; 4]) 2 4 3).
  - apply lru_after_reachable. eexists. vm_compute. reflexivity.
  - apply (bool_decide_unpack _). vm_compute. exact I.
  - vm_compute. lia.
  - lia.
Defined.

(** C8 (a hit changes nothing but the touched frame's policy field).
    In each of the three programs, from a reachable state, [loadPage] of a
    resident page returns; afterwards the occupied frames are as many and
    hold the same pages, no frame has been allocated or freed, and the
    only change is the touched frame's frequency (LFU: one more), place in
    the list (LRU: the head, the others keeping their order) or reference
    bit (Clock: set, hand and every other slot untouched). *)
Theorem C8_hit_frame (e : engine) (pg : Z) (fuel : nat) :
  engine_reachable e -> pg ∈ engine_resident_pages e ->
  (Z.to_nat NUM_FRAMES <= fuel)%nat ->
  exists e',
    engine_loadPage fuel pg e = Ret e' /\
    engine_occupied e' = engine_occupied e /\
    engine_resident_pages e' ≡ₚ engine_resident_pages e /\
    hit_effect pg e e'.
Proof.
  destruct e as [s|s|fl];
    cbn [engine_reachable engine_resident_pages engine_loadPage engine_occupied];
    intros Hr Hin Hfuel.
  - destruct (LFUFacts.lfu_hit fuel pg s Hr Hin Hfuel)
      as (s' & a & x & l1 & l2 & Hrun & Hh & Hh' & Hwf').
    assert (Hwf : well_formed (l1 ++ (a, (pg, x, true)) :: l2)).
    { destruct Hwf' as (Hlen & Hnd & Hval). split; [|split].
      - revert Hlen. rewrite !length_app. cbn. lia.
      - revert Hnd. rewrite !fmap_app, !fmap_cons. auto.
      - intros y Hy. apply elem_of_app in Hy as [Hy|Hy]; [apply Hval; set_solver|].
        apply elem_of_cons in Hy as [->|Hy]; [reflexivity|apply Hval; set_solver]. }
    exists (LFU_engine s'). rewrite Hrun.
    cbn [rbind snd hit_effect engine_occupied engine_resident_pages].
    split; [reflexivity|].
    rewrite (resident_holds _ _ Hh), (resident_holds _ _ Hh').
    rewrite (occupied_holds _ _ Hh Hwf), (occupied_holds _ _ Hh' Hwf').
    rewrite (resident_pages_holds _ _ Hh Hwf), (resident_pages_holds _ _ Hh' Hwf').
    split; [rewrite !length_app; reflexivity|].
    split; [rewrite !fmap_app, !fmap_cons; reflexivity|].
    split.
    + apply (holds_same_dom s s' _ _ Hh Hh'). rewrite !fmap_app, !fmap_cons. reflexivity.
    + exists l1.*2, x, l2.*2. rewrite !fmap_app, !fmap_cons. auto.
  - destruct (LRUFacts.lru_hit fuel pg s Hr Hin Hfuel)
      as (s' & a & l1 & l2 & Hrun & Hh & Hh' & Hwf').
    assert (Hwf : well_formed (l1 ++ (a, (pg, tt, true)) :: l2)).
    { destruct Hwf' as (Hlen & Hnd & Hval). split; [|split].
      - revert Hlen. cbn. rewrite !length_app. cbn. lia.
      - revert Hnd. rewrite fmap_cons, !fmap_app, fmap_cons.
        intros H. rewrite <- Permutation_middle. exact H.
      - intros y Hy. apply Hval. set_solver. }
    exists (LRU_engine s'). rewrite Hrun.
    cbn [rbind snd hit_effect engine_occupied engine_resident_pages].
    split; [reflexivity|].
    rewrite (resident_holds _ _ Hh), (resident_holds _ _ Hh').
    rewrite (occupied_holds _ _ Hh Hwf), (occupied_holds _ _ Hh' Hwf').
    rewrite (resident_pages_holds _ _ Hh Hwf), (resident_pages_holds _ _ Hh' Hwf').
    split; [cbn [length]; rewrite !length_app; cbn [length]; lia|].
    split; [rewrite !fmap_cons, !fmap_app, !fmap_cons; apply Permutation_middle|].
    split.
    + apply (holds_same_dom s s' _ _ Hh Hh').
      rewrite !fmap_cons, !fmap_app, !fmap_cons. apply Permutation_middle.
    + exists l1.*2, l2.*2. rewrite !fmap_cons, !fmap_app, !fmap_cons. auto.
  - pose proof (clock_reachable_Inv fl Hr) as HI.
    assert (Hres : Clock.resident fl pg).
    { unfold Clock.resident_pages in Hin.
      apply list_elem_of_fmap in Hin as (f & -> & Hf).
      apply list_elem_of_filter in Hf as [Hv Hf].
      apply list_elem_of_lookup in Hf as [i Hi]. exists i, f. auto. }
    destruct (clock_loadPage_hit fuel fl pg HI Hres) as (i & f & Hi & Hv & Hp & Hrun).
    exists (Clock_engine
              (Clock.mkFrameList (Clock.numFrames fl)
                 (<[i := Clock.with_reference true f]> (Clock.frames fl))
                 (Clock.clockHand fl))).
    rewrite Hrun. cbn [rbind hit_effect engine_occupied engine_resident_pages].
    split; [reflexivity|].
    assert (Hsame : Clock.resident_pages
                      (Clock.mkFrameList (Clock.numFrames fl)
                         (<[i := Clock.with_reference true f]> (Clock.frames fl))
                         (Clock.clockHand fl)) = Clock.resident_pages fl).
    { unfold Clock.resident_pages. cbn [Clock.frames].
      apply fmap_filter_insert_same with (x := f); auto. }
    split; [|split; [rewrite Hsame; reflexivity|]].
    + unfold Clock.occupied.
      rewrite <- (length_fmap Clock.page), <- (length_fmap Clock.page (filter _ (Clock.frames fl))).
      exact (f_equal length Hsame).
    + exists i, f. auto.
Qed.

(** The LFU hit on page 3 after 1,2,3,4. *)
Lemma C8_hit_frame_witness :
  exists e',
    engine_loadPage 4 3 (LFU_engine (lfu_after [1; 2; 3; 4])) = Ret e' /\
    engine_occupied e' = engine_occupied (LFU_engine (lfu_after [1; 2; 3; 4])) /\
    engine_resident_pages e' ≡ₚ engine_resident_pages (LFU_engine (lfu_after [1; 2; 3; 4])) /\
    hit_effect 3 (LFU_engine (lfu_after [1; 2; 3; 4])) e'.
Proof.
  apply (C8_hit_frame (LFU_engine (lfu_after [1; 2; 3; 4])) 3 4).
  - apply lfu_after_reachable. eexists. vm_compute. reflexivity.
  - apply (bool_decide_unpack _). vm_compute. exact I.
  - vm_compute. lia.
Defined.

(** C9, as the programs behave.  No program checks the page identifier
    and [loadPage] has no error to report: from a reachable state,
    [loadPage] of a negative identifier returns as for any other page, and
    the identifier is then resident, in an occupied frame.  For the Clock
    table this is said of the negative identifiers other than -1. *)
Theorem C9_negative_page_loaded (e : engine) (pg : Z) (fuel : nat) :
  engine_reachable e -> pg < 0 -> not_empty_value e pg ->
  (Z.to_nat (2 * NUM_FRAMES) <= fuel)%nat ->
  exists e', engine_loadPage fuel pg e = Ret e' /\ pg ∈ engine_resident_pages e'.
Proof.
  destruct e as [s|s|fl]; cbn [engine_reachable engine_loadPage not_empty_value];
    intros Hr _ Hpg Hfuel.
  - destruct (LFUFacts.lfu_reachable_Inv s Hr) as (ls & Hh & Hwf).
    destruct (LFUFacts.lfu_loadPage_step fuel pg s ls Hh Hwf)
      as (s' & ls' & Hrun & Hh' & Hwf' & Hstep); [unfold NUM_FRAMES in *; lia|].
    exists (LFU_engine s'). rewrite Hrun. split; [reflexivity|].
    cbn [engine_resident_pages snd]. apply (resident_page_entry s' ls' pg Hh' Hwf').
    destruct Hstep as [(l1 & a & e & l2 & -> & He & _ & ->)
                      |(_ & a & _ & [[_ ->]|(_ & l1 & v & ev & l2 & _ & ->)])].
    + exists (a, (e.1.1, wrap (e.1.2 + 1), e.2)). split; [set_solver|exact He].
    + exists (a, (pg, 1, true)). split; [set_solver|reflexivity].
    + exists (a, (pg, 1, true)). split; [set_solver|reflexivity].
  - destruct (LRUFacts.lru_reachable_Inv s Hr) as (ls & Hh & Hwf).
    destruct (LRUFacts.lru_loadPage_step fuel pg s ls Hh Hwf)
      as (s' & ls' & Hrun & Hh' & Hwf' & Hstep); [unfold NUM_FRAMES in *; lia|].
    exists (LRU_engine s'). rewrite Hrun. split; [reflexivity|].
    cbn [engine_resident_pages snd]. apply (resident_page_entry s' ls' pg Hh' Hwf').
    destruct Hstep as [(l1 & a & e & l2 & -> & He & _ & ->)|(_ & a & _ & ->)].
    + exists (a, e). split; [set_solver|exact He].
    + exists (a, (pg, tt, true)). split; [set_solver|reflexivity].
  - pose proof (clock_reachable_Inv fl Hr) as HI.
    destruct (clock_loadPage_returns fuel fl pg HI) as [fl' Hrun];
      [unfold NUM_FRAMES in *; lia|].
    exists (Clock_engine fl'). rewrite Hrun. split; [reflexivity|].
    cbn [engine_resident_pages].
    destruct (EngineFacts.clock_load_effect fuel fl pg fl' Hr Hrun) as (Hin & _). auto.
Qed.

(** Page -7 on the Clock table after 1,2,3,4,5. *)
Lemma C9_negative_page_loaded_witness :
  exists e',
    engine_loadPage 8 (-7) (Clock_engine (clock_after [1; 2; 3; 4; 5])) = Ret e' /\
    -7 ∈ engine_resident_pages e'.
Proof.
  apply (C9_negative_page_loaded (Clock_engine (clock_after [1; 2; 3; 4; 5])) (-7) 8).
  - apply clock_after_reachable. eexists. vm_compute. reflexivity.
  - lia.
  - discriminate.
  - vm_compute. lia.
Defined.

(** C9, as the claim states it, fails.  From the fresh LRU list,
    [loadPage] of -1 returns and the list then holds a frame for page -1;
    from the fresh Clock table, [loadPage] of -1 finds slot 0, whose
    [page] field is -1 because the slot is empty, and sets its reference
    bit.  Neither call leaves the state as it was. *)
Lemma C9_counterexample :
  LRU.reachable createFrameList /\
  (exists s',
     LRU.loadPage 4 (-1) createFrameList = Ret (tt, s') /\
     s' <> createFrameList /\ resident s' = [(-1, tt, true)]) /\
  Clock.reachable Clock.createFrameList /\
  (exists fl',
     Clock.loadPage 8 Clock.createFrameList (-1) = Ret fl' /\
     fl' <> Clock.createFrameList /\
     Clock.frames fl' !! 0%nat = Some (Clock.mkFrame (-1) false true)).
Proof.
  split; [apply LRU.reach_init|]. split.
  - exists (lru_after [-1]). split; [vm_compute; reflexivity|]. split.
    + intros H. apply (f_equal (fun s => numFrames (flist s))) in H.
      vm_compute in H. discriminate.
    + vm_compute. reflexivity.
  - split; [apply Clock.reach_init|].
    eexists. split; [vm_compute; reflexivity|]. split.
    + intros H. discriminate.
    + reflexivity.
Qed.

(** C10 (the Clock counter).  [createFrameList] sets [numFrames] to 0 and
    no [loadPage] writes it: it is 0 in every reachable state, also when
    the four slots are occupied. *)
Theorem C10_clock_numFrames (fl : Clock.FrameList) :
  Clock.reachable fl -> Clock.numFrames fl = 0.
Proof. intros Hr. apply (clock_reachable_Inv fl Hr). Qed.

(** The Clock table after 1,2,3,4,5. *)
Lemma C10_clock_numFrames_witness :
  Clock.occupied (clock_after [1; 2; 3; 4; 5]) = 4%nat /\
  Clock.numFrames (clock_after [1; 2; 3; 4; 5]) = 0.
Proof.
  split; [vm_compute; reflexivity|].
  apply C10_clock_numFrames.
  apply clock_after_reachable. eexists. vm_compute. reflexivity.
Defined.

(** * Further properties of the code *)

(** ** The lists of the LFU and LRU programs *)

Import DList DListFacts DListMore DListAccount DListAccountFacts.

(** X1 (findFrame of the LFU and LRU programs).  On a well linked list,
    and with a budget of at least as many iterations as the list has
    frames, [findFrame] returns without fault and leaves the memory and
    the list structure as they were.  It returns NULL exactly when no
    frame of the list holds the page, and otherwise the address of the
    first frame from [head] whose [page] field is the page. *)
Theorem dlist_findFrame_first_holder {X : Type} (s : state X)
    (ls : list (positive * (Z * X * bool))) (fuel : nat) (pg : Z) :
  linked s ls -> (length ls <= fuel)%nat ->
  exists r, findFrame fuel pg s = Ret (r, s) /\
    match r with
    | None => pg ∉ (entry_page <$> ls)
    | Some a =>
        exists f l1 l2,
          mem s !! a = Some f /\ page f = pg /\
          ls = l1 ++ (a, info f) :: l2 /\ pg ∉ (entry_page <$> l1)
    end.
Proof.
  intros Hl Hfuel. destruct (dlist_findFrame_spec s ls fuel pg Hl Hfuel) as (r & Hrun & Hr).
  exists r. split; [exact Hrun|]. destruct r as [a|].
  - destruct Hr as (l1 & e & l2 & -> & He & Hl1).
    destruct Hl as (_ & Hd & _). apply dlseg_app in Hd as (mt & mh & _ & Hd).
    destruct Hd as (_ & f & Hf & Hi & _). subst e.
    exists f, l1, l2. split; [exact Hf|]. split; [exact He|]. split; [reflexivity|].
    apply (first_with_None pg l1). exact Hl1.
  - apply first_with_None. exact Hr.
Qed.

Lemma dlist_findFrame_first_holder_witness :
  exists r, findFrame 2 7 (lru_after [7; 8]) = Ret (r, lru_after [7; 8]) /\
    match r with
    | None => 7 ∉ (entry_page <$> [(2%positive, (8, tt, true)); (1%positive, (7, tt, true))])
    | Some a =>
        exists f l1 l2,
          mem (lru_after [7; 8]) !! a = Some f /\ page f = 7 /\
          [(2%positive, (8, tt, true)); (1%positive, (7, tt, true))] = l1 ++ (a, info f) :: l2 /\
          7 ∉ (entry_page <$> l1)
    end.
Proof.
  apply (dlist_findFrame_first_holder (lru_after [7; 8])
           [(2%positive, (8, tt, true)); (1%positive, (7, tt, true))] 2 7).
  - split; [|split; [|reflexivity]].
    + vm_compute. repeat constructor; set_solver.
    + vm_compute. repeat (split || eexists).
  - vm_compute. lia.
Defined.

(** X2 (createFrame, insertFrame).  A frame obtained from [createFrame]
    can always be handed to [insertFrame]: the two calls return without
    fault, the frame is at an address that was not in use, it is the new
    first frame of the list with page -1 and [valid = false], the frames
    already on the list follow in their order, and every allocated frame
    is still on the list. *)
Theorem dlist_createFrame_insertFrame {X : Type} (x0 : X) (s : state X)
    (ls : list (positive * (Z * X * bool))) :
  holds s ls -> Z.of_nat (length ls) < INT_MAX ->
  exists a s',
    (do p <- createFrame x0; insertFrame p ;; ret p) s = Ret (Some a, s') /\
    (a ∉ dom (mem s)) /\
    holds s' ((a, (-1, x0, false)) :: ls).
Proof.
  intros [Hl Hdom] Hlen.
  set (a := fresh (dom (mem s))).
  set (f0 := mkFrame (-1) false x0 None None).
  set (s1 := mkState (<[a := f0]> (mem s)) (flist s)).
  assert (Ha : a ∉ dom (mem s)) by apply is_fresh.
  assert (Hals : a ∉ ls.*1).
  { intros Hin. apply Ha. rewrite Hdom. apply elem_of_list_to_set. exact Hin. }
  assert (Hl1 : linked s1 ls).
  { destruct Hl as (Hnd & Hd & Hn). split; [exact Hnd|]. split; [|exact Hn].
    cbn [s1 mem flist]. apply dlseg_insert_other; assumption. }
  destruct (insertFrame_spec s1 ls a f0 Hl1) as ([] & s' & Hrun & Hl' & Hdom' & _); auto.
  { cbn [s1 mem]. apply lookup_insert_eq. }
  exists a, s'. split; [|split; [exact Ha|]].
  - unfold bind at 1. unfold createFrame, malloc. fold a f0 s1.
    unfold bind. rewrite Hrun. reflexivity.
  - split; [exact Hl'|]. rewrite Hdom'. cbn [s1 mem].
    rewrite dom_insert_L, Hdom. cbn [fmap list_fmap fst list_to_set]. reflexivity.
Qed.

Lemma dlist_createFrame_insertFrame_witness :
  exists a s',
    (do p <- createFrame 0; insertFrame p ;; ret p) (lfu_after [7; 8; 7]) = Ret (Some a, s') /\
    (a ∉ dom (mem (lfu_after [7; 8; 7]))) /\
    holds s' ((a, (-1, 0, false)) :: [(2%positive, (8, 1, true)); (1%positive, (7, 2, true))]).
Proof.
  refine (dlist_createFrame_insertFrame 0 (lfu_after [7; 8; 7])
            [(2%positive, (8, 1, true)); (1%positive, (7, 2, true))] _ _).
  - split; [split; [|split; [|reflexivity]]|].
    + vm_compute. repeat constructor; set_solver.
    + vm_compute. repeat (split || eexists).
    + apply (bool_decide_unpack _). vm_compute. exact I.
  - vm_compute. reflexivity.
Defined.

(** X3 (insertFrame, then findFrame).  [insertFrame] relies on the frame
    it is given having NULL [prev] and [next] and not being on the list
    yet.  It then returns without fault, puts the frame in front of the
    others, makes it [head], adds one to [numFrames], allocates and frees
    nothing; a [findFrame] for the page of that frame returns that very
    frame, whatever the other frames hold. *)
Theorem dlist_insertFrame_then_findFrame {X : Type} (s : state X)
    (ls : list (positive * (Z * X * bool))) (a : positive) (f : Frame X) (fuel : nat) :
  linked s ls -> mem s !! a = Some f -> prev f = None -> next f = None ->
  a ∉ ls.*1 -> Z.of_nat (length ls) < INT_MAX -> (length ls < fuel)%nat ->
  exists s', insertFrame (Some a) s = Ret (tt, s') /\
    linked s' ((a, info f) :: ls) /\
    head (flist s') = Some a /\
    numFrames (flist s') = numFrames (flist s) + 1 /\
    dom (mem s') = dom (mem s) /\
    findFrame fuel (page f) s' = Ret (Some a, s').
Proof.
  intros Hl Hf Hp Hn Ha Hlen Hfuel.
  destruct (insertFrame_spec s ls a f Hl Hf Hp Hn Ha Hlen) as ([] & s' & Hrun & Hl' & Hdom & _).
  exists s'. split; [exact Hrun|]. split; [exact Hl'|].
  pose proof Hl' as (_ & Hd' & Hn'). pose proof Hl as (_ & _ & Hn0).
  split; [destruct Hd' as [Hh _]; exact Hh|].
  split; [rewrite Hn', Hn0; cbn [length]; lia|]. split; [exact Hdom|].
  destruct (dlist_findFrame_spec s' _ fuel (page f) Hl') as (r & Hfind & Hr); [cbn [length]; lia|].
  rewrite Hfind. destruct r as [b|].
  - destruct Hr as (l1 & e & l2 & Heq & _ & Hl1). destruct l1 as [|x l1].
    + cbn in Heq. congruence.
    + exfalso. injection Heq as <- _. apply (Hl1 (a, info f)); [left|reflexivity].
  - exfalso. apply (Hr (a, info f)); [left|reflexivity].
Qed.

Lemma dlist_insertFrame_then_findFrame_witness :
  exists s',
    insertFrame (Some 3%positive)
      (mkState (<[3%positive := mkFrame 9 true tt None None]> (mem (lru_after [7; 8])))
         (flist (lru_after [7; 8]))) = Ret (tt, s') /\
    linked s' [(3%positive, (9, tt, true)); (2%positive, (8, tt, true)); (1%positive, (7, tt, true))] /\
    head (flist s') = Some 3%positive /\
    numFrames (flist s') = numFrames (flist (lru_after [7; 8])) + 1 /\
    dom (mem s') = dom (<[3%positive := mkFrame 9 true tt None None]> (mem (lru_after [7; 8]))) /\
    findFrame 3 9 s' = Ret (Some 3%positive, s').
Proof.
  refine (dlist_insertFrame_then_findFrame
           (mkState (<[3%positive := mkFrame 9 true tt None None]> (mem (lru_after [7; 8])))
              (flist (lru_after [7; 8])))
           [(2%positive, (8, tt, true)); (1%positive, (7, tt, true))]
           3%positive (mkFrame 9 true tt None None) 3 _ _ _ _ _ _ _).
  - split; [|split; [|reflexivity]].
    + vm_compute. repeat constructor; set_solver.
    + vm_compute. repeat (split || eexists).
  - vm_compute. reflexivity.
  - reflexivity.
  - reflexivity.
  - vm_compute. set_solver.
  - vm_compute. reflexivity.
  - vm_compute. lia.
Defined.

(** X4 (removeFrame).  For a frame of the list (head, tail or in between)
    [removeFrame] returns without fault; the other frames stay linked in
    their order, [numFrames] goes down by one and the frame is freed.
    When no page was on the list twice, [findFrame] no longer finds the
    page of the removed frame; and a second [removeFrame] of the same
    pointer reads freed memory, which the model reports as a fault. *)
Theorem dlist_removeFrame_unlinks_and_frees {X : Type} (s : state X)
    (l1 : list (positive * (Z * X * bool))) (a : positive) (e : Z * X * bool)
    (l2 : list (positive * (Z * X * bool))) (fuel : nat) :
  linked s (l1 ++ (a, e) :: l2) ->
  Z.of_nat (length (l1 ++ (a, e) :: l2)) <= INT_MAX ->
  NoDup (entry_page <$> (l1 ++ (a, e) :: l2)) ->
  (length (l1 ++ l2) <= fuel)%nat ->
  exists s', removeFrame (Some a) s = Ret (tt, s') /\
    linked s' (l1 ++ l2) /\
    mem s' !! a = None /\
    numFrames (flist s') = numFrames (flist s) - 1 /\
    findFrame fuel e.1.1 s' = Ret (None, s') /\
    removeFrame (Some a) s' = Crash.
Proof.
  intros Hl Hlen Hnd Hfuel.
  destruct (removeFrame_spec s l1 a e l2 Hl Hlen) as ([] & s' & Hrun & Hl' & Hdom & _).
  assert (Hnone : mem s' !! a = None).
  { apply not_elem_of_dom. rewrite Hdom. set_solver. }
  exists s'. split; [exact Hrun|]. split; [exact Hl'|]. split; [exact Hnone|].
  pose proof Hl' as (_ & _ & Hn'). pose proof Hl as (_ & _ & Hn0).
  split; [rewrite Hn', Hn0, !length_app; cbn [length]; lia|]. split.
  - destruct (dlist_findFrame_spec s' _ fuel e.1.1 Hl' Hfuel) as (r & Hfind & Hr).
    rewrite Hfind. destruct r as [b|]; [exfalso|reflexivity].
    destruct Hr as (k1 & e' & k2 & Heq & He' & _).
    assert (Hin : e.1.1 ∈ (entry_page <$> (l1 ++ l2))).
    { rewrite Heq. apply list_elem_of_fmap. exists (b, e'). split; [symmetry; exact He'|].
      apply elem_of_app. right. left. }
    rewrite fmap_app, fmap_cons in Hnd. apply NoDup_app in Hnd as (_ & Hdis & Hnd2).
    apply NoDup_cons in Hnd2 as [Hnot _].
    rewrite fmap_app in Hin. apply elem_of_app in Hin as [Hin|Hin].
    + apply (Hdis _ Hin). left.
    + exact (Hnot Hin).
  - unfold removeFrame, bind, get_prev, bind, load. rewrite Hnone. reflexivity.
Qed.

Lemma dlist_removeFrame_unlinks_and_frees_witness :
  exists s', removeFrame (Some 2%positive) (lfu_after [7; 8; 7; 9]) = Ret (tt, s') /\
    linked s' ([(3%positive, (9, 1, true))] ++ [(1%positive, (7, 2, true))]) /\
    mem s' !! 2%positive = None /\
    numFrames (flist s') = numFrames (flist (lfu_after [7; 8; 7; 9])) - 1 /\
    findFrame 2 8 s' = Ret (None, s') /\
    removeFrame (Some 2%positive) s' = Crash.
Proof.
  apply (dlist_removeFrame_unlinks_and_frees (lfu_after [7; 8; 7; 9])
           [(3%positive, (9, 1, true))] 2%positive (8, 1, true)
           [(1%positive, (7, 2, true))] 2).
  - split; [|split; [|reflexivity]].
    + vm_compute. repeat constructor; set_solver.
    + vm_compute. repeat (split || eexists).
  - vm_compute. discriminate.
  - vm_compute. repeat constructor; set_solver.
  - vm_compute. lia.
Defined.

(** X5 (insertFrame, then removeFrame).  Inserting a frame and removing it
    again restores the list exactly: [head], [tail], [numFrames] and
    every frame of the list, with its links, are what they were; the only
    difference is that the frame has been freed. *)
Theorem dlist_insertFrame_removeFrame_restores {X : Type} (s : state X)
    (ls : list (positive * (Z * X * bool))) (a : positive) (f : Frame X) :
  linked s ls -> mem s !! a = Some f -> prev f = None -> next f = None ->
  a ∉ ls.*1 -> Z.of_nat (length ls) < INT_MAX ->
  (insertFrame (Some a) ;; removeFrame (Some a)) s =
    Ret (tt, mkState (delete a (mem s)) (flist s)).
Proof.
  intros Hl Hf Hp Hn Ha Hlen.
  destruct (insertFrame_spec s ls a f Hl Hf Hp Hn Ha Hlen) as ([] & s1 & Hrun1 & Hl1 & Hdom1 & Hout1).
  destruct (removeFrame_spec s1 [] a (info f) ls Hl1) as ([] & s2 & Hrun2 & Hl2 & Hdom2 & Hout2).
  { cbn [app length]. lia. }
  unfold bind. rewrite Hrun1, Hrun2. do 2 f_equal. cbn [app] in *.
  apply (linked_same _ _ ls Hl2).
  - destruct Hl as (Hnd & Hd & Hnum). split; [exact Hnd|]. split; [|exact Hnum].
    cbn [mem flist]. apply dlseg_delete_other; assumption.
  - intros b Hb. cbn [mem]. destruct (decide (b = a)) as [->|Hne].
    + rewrite lookup_delete_eq. apply not_elem_of_dom. rewrite Hdom2. set_solver.
    + rewrite lookup_delete_ne by congruence.
      rewrite Hout2, Hout1; [reflexivity| |]; cbn; set_solver.
Qed.

Lemma dlist_insertFrame_removeFrame_restores_witness :
  (insertFrame (Some 3%positive) ;; removeFrame (Some 3%positive))
    (mkState (<[3%positive := mkFrame 9 true tt None None]> (mem (lru_after [7; 8])))
       (flist (lru_after [7; 8]))) =
  Ret (tt, mkState (delete 3%positive
                      (<[3%positive := mkFrame 9 true tt None None]> (mem (lru_after [7; 8]))))
             (flist (lru_after [7; 8]))).
Proof.
  refine (dlist_insertFrame_removeFrame_restores
           (mkState (<[3%positive := mkFrame 9 true tt None None]> (mem (lru_after [7; 8])))
              (flist (lru_after [7; 8])))
           [(2%positive, (8, tt, true)); (1%positive, (7, tt, true))]
           3%positive (mkFrame 9 true tt None None) _ _ _ _ _ _).
  - split; [|split; [|reflexivity]].
    + vm_compute. repeat constructor; set_solver.
    + vm_compute. repeat (split || eexists).
  - vm_compute. reflexivity.
  - reflexivity.
  - reflexivity.
  - vm_compute. set_solver.
  - vm_compute. reflexivity.
Defined.

(** X6 (no frame is lost).  In every state the LFU program and the LRU
    program reach, the allocated frames are exactly the frames listed
    from [head]: their number is [numFrames], every one of them is
    occupied, [head] is the frame listed first and has no predecessor,
    [tail] is the frame listed last and has no successor, and both are
    NULL exactly when the list is empty. *)
Theorem lists_frames_accounted :
  (forall s : LFU.state, LFU.reachable s -> accounted s) /\
  (forall s : LRU.state, LRU.reachable s -> accounted s).
Proof.
  split; intros s Hr; apply Inv_accounted.
  - apply LFUFacts.lfu_reachable_Inv, Hr.
  - apply LRUFacts.lru_reachable_Inv, Hr.
Qed.

Lemma lists_frames_accounted_witness :
  accounted (lfu_after [1; 2; 3; 4; 5; 1; 2; 1; 3; 4]) /\
  accounted (lru_after [1; 2; 3; 4; 5; 1; 2; 1; 3; 4]).
Proof.
  split.
  - apply (proj1 lists_frames_accounted).
    apply lfu_after_reachable. eexists. vm_compute. reflexivity.
  - apply (proj2 lists_frames_accounted).
    apply lru_after_reachable. eexists. vm_compute. reflexivity.
Defined.

(** X7 (printFrameList of the LFU and LRU programs).  In every reachable
    state the walk of [printFrameList] ends within [NUM_FRAMES]
    iterations and changes nothing; it prints at most [NUM_FRAMES] lines
    and every line is for an occupied frame, so the other wording of the
    line is never printed. *)
Theorem lists_printFrameList_reads :
  (forall (s : LFU.state) (fuel : nat),
     LFU.reachable s -> (Z.to_nat NUM_FRAMES <= fuel)%nat ->
     printFrameList fuel s = Ret (resident s, s) /\
     (length (resident s) <= Z.to_nat NUM_FRAMES)%nat /\
     Forall (fun e => e.2 = true) (resident s)) /\
  (forall (s : LRU.state) (fuel : nat),
     LRU.reachable s -> (Z.to_nat NUM_FRAMES <= fuel)%nat ->
     printFrameList fuel s = Ret (resident s, s) /\
     (length (resident s) <= Z.to_nat NUM_FRAMES)%nat /\
     Forall (fun e => e.2 = true) (resident s)).
Proof.
  split; intros s fuel Hr Hfuel; apply Inv_printFrameList; auto.
  - apply LFUFacts.lfu_reachable_Inv, Hr.
  - apply LRUFacts.lru_reachable_Inv, Hr.
Qed.

Lemma lists_printFrameList_reads_witness :
  (printFrameList 4 (lfu_after [1; 2; 3; 4; 5; 1; 2; 1; 3; 4]) =
     Ret (resident (lfu_after [1; 2; 3; 4; 5; 1; 2; 1; 3; 4]),
          lfu_after [1; 2; 3; 4; 5; 1; 2; 1; 3; 4]) /\
   (length (resident (lfu_after [1; 2; 3; 4; 5; 1; 2; 1; 3; 4]%Z)) <= Z.to_nat NUM_FRAMES)%nat /\
   Forall (fun e => e.2 = true) (resident (lfu_after [1; 2; 3; 4; 5; 1; 2; 1; 3; 4]))) /\
  (printFrameList 4 (lru_after [1; 2; 3; 4; 5; 1; 2; 1; 3; 4]) =
     Ret (resident (lru_after [1; 2; 3; 4; 5; 1; 2; 1; 3; 4]),
          lru_after [1; 2; 3; 4; 5; 1; 2; 1; 3; 4]) /\
   (length (resident (lru_after [1; 2; 3; 4; 5; 1; 2; 1; 3; 4]%Z)) <= Z.to_nat NUM_FRAMES)%nat /\
   Forall (fun e => e.2 = true) (resident (lru_after [1; 2; 3; 4; 5; 1; 2; 1; 3; 4]))).
Proof.
  split.
  - apply (proj1 lists_printFrameList_reads (lfu_after [1; 2; 3; 4; 5; 1; 2; 1; 3; 4]) 4%nat).
    + apply lfu_after_reachable. eexists. vm_compute. reflexivity.
    + vm_compute. lia.
  - apply (proj2 lists_printFrameList_reads (lru_after [1; 2; 3; 4; 5; 1; 2; 1; 3; 4]) 4%nat).
    + apply lru_after_reachable. eexists. vm_compute. reflexivity.
    + vm_compute. lia.
Defined.

(** ** The policies of LRU and LFU *)

Import LRU LRUFacts Recency RecencyFacts.

(** X8 (LRU, one access).  On the pages, [loadPage] of the LRU program is
    the list function [lru_update]: the page accessed comes first; if it
    was resident the other pages keep their order, and if it was not, the
    last page is dropped when all [NUM_FRAMES] frames were in use. *)
Theorem lru_loadPage_refines_list (fuel : nat) (pg : Z) (s : LRU.state) :
  LRU.reachable s -> (Z.to_nat NUM_FRAMES <= fuel)%nat ->
  exists s', LRU.loadPage fuel pg s = Ret (tt, s') /\
    resident_pages s' = lru_update pg (resident_pages s).
Proof.
  intros Hr Hfuel. destruct (lru_reachable_Inv s Hr) as (ls & Hh & Hwf).
  destruct (lru_loadPage_step fuel pg s ls Hh Hwf Hfuel) as (s' & ls' & Hrun & _).
  exists s'. split; [exact Hrun|]. eapply lru_loadPage_pages; eauto.
Qed.

Lemma lru_loadPage_refines_list_witness :
  exists s', LRU.loadPage 4 3 (lru_after [1; 2; 3; 4; 5]) = Ret (tt, s') /\
    resident_pages s' = lru_update 3 (resident_pages (lru_after [1; 2; 3; 4; 5])).
Proof.
  apply (lru_loadPage_refines_list 4 3 (lru_after [1; 2; 3; 4; 5])).
  - apply lru_after_reachable. eexists. vm_compute. reflexivity.
  - vm_compute. lia.
Defined.

(** X9 (LRU, a whole run).  After any sequence of accesses from the empty
    list, the resident pages of the LRU program are the [NUM_FRAMES] most
    recently accessed distinct pages, the latest first. *)
Theorem lru_keeps_most_recent (fuel : nat) (pgs : list Z) :
  (Z.to_nat NUM_FRAMES <= fuel)%nat ->
  exists s, LRU.loadPages fuel pgs createFrameList = Ret (tt, s) /\
    resident_pages s = most_recent pgs.
Proof.
  intros Hfuel.
  destruct (lru_loadPages_returns fuel pgs createFrameList) as (s & Hrun);
    [apply reach_init|exact Hfuel|].
  exists s. split; [exact Hrun|].
  apply (lru_loadPages_pages fuel pgs createFrameList s []); [apply reach_init|reflexivity|exact Hrun].
Qed.

Lemma lru_keeps_most_recent_witness :
  exists s, LRU.loadPages 4 [1; 2; 3; 4; 5; 1; 2; 1; 3; 4] createFrameList = Ret (tt, s) /\
    resident_pages s = most_recent [1; 2; 3; 4; 5; 1; 2; 1; 3; 4].
Proof.
  apply (lru_keeps_most_recent 4 [1; 2; 3; 4; 5; 1; 2; 1; 3; 4]).
  vm_compute. lia.
Defined.

Import LFU LFUFacts LFUMore Frequency FrequencyFacts.

(** X10 (LFU, one access).  On the frames listed from [head], [loadPage]
    of the LFU program is the list function [lfu_update]: a resident page
    gets one more in its frequency and no frame moves; a page that is not
    resident enters in front with frequency 1, after the first frame of
    least frequency has left the list when all [NUM_FRAMES] frames were in
    use. *)
Theorem lfu_loadPage_refines_list (fuel : nat) (pg : Z) (s : LFU.state) :
  LFU.reachable s -> (Z.to_nat NUM_FRAMES <= fuel)%nat ->
  exists s', LFU.loadPage fuel pg s = Ret (tt, s') /\
    resident s' = lfu_update pg (resident s).
Proof.
  intros Hr Hfuel. destruct (lfu_reachable_Inv s Hr) as (ls & Hh & Hwf).
  destruct (lfu_loadPage_step fuel pg s ls Hh Hwf Hfuel) as (s' & ls' & Hrun & Hh' & _ & Hstep).
  exists s'. split; [exact Hrun|].
  rewrite (resident_holds s' ls' Hh'), (resident_holds s ls Hh).
  apply lfu_step_list, Hstep.
Qed.

Lemma lfu_loadPage_refines_list_witness :
  exists s', LFU.loadPage 4 5 (lfu_after [1; 2; 1; 3; 4]) = Ret (tt, s') /\
    resident s' = lfu_update 5 (resident (lfu_after [1; 2; 1; 3; 4])).
Proof.
  apply (lfu_loadPage_refines_list 4 5 (lfu_after [1; 2; 1; 3; 4])).
  - apply lfu_after_reachable. eexists. vm_compute. reflexivity.
  - vm_compute. lia.
Defined.

(** X11 (LFU, pages seen once).  The victim search of the LFU program
    starts at [head], where the newest page is, and moves on only for a
    strictly smaller frequency.  So when the list is full, its first
    frame has frequency 1 and no frame has less, a run of distinct pages
    that are not resident replaces that first frame again and again: the
    last page of the run ends up in front with frequency 1 and the other
    three frames are untouched. *)
Theorem lfu_new_pages_churn_one_frame (fuel : nat) (pgs : list Z) (pg : Z)
    (s : LFU.state) (p : Z) (rest : list (Z * Z * bool)) :
  LFU.reachable s -> (Z.to_nat NUM_FRAMES <= fuel)%nat ->
  resident s = (p, 1, true) :: rest ->
  length (resident s) = Z.to_nat NUM_FRAMES ->
  Forall (fun e => 1 <= e.1.2) rest ->
  NoDup (pgs ++ [pg]) ->
  (forall q, q ∈ pgs ++ [pg] -> q ∉ resident_pages s) ->
  exists s', LFU.loadPages fuel (pgs ++ [pg]) s = Ret (tt, s') /\
    resident s' = (pg, 1, true) :: rest.
Proof.
  revert s p. induction pgs as [|q pgs IH]; intros s p Hr Hfuel Hres Hfull Hfreq Hnd Hmiss.
  - destruct (lfu_miss_head fuel pg s p rest Hr Hfuel) as (s' & Hrun & Hres'); auto.
    { apply Hmiss. left. }
    exists s'. split; [|exact Hres']. cbn [app loadPages]. unfold bind. rewrite Hrun. reflexivity.
  - destruct (lfu_miss_head fuel q s p rest Hr Hfuel) as (s1 & Hrun & Hres1); auto.
    { apply Hmiss. left. }
    cbn [app] in Hnd. apply NoDup_cons in Hnd as [Hq Hnd].
    destruct (IH s1 q) as (s' & Hrun' & Hres'); auto.
    + eapply reach_load; eauto.
    + rewrite Hres1. rewrite Hres in Hfull. exact Hfull.
    + intros r Hin Hr1. specialize (Hmiss r ltac:(right; exact Hin)).
      unfold resident_pages in Hmiss, Hr1. rewrite Hres in Hmiss. rewrite Hres1 in Hr1.
      rewrite filter_cons_True, fmap_cons in Hmiss, Hr1 by reflexivity.
      apply elem_of_cons in Hr1 as [Hr1|Hr1].
      * cbn in Hr1. subst r. contradiction.
      * apply Hmiss. right. exact Hr1.
    + exists s'. split; [|exact Hres']. cbn [app loadPages]. unfold bind. rewrite Hrun. exact Hrun'.
Qed.

Lemma lfu_new_pages_churn_one_frame_witness :
  exists s', LFU.loadPages 4 ([6; 7] ++ [8]) (lfu_after [1; 2; 1; 3; 4; 5]) = Ret (tt, s') /\
    resident s' = (8, 1, true) :: [(3, 1, true); (2, 1, true); (1, 2, true)].
Proof.
  apply (lfu_new_pages_churn_one_frame 4 [6; 7] 8 (lfu_after [1; 2; 1; 3; 4; 5]) 5
           [(3, 1, true); (2, 1, true); (1, 2, true)]).
  - apply lfu_after_reachable. eexists. vm_compute. reflexivity.
  - vm_compute. lia.
  - vm_compute. reflexivity.
  - vm_compute. reflexivity.
  - repeat constructor; cbn; lia.
  - vm_compute. repeat constructor; set_solver.
  - vm_compute. intros q Hq Hin.
    repeat (apply elem_of_cons in Hq as [->|Hq];
            [repeat (apply elem_of_cons in Hin as [Hin|Hin]; [discriminate|]);
             apply elem_of_nil in Hin; exact Hin|]).
    apply elem_of_nil in Hq. exact Hq.
Defined.

(** ** The Clock table *)

Import Clock ClockFacts ClockView ClockViewFacts ClockPrint ClockPrintFacts ClockQueue ClockQueueFacts
  EngineFacts ClockChanceFacts.

(** X12 (findFrame of the Clock program).  On a table of [NUM_FRAMES]
    slots [findFrame] reads inside the array only, and returns -1 or an
    index of the table.  It returns -1 exactly when no slot, occupied or
    not, has the page in its [page] field, and otherwise the lowest index
    of such a slot. *)
Theorem clock_findFrame_first_match (fl : FrameList) (pg : Z) :
  shaped fl ->
  exists r, findFrame fl pg = Ret r /\ -1 <= r < NUM_FRAMES /\
    (r = -1 -> forall j f, frames fl !! j = Some f -> page f <> pg) /\
    (r <> -1 ->
       (exists f, frames fl !! Z.to_nat r = Some f /\ page f = pg) /\
       forall i g, (i < Z.to_nat r)%nat -> frames fl !! i = Some g -> page g <> pg).
Proof.
  intros Hsh.
  destruct (clock_findFrame_spec fl pg Hsh) as [[Hf Hno]|(j & f & Hf & Hj & Hp & Hfirst)].
  - exists (-1). split; [exact Hf|]. split; [unfold NUM_FRAMES; lia|].
    split; [auto|]. intros H. congruence.
  - exists (Z.of_nat j). split; [exact Hf|].
    destruct Hsh as [Hlen _]. apply lookup_lt_Some in Hj as Hlt.
    split; [lia|]. split; [lia|]. intros _. rewrite Nat2Z.id. eauto.
Qed.

Lemma clock_findFrame_first_match_witness :
  exists r, findFrame (clock_after [7; 8]%Z) 8 = Ret r /\ -1 <= r < NUM_FRAMES /\
    (r = -1 -> forall j f, frames (clock_after [7; 8]%Z) !! j = Some f -> page f <> 8) /\
    (r <> -1 ->
       (exists f, frames (clock_after [7; 8]%Z) !! Z.to_nat r = Some f /\ page f = 8) /\
       forall i g, (i < Z.to_nat r)%nat -> frames (clock_after [7; 8]%Z) !! i = Some g -> page g <> 8).
Proof.
  apply (clock_findFrame_first_match (clock_after [7; 8]%Z) 8).
  vm_compute. split; [reflexivity|]. split; [discriminate|reflexivity].
Defined.

(** X13 (the Clock table fills in index order).  In every reachable state
    of the Clock program the occupied slots are the first ones of the
    table, the empty slots still have the page -1 they were created with,
    and while a slot is empty the hand is on the first empty slot. *)
Theorem clock_slots_fill_in_order (fl : FrameList) :
  reachable fl ->
  (forall i f, frames fl !! i = Some f ->
     (valid f = true <-> (i < occupied fl)%nat) /\
     (valid f = false -> page f = -1)) /\
  ((occupied fl < Z.to_nat NUM_FRAMES)%nat -> clockHand fl = Z.of_nat (occupied fl)).
Proof.
  intros Hr. destruct (clock_reachable_Inv fl Hr) as ([Hlen _] & _ & _).
  destruct (reachable_fills fl Hr) as (occ & emp & Hfr & Ho & He & Hh).
  destruct (fills_counts fl occ emp Hfr Ho He) as [Hocc _]. rewrite Hocc. split.
  - intros i f Hi. rewrite Hfr in Hi. apply lookup_app_Some in Hi as [Hi|[Hge Hi]].
    + assert (valid f = true).
      { rewrite Forall_forall in Ho. apply Ho. eapply list_elem_of_lookup_2; eauto. }
      apply lookup_lt_Some in Hi. split; [tauto|congruence].
    + assert (valid f = false /\ page f = -1) as [Hv Hp].
      { rewrite Forall_forall in He. apply He. eapply list_elem_of_lookup_2; eauto. }
      split; [|auto]. split; [congruence|lia].
  - intros Hlt. apply Hh. intros ->. rewrite Hfr, app_nil_r in Hlen. lia.
Qed.

Lemma clock_slots_fill_in_order_witness :
  (forall i f, frames (clock_after [7; 8]%Z) !! i = Some f ->
     (valid f = true <-> (i < occupied (clock_after [7; 8]%Z))%nat) /\
     (valid f = false -> page f = -1)) /\
  ((occupied (clock_after [7; 8]%Z) < Z.to_nat NUM_FRAMES)%nat -> clockHand (clock_after [7; 8]%Z) = Z.of_nat (occupied (clock_after [7; 8]%Z))).
Proof.
  apply (clock_slots_fill_in_order (clock_after [7; 8]%Z)).
  apply clock_after_reachable. eexists. vm_compute. reflexivity.
Defined.

(** X14 (Clock, miss with a free slot).  While a slot is empty, loading a
    page that is not resident takes a single turn of the scan: the page
    goes into the first empty slot, occupied and referenced, the hand
    moves to the next slot, no slot is cleared and no page leaves. *)
Theorem clock_miss_takes_free_slot (fl : FrameList) (pg : Z) (n : nat) :
  reachable fl -> (occupied fl < Z.to_nat NUM_FRAMES)%nat ->
  pg ∉ resident_pages fl -> pg <> -1 ->
  exists fl', loadPage (S n) fl pg = Ret fl' /\
    frames fl' = <[occupied fl := mkFrame pg true true]> (frames fl) /\
    clockHand fl' = Z.of_nat (S (occupied fl)) mod NUM_FRAMES /\
    resident_pages fl' = resident_pages fl ++ [pg].
Proof.
  intros Hr Hlt Hnr Hne.
  destruct (clock_reachable_Inv fl Hr) as (Hsh & _ & _).
  destruct (reachable_fills fl Hr) as (occ & emp & Hfr & Ho & He & Hh).
  destruct (fills_counts fl occ emp Hfr Ho He) as [Hocc Hres].
  rewrite Hocc in *. rewrite Hres in *.
  destruct emp as [|e emp].
  { exfalso. destruct Hsh as [Hlen _]. rewrite Hfr, app_nil_r in Hlen. lia. }
  specialize (Hh ltac:(discriminate)).
  pose proof He as He0. apply Forall_cons in He0 as [[Hv _] He'].
  assert (Hno : forall j f, frames fl !! j = Some f -> page f <> pg).
  { intros j f Hj Hp. rewrite Hfr in Hj. apply list_elem_of_lookup_2 in Hj.
    apply elem_of_app in Hj as [Hj|Hj].
    - apply Hnr. rewrite <- Hp. apply list_elem_of_fmap. eauto.
    - rewrite Forall_forall in He. destruct (He f Hj). congruence. }
  assert (Hfind : findFrame fl pg = Ret (-1)).
  { destruct (clock_findFrame_spec fl pg Hsh) as [[Hf _]|(j & f & _ & Hj & Hp & _)];
      [exact Hf|]. exfalso. eapply Hno; eauto. }
  unfold loadPage. rewrite Hfind. cbn [rbind Z.eqb negb].
  rewrite (scan_free_slot n fl pg occ e emp Hsh Hfr Hv Hh).
  eexists. split; [reflexivity|]. cbn [frames clockHand]. split; [|split].
  - rewrite Hfr, insert_app_r_alt, Nat.sub_diag by lia. reflexivity.
  - rewrite hand_next_mod by (rewrite <- Hh; apply Hsh). f_equal. lia.
  - unfold resident_pages. cbn [frames].
    change (occ ++ mkFrame pg true true :: emp) with (occ ++ [mkFrame pg true true] ++ emp).
    rewrite app_assoc, occupied_app; [rewrite fmap_app; reflexivity| |exact He'].
    apply Forall_app. split; [exact Ho|repeat constructor].
Qed.

Lemma clock_miss_takes_free_slot_witness :
  exists fl', loadPage 1 (clock_after [7; 8]%Z) 9 = Ret fl' /\
    frames fl' = <[occupied (clock_after [7; 8]%Z) := mkFrame 9 true true]> (frames (clock_after [7; 8]%Z)) /\
    clockHand fl' = Z.of_nat (S (occupied (clock_after [7; 8]%Z))) mod NUM_FRAMES /\
    resident_pages fl' = resident_pages (clock_after [7; 8]%Z) ++ [9].
Proof.
  apply (clock_miss_takes_free_slot (clock_after [7; 8]%Z) 9 0).
  - apply clock_after_reachable. eexists. vm_compute. reflexivity.
  - vm_compute. lia.
  - vm_compute. intros H. repeat (apply elem_of_cons in H as [H|H]; [discriminate|]).
    apply elem_of_nil in H. exact H.
  - discriminate.
Defined.

(** X15 (Clock, the page number -1).  Empty slots hold -1 in their [page]
    field and [findFrame] does not look at [valid].  So while a slot is
    empty, [loadPage] of -1 takes the first empty slot for a hit: it sets
    the reference bit of that slot and nothing else; -1 was not resident
    and is not resident afterwards, the slot stays empty and the hand
    stays where it was. *)
Theorem clock_sentinel_not_loaded (fl : FrameList) (fuel : nat) :
  reachable fl -> (occupied fl < Z.to_nat NUM_FRAMES)%nat ->
  (-1 ∉ resident_pages fl) /\
  exists fl', loadPage fuel fl (-1) = Ret fl' /\
    fl' = mkFrameList (numFrames fl)
            (<[occupied fl := mkFrame (-1) false true]> (frames fl)) (clockHand fl) /\
    occupied fl' = occupied fl /\
    resident_pages fl' = resident_pages fl.
Proof.
  intros Hr Hlt.
  destruct (clock_reachable_Inv fl Hr) as (Hsh & Hd & _).
  destruct (reachable_fills fl Hr) as (occ & emp & Hfr & Ho & He & Hh).
  destruct (fills_counts fl occ emp Hfr Ho He) as [Hocc Hres].
  rewrite Hocc in *. rewrite Hres in *.
  destruct emp as [|e emp].
  { exfalso. destruct Hsh as [Hlen _]. rewrite Hfr, app_nil_r in Hlen. lia. }
  pose proof He as He0. apply Forall_cons in He0 as [[Hv Hp] He'].
  assert (Hk : frames fl !! length occ = Some e).
  { rewrite Hfr, lookup_app_r, Nat.sub_diag by lia. reflexivity. }
  assert (Hocc1 : forall j f, occ !! j = Some f -> page f <> -1).
  { intros j f Hj Hpf.
    assert (valid f = true).
    { rewrite Forall_forall in Ho. apply Ho. eapply list_elem_of_lookup_2; eauto. }
    assert (j = length occ); [|apply lookup_lt_Some in Hj; lia].
    apply (Hd j (length occ) f e); auto; [|congruence].
    rewrite Hfr. apply lookup_app_l_Some. exact Hj. }
  split.
  { intros Hin. apply list_elem_of_fmap in Hin as (f & Hpf & Hin).
    apply list_elem_of_lookup in Hin as [j Hj]. eapply Hocc1; eauto. }
  assert (Hfind : findFrame fl (-1) = Ret (Z.of_nat (length occ))).
  { destruct (clock_findFrame_spec fl (-1) Hsh) as [[_ Hno]|(j & f & Hf & Hj & Hpf & Hfirst)].
    - exfalso. eapply Hno; eauto.
    - rewrite Hf. do 2 f_equal.
      destruct (Nat.lt_trichotomy j (length occ)) as [Hlt'|[Heq|Hgt]]; [|exact Heq|].
      + exfalso. rewrite Hfr, lookup_app_l in Hj by exact Hlt'. eapply Hocc1; eauto.
      + exfalso. eapply (Hfirst (length occ)); eauto. }
  unfold loadPage. rewrite Hfind. cbn [rbind].
  replace (Z.of_nat (length occ) =? -1) with false by (symmetry; apply Z.eqb_neq; lia).
  cbn [negb]. unfold update_frame.
  assert (Hat : frame_at (frames fl) (Z.of_nat (length occ)) = Ret e).
  { apply frame_at_Ret. rewrite Nat2Z.id. split; [lia|exact Hk]. }
  rewrite Hat. cbn [rbind]. rewrite Nat2Z.id.
  unfold with_reference. rewrite Hv, Hp.
  eexists. split; [reflexivity|]. split; [reflexivity|].
  apply (fills_counts _ occ (mkFrame (-1) false true :: emp)); [|exact Ho|].
  - cbn [frames]. rewrite Hfr, insert_app_r_alt, Nat.sub_diag by lia. reflexivity.
  - constructor; [split; reflexivity|exact He'].
Qed.

Lemma clock_sentinel_not_loaded_witness :
  (-1 ∉ resident_pages (clock_after [7; 8]%Z)) /\
  exists fl', loadPage 0 (clock_after [7; 8]%Z) (-1) = Ret fl' /\
    fl' = mkFrameList (numFrames (clock_after [7; 8]%Z))
            (<[occupied (clock_after [7; 8]%Z) := mkFrame (-1) false true]> (frames (clock_after [7; 8]%Z))) (clockHand (clock_after [7; 8]%Z)) /\
    occupied fl' = occupied (clock_after [7; 8]%Z) /\
    resident_pages fl' = resident_pages (clock_after [7; 8]%Z).
Proof.
  apply (clock_sentinel_not_loaded (clock_after [7; 8]%Z) 0).
  - apply clock_after_reachable. eexists. vm_compute. reflexivity.
  - vm_compute. lia.
Defined.

(** X16 (the Clock scan is second chance).  Read the table as a queue that
    starts at the hand.  The scan passes over the occupied and referenced
    slots at the front, clearing each reference bit and sending the slot
    to the back, takes the first slot that is empty or not referenced,
    and puts the new page at the back of the queue; when every slot is
    occupied and referenced it takes the slot it started from, after a
    full turn.  The loop body runs once per slot passed and once more,
    not fewer times. *)
Theorem clock_scan_second_chance (fl : FrameList) (pg : Z) (pre rest : list Frame) :
  shaped fl ->
  from_hand fl = pre ++ rest ->
  Forall (fun f => claimable f = false) pre ->
  match rest with c :: _ => claimable c = true | [] => True end ->
  scan (length pre) fl pg = OutOfFuel /\
  exists fl', scan (S (length pre)) fl pg = Ret fl' /\
    numFrames fl' = numFrames fl /\
    clockHand fl' = (clockHand fl + Z.of_nat (length pre) + 1) mod NUM_FRAMES /\
    from_hand fl' =
      match rest with
      | _ :: post => post ++ (with_reference false <$> pre) ++ [mkFrame pg true true]
      | [] => drop 1 (with_reference false <$> pre) ++ [mkFrame pg true true]
      end.
Proof.
  intros Hsh Hq Hp Hc. split; [eapply scan_short; eauto|].
  destruct (scan_passes pg pre fl rest Hsh Hq Hp) as (fl1 & Hsh1 & Hn1 & Hh1 & Hq1 & Hrun).
  assert (Hhand : forall fl', clockHand fl' = (clockHand fl1 + 1) mod NUM_FRAMES ->
            clockHand fl' = (clockHand fl + Z.of_nat (length pre) + 1) mod NUM_FRAMES).
  { intros fl' ->. rewrite Hh1. apply Zplus_mod_idemp_l. }
  replace (S (length pre)) with (length pre + 1)%nat by lia. rewrite Hrun.
  destruct rest as [|c post].
  - destruct pre as [|x pre].
    { exfalso. destruct Hsh as [Hlen _]. unfold from_hand in Hq.
      apply (f_equal length) in Hq. rewrite length_app, length_drop, length_take in Hq.
      cbn in Hq. unfold NUM_FRAMES in *. lia. }
    cbn [app fmap list_fmap] in Hq1.
    destruct (scan_takes pg fl1 _ _ 0 Hsh1 Hq1) as (fl' & Hs & Hn & Hh' & Hq').
    { apply Forall_cons in Hp as [Hx _]. apply claimable_false in Hx as [Hv _].
      unfold claimable. cbn. rewrite orb_true_r. reflexivity. }
    exists fl'. split; [exact Hs|]. split; [congruence|]. split; [auto|]. exact Hq'.
  - cbn [app] in Hq1.
    destruct (scan_takes pg fl1 _ _ 0 Hsh1 Hq1 Hc) as (fl' & Hs & Hn & Hh' & Hq').
    exists fl'. split; [exact Hs|]. split; [congruence|]. split; [auto|].
    rewrite Hq', <- app_assoc. reflexivity.
Qed.

Lemma clock_scan_second_chance_witness :
  scan 1 (clock_after [1; 2; 3; 4; 5; 2]) 6 = OutOfFuel /\
  exists fl', scan 2 (clock_after [1; 2; 3; 4; 5; 2]) 6 = Ret fl' /\
    numFrames fl' = numFrames (clock_after [1; 2; 3; 4; 5; 2]) /\
    clockHand fl' = (clockHand (clock_after [1; 2; 3; 4; 5; 2]) + 1 + 1) mod NUM_FRAMES /\
    from_hand fl' =
      [mkFrame 4 true false; mkFrame 5 true true; mkFrame 2 true false; mkFrame 6 true true].
Proof.
  apply (clock_scan_second_chance (clock_after [1; 2; 3; 4; 5; 2]) 6
           [mkFrame 2 true true]
           [mkFrame 3 true false; mkFrame 4 true false; mkFrame 5 true true]).
  - vm_compute. split; [reflexivity|]. split; [discriminate|reflexivity].
  - vm_compute. reflexivity.
  - repeat constructor.
  - reflexivity.
Defined.

(** X17 (Clock, a referenced page survives).  When the table is full and
    some slot has its reference bit clear, loading a page that is not
    resident does not evict any page whose reference bit is set: such a
    page is still resident afterwards, next to the page loaded. *)
Theorem clock_referenced_page_survives (fl : FrameList) (pg : Z) (fuel : nat)
    (i j : nat) (f g : Frame) :
  reachable fl -> (Z.to_nat NUM_FRAMES <= fuel)%nat ->
  occupied fl = Z.to_nat NUM_FRAMES -> pg ∉ resident_pages fl ->
  frames fl !! i = Some f -> reference f = true ->
  frames fl !! j = Some g -> reference g = false ->
  exists fl', loadPage fuel fl pg = Ret fl' /\
    page f ∈ resident_pages fl' /\ pg ∈ resident_pages fl'.
Proof.
  intros Hr Hfuel Hfull Hmiss Hi Hf Hj Hg.
  destruct (clock_reachable_Inv fl Hr) as (Hsh & _ & _).
  destruct (reachable_fills fl Hr) as (occ & emp & Hfr & Ho & He & _).
  destruct (fills_counts fl occ emp Hfr Ho He) as [Hocc _].
  assert (Hemp : emp = []).
  { destruct Hsh as [Hlen _]. rewrite Hfr, length_app in Hlen.
    destruct emp; [reflexivity|cbn [length] in Hlen; lia]. }
  subst emp. rewrite app_nil_r in Hfr. rewrite <- Hfr in Ho. clear He.
  rewrite Forall_forall in Ho.
  assert (Hno : forall k h, frames fl !! k = Some h -> page h <> pg).
  { intros k h Hk Hp. apply Hmiss. rewrite <- Hp.
    apply (clock_resident_in fl k h Hk), Ho. eapply list_elem_of_lookup_2; eauto. }
  assert (Hfind : findFrame fl pg = Ret (-1)).
  { destruct (clock_findFrame_spec fl pg Hsh) as [[Hfd _]|(k & h & _ & Hk & Hp & _)];
      [exact Hfd|]. exfalso. eapply Hno; eauto. }
  destruct (scan_full_table fuel fl pg Hsh Hfuel)
    as (pre & c & post & fl' & Hq & Hpre & Hc & Hs & Hq').
  { apply Exists_exists. exists g. split; [eapply list_elem_of_lookup_2; eauto|].
    unfold claimable. rewrite Hg. apply orb_true_r. }
  exists fl'. split; [unfold loadPage; rewrite Hfind; exact Hs|].
  assert (Hin' : forall h, h ∈ from_hand fl' -> valid h = true -> page h ∈ resident_pages fl').
  { intros h Hh Hv. rewrite from_hand_perm in Hh.
    apply list_elem_of_lookup in Hh as [k Hk]. eapply clock_resident_in; eauto. }
  split.
  - assert (Hfin : f ∈ from_hand fl).
    { rewrite from_hand_perm. eapply list_elem_of_lookup_2; eauto. }
    assert (Hfv : valid f = true) by (apply Ho; eapply list_elem_of_lookup_2; eauto).
    rewrite Hq in Hfin. apply elem_of_app in Hfin as [Hfin|Hfin].
    + apply (Hin' (with_reference false f)); [|exact Hfv].
      rewrite Hq'. apply elem_of_app. right. apply elem_of_app. left.
      apply list_elem_of_fmap. eauto.
    + apply elem_of_cons in Hfin as [->|Hfin].
      * exfalso. unfold claimable in Hc. rewrite Hfv, Hf in Hc. discriminate.
      * apply (Hin' f); [|exact Hfv]. rewrite Hq'. apply elem_of_app. left. exact Hfin.
  - apply (Hin' (mkFrame pg true true)); [|reflexivity].
    rewrite Hq'. apply elem_of_app. right. apply elem_of_app. right. left.
Qed.

Lemma clock_referenced_page_survives_witness :
  exists fl', loadPage 4 (clock_after [1; 2; 3; 4; 5; 2]) 6 = Ret fl' /\
    page (mkFrame 2 true true) ∈ resident_pages fl' /\ 6 ∈ resident_pages fl'.
Proof.
  apply (clock_referenced_page_survives (clock_after [1; 2; 3; 4; 5; 2]) 6 4
           1 2 (mkFrame 2 true true) (mkFrame 3 true false)).
  - apply clock_after_reachable. eexists. vm_compute. reflexivity.
  - vm_compute. lia.
  - vm_compute. reflexivity.
  - vm_compute. intros H. repeat (apply elem_of_cons in H as [H|H]; [discriminate|]).
    apply elem_of_nil in H. exact H.
  - vm_compute. reflexivity.
  - reflexivity.
  - vm_compute. reflexivity.
  - reflexivity.
Defined.

(** X18 (printFrameList of the Clock program).  In every reachable state
    [printFrameList] reads the [NUM_FRAMES] slots in index order without
    a fault; the lines of the occupied slots come first, those of the
    empty slots after them, each showing page -1. *)
Theorem clock_printFrameList_lines (fl : FrameList) :
  reachable fl ->
  exists occ emp,
    frames fl = occ ++ emp /\ length occ = occupied fl /\
    printFrameList fl =
      Ret (imap (fun i f => mkLine (Z.of_nat i) (page f) true (reference f)) occ ++
           imap (fun i f => mkLine (Z.of_nat (occupied fl + i)) (-1) false (reference f)) emp).
Proof.
  intros Hr. destruct (clock_reachable_Inv fl Hr) as ([Hlen _] & _ & _).
  destruct (reachable_fills fl Hr) as (occ & emp & Hfr & Ho & He & Hh).
  destruct (fills_counts fl occ emp Hfr Ho He) as [Hocc _].
  exists occ, emp. split; [exact Hfr|]. split; [auto|].
  unfold printFrameList.
  rewrite (clock_print_from_spec (frames fl) _ 0) by (unfold INT_MAX, NUM_FRAMES in *; lia).
  rewrite drop_0, Hfr, imap_app, Hocc. f_equal. f_equal.
  - apply imap_ext. intros i f Hi. cbn. f_equal.
    rewrite Forall_forall in Ho. apply Ho. eapply list_elem_of_lookup_2; eauto.
  - apply imap_ext. intros i f Hi. cbn.
    rewrite Forall_forall in He. destruct (He f) as [-> ->]; [|reflexivity].
    eapply list_elem_of_lookup_2; eauto.
Qed.

Lemma clock_printFrameList_lines_witness :
  exists occ emp,
    frames (clock_after [7; 8]%Z) = occ ++ emp /\ length occ = occupied (clock_after [7; 8]%Z) /\
    printFrameList (clock_after [7; 8]%Z) =
      Ret (imap (fun i f => mkLine (Z.of_nat i) (page f) true (reference f)) occ ++
           imap (fun i f => mkLine (Z.of_nat (occupied (clock_after [7; 8]%Z) + i)) (-1) false (reference f)) emp).
Proof.
  apply (clock_printFrameList_lines (clock_after [7; 8]%Z)).
  apply clock_after_reachable. eexists. vm_compute. reflexivity.
Defined.

(** ** The three programs side by side *)

Import EngineFacts.

(** X19 (the page loaded is resident).  In each of the three programs,
    from any reachable state, [loadPage] of a page other than -1 returns
    and the page is then in an occupied frame. *)
Theorem loaded_page_is_resident (e : engine) (pg : Z) (fuel : nat) :
  engine_reachable e -> pg <> -1 -> (Z.to_nat (2 * NUM_FRAMES) <= fuel)%nat ->
  exists e', engine_loadPage fuel pg e = Ret e' /\ pg ∈ engine_resident_pages e'.
Proof.
  intros Hr Hne Hfuel.
  destruct (engine_loadPage_returns e pg fuel Hr Hfuel) as (e' & Hrun & _).
  exists e'. split; [exact Hrun|].
  destruct (engine_load_effect fuel pg e e' Hr Hrun) as (Hin & _). auto.
Qed.

Lemma loaded_page_is_resident_witness :
  exists e', engine_loadPage 8 9 (Clock_engine (clock_after [1; 2; 3; 4; 5])) = Ret e' /\
    9 ∈ engine_resident_pages e'.
Proof.
  apply (loaded_page_is_resident (Clock_engine (clock_after [1; 2; 3; 4; 5])) 9 8).
  - apply clock_after_reachable. eexists. vm_compute. reflexivity.
  - discriminate.
  - vm_compute. lia.
Defined.

(** X20 (frames are taken one at a time and never given back).  In each
    of the three programs a [loadPage] leaves the number of occupied
    frames as it was or adds one; and while fewer than [NUM_FRAMES] frames
    are occupied, every page that was resident is still resident
    afterwards. *)
Theorem occupancy_only_grows (e : engine) (pg : Z) (fuel : nat) :
  engine_reachable e -> (Z.to_nat (2 * NUM_FRAMES) <= fuel)%nat ->
  exists e', engine_loadPage fuel pg e = Ret e' /\
    (engine_occupied e <= engine_occupied e' <= S (engine_occupied e))%nat /\
    ((engine_occupied e < Z.to_nat NUM_FRAMES)%nat ->
     forall q, q ∈ engine_resident_pages e -> q ∈ engine_resident_pages e').
Proof.
  intros Hr Hfuel.
  destruct (engine_loadPage_returns e pg fuel Hr Hfuel) as (e' & Hrun & _).
  exists e'. split; [exact Hrun|].
  destruct (engine_load_effect fuel pg e e' Hr Hrun) as (_ & Hocc & Hkeep). auto.
Qed.

Lemma occupancy_only_grows_witness :
  exists e', engine_loadPage 8 9 (LFU_engine (lfu_after [1; 2; 1])) = Ret e' /\
    (engine_occupied (LFU_engine (lfu_after [1; 2; 1]%Z)) <= engine_occupied e' <=
       S (engine_occupied (LFU_engine (lfu_after [1; 2; 1]%Z))))%nat /\
    ((engine_occupied (LFU_engine (lfu_after [1; 2; 1]%Z)) < Z.to_nat NUM_FRAMES)%nat ->
     forall q, q ∈ engine_resident_pages (LFU_engine (lfu_after [1; 2; 1])) ->
               q ∈ engine_resident_pages e').
Proof.
  apply (occupancy_only_grows (LFU_engine (lfu_after [1; 2; 1])) 9 8).
  - apply lfu_after_reachable. eexists. vm_compute. reflexivity.
  - vm_compute. lia.
Defined.
